(** * Visit counter: a shallow embedding of the analytics server

    The repository holds two versions of one Express server:

    - [src/unnamed/part_000]: counters kept in process memory only;
    - [src/server/index.js]: the same handlers with an optional
      PostgreSQL pool; when [DATABASE_URL] is missing [pool] is [null] and
      the in-memory branch runs.

    The development has two levels.

    First level (modules [Js], [Cors], [InMemory], [Server]): the
    arithmetic of the counters and the logic of the handlers.

    - A JavaScript number that holds a counter is an integer [Z] (or
      [NaN]); SQL [bigint] columns are integers [Z] as well.
    - The cookie [vid] is a string; [seenVisitorIds] is a [gset string].
    - A run of the server is a list of operations, each handled to its
      end before the next starts; with a database, one operation is the SQL
      statement (atomic in the database) together with the code after
      [await].
    - Everything the handler reads from outside is an explicit input: the
      cookie of the request, the value [crypto.randomUUID()] returns for
      this request, and whether [pool.query] resolves or rejects.

    Second level (modules [Double], [Utf16], [Cors16], [Vid], [Part000],
    [Index]): the same code on the data the running program has.

    - Numbers are doubles: an addition or a conversion gives the nearest
      double, so counters stop growing at [2^53].
    - [ALLOWED_ORIGIN] and [Origin] are strings of UTF-16 code units, and
      [trim] removes the white space of ECMAScript.
    - [req.cookies.vid] is the value [cookie-parser] leaves there: a
      string, or what a JSON cookie ([j:...]) was parsed to; a [Set] tells
      arrays and objects apart by identity.
    - With a database a handler stops at [await]: the statement runs, and
      the code after [await] runs when the answer is handled, possibly
      after other requests; [ensureTables()] is not awaited, so its
      insertion is one more event. *)

From Stdlib Require Import ZArith String Ascii List DecimalString DecimalZ Lia.
From stdpp Require Import base gmap sets list strings.

#[local] Set Warnings "-clear-no-such-hyp".

Local Open Scope string_scope.
Local Open Scope Z_scope.

(** ** JavaScript values used by the handlers *)

Module Js.

(** A number holding an integer, or [NaN]. *)
Inductive Num : Type :=
| Int (z : Z)
| NaN.

(** The values a property of a result row can hold; [VUndefined] is what
    reading a property the row does not have gives. *)
Inductive Value : Type :=
| VUndefined
| VNumber (n : Num)
| VString (s : string).

(** [a + b] on numbers. *)
Definition add (a b : Num) : Num :=
  match a, b with
  | Int x, Int y => Int (x + y)
  | _, _ => NaN
  end.

(** [a <= b] on numbers: false as soon as one side is [NaN]. *)
Definition le (a b : Num) : bool :=
  match a, b with
  | Int x, Int y => x <=? y
  | _, _ => false
  end.

(** [a === b]: values of different types are never strictly equal, and
    [NaN] is not equal to itself. *)
Definition strict_eq (a b : Value) : bool :=
  match a, b with
  | VNumber (Int x), VNumber (Int y) => x =? y
  | VString s, VString t => String.eqb s t
  | VUndefined, VUndefined => true
  | _, _ => false
  end.

(** Truthiness of a string: only the empty string is falsy. *)
Definition truthy (s : string) : bool := negb (String.eqb s "").

(** Decimal text of an integer, and back. *)
Definition to_decimal (z : Z) : string :=
  NilZero.string_of_int (Z.to_int z).

Definition of_decimal (s : string) : option Z :=
  option_map Z.of_int (NilZero.int_of_string s).

(** [Number(v)]: on a string, read as a decimal integer literal with an
    optional minus sign (the only strings the handlers convert are
    [bigint] columns); anything else is [NaN]. *)
Definition Number (v : Value) : Num :=
  match v with
  | VUndefined => NaN
  | VNumber n => n
  | VString s =>
      match of_decimal s with
      | Some z => Int z
      | None => NaN
      end
  end.

End Js.

(** ** Requests and responses *)

(** The parts of [req] the code reads. *)
Record Request : Type := {
  method : string;            (* req.method *)
  origin : option string;     (* req.headers.origin *)
  vid : option string         (* req.cookies.vid *)
}.

(** Options of [res.cookie('vid', visitorId, {...})]. *)
Record Cookie : Type := {
  cookie_name : string;
  cookie_value : string;
  httpOnly : bool;
  sameSite : string;
  maxAge : Z
}.

Inductive Body : Type :=
| NoBody
| VisitJson (ok : bool) (total unique : Js.Num) (newVisitor : bool)
| StatsJson (total unique : Js.Num)
| ErrorJson (ok : bool) (error : string).

(** [headers] lists the headers the source sets with [res.setHeader], in
    the order of the calls. *)
Record Response : Type := {
  status : Z;
  headers : list (string * string);
  cookie : option Cookie;
  body : Body
}.

Definition header (name : string) (r : Response) : option string :=
  snd <$> List.find (fun h => String.eqb (fst h) name) (headers r).

(** ** The CORS middleware (identical in both files) *)

Module Cors.

(** White space removed by [String.prototype.trim], in the ASCII range. *)
Definition is_space (c : ascii) : bool :=
  let n := nat_of_ascii c in
  ((9 <=? n)%nat && (n <=? 13)%nat) || (n =? 32)%nat.

Fixpoint trimStart (s : string) : string :=
  match s with
  | String c r => if is_space c then trimStart r else s
  | EmptyString => EmptyString
  end.

Fixpoint trimEnd (s : string) : string :=
  match s with
  | String c r =>
      let r' := trimEnd r in
      if is_space c && String.eqb r' "" then EmptyString else String c r'
  | EmptyString => EmptyString
  end.

Definition trim (s : string) : string := trimEnd (trimStart s).

(** [s.split(',')]: the pieces between separators, empty pieces kept. *)
Fixpoint split (sep : ascii) (s : string) : list string :=
  match s with
  | EmptyString => [EmptyString]
  | String c r =>
      if Ascii.eqb c sep then EmptyString :: split sep r
      else match split sep r with
           | p :: ps => String c p :: ps
           | [] => [String c EmptyString]
           end
  end.

(** [allowedOrigin ? allowedOrigin.split(',').map(trim).filter(Boolean) : []]
    where [allowedOrigin] is [process.env.ALLOWED_ORIGIN]. *)
Definition allowedOrigins (allowedOrigin : option string) : list string :=
  match allowedOrigin with
  | Some a =>
      if Js.truthy a
      then List.filter Js.truthy (List.map trim (split "," a))
      else []
  | None => []
  end.

(** [allowedOrigins.includes(origin)] *)
Definition includes (l : list string) (o : string) : bool :=
  List.existsb (String.eqb o) l.

(** [origin && allowedOrigins.includes(origin)] *)
Definition origin_allowed (allowedOrigin : option string) (req : Request) : bool :=
  match origin req with
  | Some o => Js.truthy o && includes (allowedOrigins allowedOrigin) o
  | None => false
  end.

(** What the middleware does with a request: answer it, or pass it on
    with the headers set so far. *)
Inductive Outcome : Type :=
| Sent (r : Response)
| Next (hs : list (string * string)).

Definition origin_headers (allowedOrigin : option string) (req : Request)
  : list (string * string) :=
  match origin req with
  | Some o =>
      if Js.truthy o && includes (allowedOrigins allowedOrigin) o
      then [("Access-Control-Allow-Origin", o);
            ("Access-Control-Allow-Credentials", "true");
            ("Vary", "Origin")]
      else []
  | None => []
  end.

Definition middleware (allowedOrigin : option string) (req : Request) : Outcome :=
  let hs := origin_headers allowedOrigin req in
  if String.eqb (method req) "OPTIONS"
  then Sent {| status := 204;
               headers := hs ++ [("Access-Control-Allow-Methods", "GET,POST,OPTIONS");
                                 ("Access-Control-Allow-Headers", "Content-Type")];
               cookie := None;
               body := NoBody |}
  else Next hs.

End Cors.

(** ** State shared by both versions *)

(** The object [stats]. *)
Record Stats : Type := {
  totalVisits : Js.Num;
  uniqueVisitors : Js.Num
}.

(** How [pool.query] ends for one request.  A rejected statement either
    never ran or ran before the failure was reported ([applied]). *)
Inductive QueryOutcome : Type :=
| Resolved
| Rejected (applied : bool).

(** What one request draws from outside the program. *)
Record Env : Type := {
  randomUUID : string;        (* the value of crypto.randomUUID() *)
  query : QueryOutcome        (* how pool.query ends *)
}.

(** The first lines of the [/api/visit] handler: the visitor id of the
    request and the first value of [isNew]. *)
Definition resolveVisitor (req : Request) (env : Env) (seen : gset string)
  : string * bool :=
  match vid req with
  | None => (randomUUID env, true)
  | Some visitorId =>
      if negb (Js.truthy visitorId) then (randomUUID env, true)
      else if negb (bool_decide (visitorId ∈ seen)) then (visitorId, true)
      else (visitorId, false)
  end.

(** The in-memory update: [stats.totalVisits += 1] and, for a new visitor,
    [stats.uniqueVisitors += 1; seenVisitorIds.add(visitorId)]. *)
Definition countVisit (visitorId : string) (isNew : bool)
  (st : Stats) (seen : gset string) : Stats * gset string :=
  let total := Js.add (totalVisits st) (Js.Int 1) in
  if isNew
  then ({| totalVisits := total;
           uniqueVisitors := Js.add (uniqueVisitors st) (Js.Int 1) |},
        {[visitorId]} ∪ seen)
  else ({| totalVisits := total; uniqueVisitors := uniqueVisitors st |}, seen).

Definition vidCookie (visitorId : string) : Cookie :=
  {| cookie_name := "vid";
     cookie_value := visitorId;
     httpOnly := false;
     sameSite := "Lax";
     maxAge := 1000 * 60 * 60 * 24 * 365 |}.

(** [res.cookie('vid', ...)] followed by [res.json({ ok: true, ... })]. *)
Definition visitResponse (visitorId : string) (st : Stats) (isNew : bool) : Response :=
  {| status := 200;
     headers := [];
     cookie := Some (vidCookie visitorId);
     body := VisitJson true (totalVisits st) (uniqueVisitors st) isNew |}.

(** [res.json({ totalVisits, uniqueVisitors })]. *)
Definition statsResponse (st : Stats) : Response :=
  {| status := 200;
     headers := [];
     cookie := None;
     body := StatsJson (totalVisits st) (uniqueVisitors st) |}.

(** [res.status(500).json({ ok: false, error })]. *)
Definition errorResponse (error : string) : Response :=
  {| status := 500;
     headers := [];
     cookie := None;
     body := ErrorJson false error |}.

(** The operations of the ledger, each with the inputs it draws. *)
Inductive Op : Type :=
| PostVisit (req : Request) (env : Env)
| GetStats (env : Env).

(** ** [src/unnamed/part_000]: counters in memory *)

Module InMemory.

Record State : Type := {
  stats : Stats;
  seenVisitorIds : gset string
}.

Definition init : State :=
  {| stats := {| totalVisits := Js.Int 0; uniqueVisitors := Js.Int 0 |};
     seenVisitorIds := ∅ |}.

(** [app.post('/api/visit', ...)] *)
Definition post_visit (req : Request) (env : Env) (s : State) : State * Response :=
  let '(visitorId, isNew) := resolveVisitor req env (seenVisitorIds s) in
  let '(st, seen) := countVisit visitorId isNew (stats s) (seenVisitorIds s) in
  ({| stats := st; seenVisitorIds := seen |}, visitResponse visitorId st isNew).

(** [app.get('/api/stats', ...)] *)
Definition get_stats (s : State) : State * Response :=
  (s, statsResponse (stats s)).

Definition step (op : Op) (s : State) : State * Response :=
  match op with
  | PostVisit req env => post_visit req env s
  | GetStats _ => get_stats s
  end.

Definition run (ops : list Op) (s : State) : State :=
  fold_left (fun s op => fst (step op s)) ops s.

End InMemory.

(** ** [src/server/index.js]: optional PostgreSQL pool *)

Module Server.

(** The two tables.  [visit_stats] holds at most the row with [id = 1],
    given here by its [total_visits] and [unique_visitors]; of a row of
    [visitors] only the key [id] is kept ([first_seen] is never read). *)
Record Db : Type := {
  visit_stats : option (Z * Z);
  visitors : gset string
}.

(** A database before the server ever touched it. *)
Definition empty_db : Db := {| visit_stats := None; visitors := ∅ |}.

(** [ensureTables]: [CREATE TABLE IF NOT EXISTS] twice, then
    [INSERT INTO visit_stats ... VALUES (1, 0, 0) ON CONFLICT (id) DO NOTHING]. *)
Definition ensureTables (db : Db) : Db :=
  {| visit_stats := match visit_stats db with
                    | Some row => Some row
                    | None => Some (0, 0)
                    end;
     visitors := visitors db |}.

(** A row of [result.rows]. *)
Record Row : Type := {
  total_visits : Js.Value;
  unique_visitors : Js.Value;
  new_visitor : Js.Value
}.

(** The driver hands a [bigint] ([int8]) value to JavaScript as its decimal
    text: the default type parser of node-postgres, which the source leaves
    in place.  [COUNT] and both counter columns are [bigint]. *)
Definition pg_int8 (z : Z) : Js.Value := Js.VString (Js.to_decimal z).

(** The statement of [/api/visit], run on [db] with [$1 = visitorId]:
    [ins] inserts the visitor unless its id is there and returns one row per
    inserted row; [upd] adds 1 to [total_visits] and [COUNT( * ) FROM ins] to
    [unique_visitors] of the row with [id = 1] and returns that row; the
    final [SELECT] has one row per row of [upd].  The insertion of [ins]
    runs whether or not [upd] finds a row. *)
Definition visit_query (visitorId : string) (db : Db) : Db * list Row :=
  let ins : Z := if bool_decide (visitorId ∈ visitors db) then 0 else 1 in
  let visitors' := {[visitorId]} ∪ visitors db in
  match visit_stats db with
  | Some (total, unique) =>
      let total' := total + 1 in
      let unique' := unique + ins in
      ({| visit_stats := Some (total', unique'); visitors := visitors' |},
       [ {| total_visits := pg_int8 total';
            unique_visitors := pg_int8 unique';
            new_visitor := pg_int8 ins |} ])
  | None => ({| visit_stats := None; visitors := visitors' |}, [])
  end.

(** [SELECT total_visits, unique_visitors FROM visit_stats WHERE id = 1] *)
Definition stats_query (db : Db) : list Row :=
  match visit_stats db with
  | Some (total, unique) =>
      [ {| total_visits := pg_int8 total;
           unique_visitors := pg_int8 unique;
           new_visitor := Js.VUndefined |} ]
  | None => []
  end.

(** [pool] is [None] when [DATABASE_URL] is missing; otherwise it stands
    for the database behind the pool. *)
Record State : Type := {
  stats : Stats;
  seenVisitorIds : gset string;
  pool : option Db
}.

(** The state once the module is loaded: counters at zero, no id seen, and
    [ensureTables()] run on the database if there is one.  A failure of
    [ensureTables] is only logged; [tables_ok = false] is the case where it
    left the database as it was. *)
Definition boot (database : option Db) (tables_ok : bool) : State :=
  {| stats := {| totalVisits := Js.Int 0; uniqueVisitors := Js.Int 0 |};
     seenVisitorIds := ∅;
     pool := match database with
             | Some db => Some (if tables_ok then ensureTables db else db)
             | None => None
             end |}.

(** The first start: no [DATABASE_URL], or a database nobody wrote to. *)
Definition init (durable : bool) : State :=
  boot (if durable then Some empty_db else None) true.

(** [app.post('/api/visit', ...)] *)
Definition post_visit (req : Request) (env : Env) (s : State) : State * Response :=
  let '(visitorId, isNew) := resolveVisitor req env (seenVisitorIds s) in
  match pool s with
  | None =>
      let '(st, seen) := countVisit visitorId isNew (stats s) (seenVisitorIds s) in
      ({| stats := st; seenVisitorIds := seen; pool := None |},
       visitResponse visitorId st isNew)
  | Some db =>
      match query env with
      | Rejected applied =>
          ({| stats := stats s;
              seenVisitorIds := seenVisitorIds s;
              pool := Some (if applied then fst (visit_query visitorId db) else db) |},
           errorResponse "stats_update_failed")
      | Resolved =>
          let '(db', rows) := visit_query visitorId db in
          match rows with
          | row :: _ =>
              let isNew' := Js.strict_eq (new_visitor row) (Js.VNumber (Js.Int 1)) in
              let st := {| totalVisits := Js.Number (total_visits row);
                           uniqueVisitors := Js.Number (unique_visitors row) |} in
              ({| stats := st; seenVisitorIds := seenVisitorIds s; pool := Some db' |},
               visitResponse visitorId st isNew')
          | [] =>
              ({| stats := stats s; seenVisitorIds := seenVisitorIds s; pool := Some db' |},
               visitResponse visitorId (stats s) isNew)
          end
      end
  end.

(** [app.get('/api/stats', ...)] *)
Definition get_stats (env : Env) (s : State) : State * Response :=
  match pool s with
  | None => (s, statsResponse (stats s))
  | Some db =>
      match query env with
      | Rejected _ => (s, errorResponse "stats_read_failed")
      | Resolved =>
          let row := match stats_query db with
                     | row :: _ => row
                     | [] => {| total_visits := Js.VNumber (Js.Int 0);
                                unique_visitors := Js.VNumber (Js.Int 0);
                                new_visitor := Js.VUndefined |}
                     end in
          let st := {| totalVisits := Js.Number (total_visits row);
                       uniqueVisitors := Js.Number (unique_visitors row) |} in
          ({| stats := st; seenVisitorIds := seenVisitorIds s; pool := Some db |},
           statsResponse st)
      end
  end.

Definition step (op : Op) (s : State) : State * Response :=
  match op with
  | PostVisit req env => post_visit req env s
  | GetStats env => get_stats env s
  end.

Definition run (ops : list Op) (s : State) : State :=
  fold_left (fun s op => fst (step op s)) ops s.

End Server.

(** ** Vocabulary for the statements *)

(** The visitor id a request ends up with: its cookie when that is a
    non-empty string, the generated id otherwise. *)
Definition visitorIdOf (req : Request) (env : Env) : string :=
  match vid req with
  | Some v => if Js.truthy v then v else randomUUID env
  | None => randomUUID env
  end.

(** Whether the handler calls [crypto.randomUUID()] for this request. *)
Definition generates (req : Request) : bool :=
  match vid req with
  | Some v => negb (Js.truthy v)
  | None => true
  end.




(** An in-memory state seen as a state of [index.js] without a pool. *)
Definition ephemeral (m : InMemory.State) : Server.State :=
  {| Server.stats := InMemory.stats m;
     Server.seenVisitorIds := InMemory.seenVisitorIds m;
     Server.pool := None |}.

(** The counters stored in the database, if there is a database and the
    row with [id = 1] exists. *)
Definition stored (s : Server.State) : option (Z * Z) :=
  match Server.pool s with
  | Some db => Server.visit_stats db
  | None => None
  end.

(** The stored counters are consistent: [0 <= unique_visitors <= total_visits]. *)
Definition row_ok (row : option (Z * Z)) : Prop :=
  match row with
  | Some (total, unique) => 0 <= unique <= total
  | None => True
  end.

(** The database the server starts with is consistent, when there is one. *)
Definition database_ok (database : option Server.Db) : Prop :=
  match database with
  | Some db => row_ok (Server.visit_stats db)
  | None => True
  end.

(** The stored counters did not go down, and the row did not appear or
    vanish. *)
Definition stored_le (a b : option (Z * Z)) : Prop :=
  match a, b with
  | Some (total, unique), Some (total', unique') => total <= total' /\ unique <= unique'
  | None, None => True
  | _, _ => False
  end.

(** Neither counter of [b] is below the one of [a]. *)
Definition counters_le (a b : Stats) : Prop :=
  Js.le (totalVisits a) (totalVisits b) = true
  /\ Js.le (uniqueVisitors a) (uniqueVisitors b) = true.

(** The invariant of a running server: the counters of [stats] are
    integers with [0 <= uniqueVisitors <= totalVisits]; with a database they
    are a past reading of consistent stored counters, and stay at zero as
    long as the row is missing. *)
Definition Inv (s : Server.State) : Prop :=
  exists t u : Z,
    Server.stats s = {| totalVisits := Js.Int t; uniqueVisitors := Js.Int u |}
    /\ 0 <= u <= t
    /\ match Server.pool s with
       | None => True
       | Some db =>
           match Server.visit_stats db with
           | Some (total, unique) => t <= total /\ u <= unique /\ unique <= total
           | None => t = 0 /\ u = 0
           end
       end.


Definition rejected (o : QueryOutcome) : bool :=
  match o with
  | Resolved => false
  | Rejected _ => true
  end.

(** The answer to a preflight request: status 204 with the two headers
    naming the allowed methods and request headers. *)
Definition is_preflight_answer (o : Cors.Outcome) : bool :=
  match o with
  | Cors.Sent r =>
      (status r =? 204)
      && bool_decide (header "Access-Control-Allow-Methods" r = Some "GET,POST,OPTIONS")
      && bool_decide (header "Access-Control-Allow-Headers" r = Some "Content-Type")
  | Cors.Next _ => false
  end.

(** A short run used to instantiate the statements: a first visit without
    cookie, a read, a return visit with the issued cookie, and a visit with
    an empty cookie. *)
Definition sample_ops : list Op :=
  [ PostVisit {| method := "POST"; origin := None; vid := None |}
              {| randomUUID := "3b241101-e2bb-4255-8caf-4136c566a962"; query := Resolved |};
    GetStats {| randomUUID := "c0a8012e-5b1f-4d7a-9c3e-2f4b6d8e0a1c"; query := Resolved |};
    PostVisit {| method := "POST"; origin := None;
                 vid := Some "3b241101-e2bb-4255-8caf-4136c566a962" |}
              {| randomUUID := "9f1c2d3e-0a4b-4c5d-8e6f-7a8b9c0d1e2f"; query := Resolved |};
    PostVisit {| method := "POST"; origin := None; vid := Some "" |}
              {| randomUUID := "7d444840-9dc0-41d1-b245-5ffdce74fad2"; query := Resolved |} ].

(** ** The start of [index.js]: configuration and restart *)

Module Config.

(** [s.includes(sub)]: [sub] occurs somewhere in [s]. *)
Fixpoint includes (s sub : string) : bool :=
  if String.prefix sub s then true
  else match s with
       | String _ r => includes r sub
       | EmptyString => false
       end.

(** The option [ssl] of the pool: [false] is [None]. *)
Record Ssl : Type := { rejectUnauthorized : bool }.

Record PoolConfig : Type := {
  connectionString : string;
  ssl : option Ssl
}.

(** [databaseUrl ? new Pool({ connectionString, ssl }) : null] where
    [databaseUrl] is [process.env.DATABASE_URL]. *)
Definition pool (databaseUrl : option string) : option PoolConfig :=
  match databaseUrl with
  | Some url =>
      if Js.truthy url
      then Some {| connectionString := url;
                   ssl := if includes url "sslmode=require"
                          then Some {| rejectUnauthorized := false |}
                          else None |}
      else None
  | None => None
  end.

End Config.

(** The server started with [DATABASE_URL = databaseUrl], [db] being the
    database that URL leads to. *)
Definition start (databaseUrl : option string) (db : Server.Db) (tables_ok : bool)
  : Server.State :=
  Server.boot (match Config.pool databaseUrl with
               | Some _ => Some db
               | None => None
               end) tables_ok.

(** ** More vocabulary *)

(** The answers of a run, in order. *)
Fixpoint in_memory_answers (ops : list Op) (s : InMemory.State) : list Response :=
  match ops with
  | [] => []
  | op :: ops' =>
      snd (InMemory.step op s) :: in_memory_answers ops' (fst (InMemory.step op s))
  end.

Fixpoint server_answers (ops : list Op) (s : Server.State) : list Response :=
  match ops with
  | [] => []
  | op :: ops' =>
      snd (Server.step op s) :: server_answers ops' (fst (Server.step op s))
  end.

Fixpoint has_char (c : ascii) (s : string) : bool :=
  match s with
  | String d r => Ascii.eqb d c || has_char c r
  | EmptyString => false
  end.

Definition first_char (s : string) : option ascii :=
  match s with
  | String c _ => Some c
  | EmptyString => None
  end.

Fixpoint last_char (s : string) : option ascii :=
  match s with
  | String c EmptyString => Some c
  | String _ r => last_char r
  | EmptyString => None
  end.

Definition is_space_opt (o : option ascii) : bool :=
  match o with
  | Some c => Cors.is_space c
  | None => false
  end.

(** An origin as it comes out of the allow-list: not empty, no white space
    at either end, no comma. *)
Definition clean_entry (s : string) : bool :=
  Js.truthy s
  && negb (is_space_opt (first_char s))
  && negb (is_space_opt (last_char s))
  && negb (has_char "," s).

(** * Second level: the data of JavaScript

    The first level above takes a counter for an integer, a cookie for a
    string of bytes and a request for one step.  This level keeps what the
    running program has instead: numbers are doubles, [ALLOWED_ORIGIN] is a
    string of UTF-16 code units, [req.cookies.vid] is whatever
    [cookie-parser] leaves there, and with a database the code after
    [await] runs when the answer arrives, possibly after other requests. *)

(** ** Numbers: doubles that hold integers *)

Module Double.

(** The double nearest to the integer [z], ties to the even significand
    (53 bits); integers up to [2^53] in absolute value are doubles. *)
Definition round (z : Z) : Z :=
  let a := Z.abs z in
  if a <=? 2 ^ 53 then z
  else
    let e := Z.log2 a - 52 in
    let q := a / 2 ^ e in
    let r := a mod 2 ^ e in
    let half := 2 ^ (e - 1) in
    let q' := if r <? half then q
              else if half <? r then q + 1
              else if Z.even q then q else q + 1 in
    Z.sgn z * (q' * 2 ^ e).

(** [a + b] on doubles that hold integers: the exact sum, rounded. *)
Definition plus (a b : Js.Num) : Js.Num :=
  match a, b with
  | Js.Int x, Js.Int y => Js.Int (round (x + y))
  | _, _ => Js.NaN
  end.

(** [Number(v)]: the decimal text of an integer gives the nearest double. *)
Definition Number (v : Js.Value) : Js.Num :=
  match Js.Number v with
  | Js.Int z => Js.Int (round z)
  | Js.NaN => Js.NaN
  end.

End Double.

(** ** Strings: UTF-16 code units *)

Module Utf16.

(** A string of ASCII characters as code units. *)
Definition of_string (s : string) : list Z :=
  List.map (fun c => Z.of_N (N_of_ascii c)) (list_ascii_of_string s).

(** The code units [String.prototype.trim] removes: the white space and
    line terminators of ECMAScript (TAB, LF, VT, FF, CR, SP, NBSP, U+1680,
    U+2000 to U+200A, U+2028, U+2029, U+202F, U+205F, U+3000, U+FEFF). *)
Definition is_white (c : Z) : bool :=
  List.existsb (Z.eqb c)
    [9; 10; 11; 12; 13; 32; 160; 5760; 8232; 8233; 8239; 8287; 12288; 65279]
  || ((8192 <=? c) && (c <=? 8202)).

Fixpoint trimStart (s : list Z) : list Z :=
  match s with
  | c :: r => if is_white c then trimStart r else s
  | [] => []
  end.

Fixpoint trimEnd (s : list Z) : list Z :=
  match s with
  | c :: r =>
      let r' := trimEnd r in
      if is_white c && match r' with [] => true | _ :: _ => false end
      then [] else c :: r'
  | [] => []
  end.

Definition trim (s : list Z) : list Z := trimEnd (trimStart s).

(** [s.split(sep)] for a separator of one code unit. *)
Fixpoint split (sep : Z) (s : list Z) : list (list Z) :=
  match s with
  | [] => [[]]
  | c :: r =>
      if Z.eqb c sep then [] :: split sep r
      else match split sep r with
           | p :: ps => (c :: p) :: ps
           | [] => [[c]]
           end
  end.

(** Truthiness: only the empty string is falsy. *)
Definition truthy (s : list Z) : bool :=
  match s with
  | [] => false
  | _ :: _ => true
  end.

(** [pieces.join(sep)] *)
Fixpoint join (sep : Z) (l : list (list Z)) : list Z :=
  match l with
  | [] => []
  | [p] => p
  | p :: ps => p ++ sep :: join sep ps
  end.

End Utf16.

(** ** The CORS middleware on UTF-16 strings *)

Module Cors16.

(** The parts of [req] the middleware reads. *)
Record Request : Type := {
  method : string;              (* req.method *)
  origin : option (list Z)      (* req.headers.origin *)
}.

(** [allowedOrigin ? allowedOrigin.split(',').map(trim).filter(Boolean) : []] *)
Definition allowedOrigins (allowedOrigin : option (list Z)) : list (list Z) :=
  match allowedOrigin with
  | Some a =>
      if Utf16.truthy a
      then List.filter Utf16.truthy (List.map Utf16.trim (Utf16.split 44 a))
      else []
  | None => []
  end.

(** [allowedOrigins.includes(origin)] *)
Definition includes (l : list (list Z)) (o : list Z) : bool :=
  List.existsb (fun x => bool_decide (x = o)) l.

(** The middleware answers the request with a status, or passes it on;
    either way with the headers it has set, in the order of the calls of
    [res.setHeader]. *)
Inductive Outcome : Type :=
| Sent (status : Z) (hs : list (string * list Z))
| Next (hs : list (string * list Z)).

Definition middleware (allowedOrigin : option (list Z)) (req : Request) : Outcome :=
  let hs :=
    match origin req with
    | Some o =>
        if Utf16.truthy o && includes (allowedOrigins allowedOrigin) o
        then [("Access-Control-Allow-Origin", o);
              ("Access-Control-Allow-Credentials", Utf16.of_string "true");
              ("Vary", Utf16.of_string "Origin")]
        else []
    | None => []
    end in
  if String.eqb (method req) "OPTIONS"
  then Sent 204 (hs ++ [("Access-Control-Allow-Methods", Utf16.of_string "GET,POST,OPTIONS");
                        ("Access-Control-Allow-Headers", Utf16.of_string "Content-Type")])
  else Next hs.

Definition headers (o : Outcome) : list (string * list Z) :=
  match o with
  | Sent _ hs => hs
  | Next hs => hs
  end.

(** The value of a header, if it was set. *)
Definition header (name : string) (o : Outcome) : option (list Z) :=
  snd <$> List.find (fun h => String.eqb (fst h) name) (headers o).

End Cors16.

(** ** The cookie [vid] as the handler receives it *)

Module Vid.

(** The primitive values of JavaScript.  A number is given by its decimal
    text [String(n)], which tells numbers apart the way [Set] does; [0],
    [-0] (text [0]) and [NaN] are the falsy ones. *)
Inductive Prim : Type :=
| Undefined
| Null
| Bool (b : bool)
| Number (text : string)
| Str (s : string).

(** [req.cookies.vid].  Without the cookie it is [undefined]; otherwise
    [cookie-parser] leaves the text of the cookie there, unless the text
    starts with [j:] and the rest is JSON for a truthy value, which then
    takes its place: a string, a number, [true], or an array or object.
    Of an array or object the handler uses what [JSON.stringify] makes of
    it ([json], for the cookie) and what the driver of the database makes
    of it ([pg], for the parameter [$1]). *)
Inductive Value : Type :=
| Primitive (p : Prim)
| Object (json pg : string).

#[global] Instance Prim_eq_dec : EqDecision Prim.
Proof. solve_decision. Defined.

#[global] Instance Prim_countable : Countable Prim.
Proof.
  refine (inj_countable'
            (fun p => match p with
                      | Undefined => inl (inl tt)
                      | Null => inl (inr tt)
                      | Bool b => inr (inl b)
                      | Number text => inr (inr (inl text))
                      | Str s => inr (inr (inr s))
                      end)
            (fun c => match c with
                      | inl (inl _) => Undefined
                      | inl (inr _) => Null
                      | inr (inl b) => Bool b
                      | inr (inr (inl text)) => Number text
                      | inr (inr (inr s)) => Str s
                      end) _).
  now intros [].
Defined.

(** [!v] is [negb (truthy v)]. *)
Definition truthy (v : Value) : bool :=
  match v with
  | Primitive Undefined => false
  | Primitive Null => false
  | Primitive (Bool b) => b
  | Primitive (Number text) => negb (String.eqb text "0" || String.eqb text "NaN")
  | Primitive (Str s) => negb (String.eqb s "")
  | Object _ _ => true
  end.

(** A [Set] of such values: primitives are told apart by value; every
    array or object parsed from a request is an element of its own. *)
Record Seen : Type := {
  prims : gset Prim;
  objects : list (string * string)
}.

Definition empty : Seen := {| prims := ∅; objects := [] |}.

(** [seen.has(v)]: an array or object that was just parsed is never an
    element. *)
Definition has (seen : Seen) (v : Value) : bool :=
  match v with
  | Primitive p => bool_decide (p ∈ prims seen)
  | Object _ _ => false
  end.

(** [seen.add(v)] *)
Definition add (v : Value) (seen : Seen) : Seen :=
  match v with
  | Primitive p => {| prims := {[p]} ∪ prims seen; objects := objects seen |}
  | Object json pg => {| prims := prims seen; objects := objects seen ++ [(json, pg)] |}
  end.

(** [seen.size] *)
Definition size (seen : Seen) : nat :=
  (stdpp.base.size (prims seen) + length (objects seen))%nat.

(** The text [res.cookie] puts in the cookie:
    [typeof v === 'object' ? 'j:' + JSON.stringify(v) : String(v)]. *)
Definition cookie_text (v : Value) : string :=
  match v with
  | Primitive Undefined => "undefined"
  | Primitive Null => "j:null"
  | Primitive (Bool b) => if b then "true" else "false"
  | Primitive (Number text) => text
  | Primitive (Str s) => s
  | Object json _ => "j:" ++ json
  end.

(** The text the driver sends for the parameter [$1]; [None] is SQL
    [NULL]. *)
Definition pg_text (v : Value) : option string :=
  match v with
  | Primitive Undefined => None
  | Primitive Null => None
  | Primitive (Bool b) => Some (if b then "true" else "false")
  | Primitive (Number text) => Some text
  | Primitive (Str s) => Some s
  | Object _ pg => Some pg
  end.

(** The first lines of the [/api/visit] handler. *)
Definition resolveVisitor (vid : Value) (env : Env) (seen : Seen) : Value * bool :=
  if negb (truthy vid) then (Primitive (Str (randomUUID env)), true)
  else if negb (has seen vid) then (vid, true)
  else (vid, false).

(** [stats.totalVisits += 1] and, for a new visitor,
    [stats.uniqueVisitors += 1; seenVisitorIds.add(visitorId)]. *)
Definition countVisit (visitorId : Value) (isNew : bool) (st : Stats) (seen : Seen)
  : Stats * Seen :=
  let total := Double.plus (totalVisits st) (Js.Int 1) in
  if isNew
  then ({| totalVisits := total;
           uniqueVisitors := Double.plus (uniqueVisitors st) (Js.Int 1) |},
        add visitorId seen)
  else ({| totalVisits := total; uniqueVisitors := uniqueVisitors st |}, seen).

(** [res.cookie('vid', visitorId, {...})] and [res.json({ ok: true, ... })]. *)
Definition visitResponse (visitorId : Value) (st : Stats) (isNew : bool) : Response :=
  {| status := 200;
     headers := [];
     cookie := Some {| cookie_name := "vid";
                       cookie_value := cookie_text visitorId;
                       httpOnly := false;
                       sameSite := "Lax";
                       maxAge := 1000 * 60 * 60 * 24 * 365 |};
     body := VisitJson true (totalVisits st) (uniqueVisitors st) isNew |}.

End Vid.

(** A call of one of the two routes, with what it draws from outside. *)
Inductive Call : Type :=
| Visit (vid : Vid.Value) (env : Env)
| Read (env : Env).

(** ** [src/unnamed/part_000] on these values *)

Module Part000.

Record State : Type := {
  stats : Stats;
  seenVisitorIds : Vid.Seen
}.

Definition init : State :=
  {| stats := {| totalVisits := Js.Int 0; uniqueVisitors := Js.Int 0 |};
     seenVisitorIds := Vid.empty |}.

(** [app.post('/api/visit', ...)] *)
Definition post_visit (vid : Vid.Value) (env : Env) (s : State) : State * Response :=
  let '(visitorId, isNew) := Vid.resolveVisitor vid env (seenVisitorIds s) in
  let '(st, seen) := Vid.countVisit visitorId isNew (stats s) (seenVisitorIds s) in
  ({| stats := st; seenVisitorIds := seen |}, Vid.visitResponse visitorId st isNew).

(** [app.get('/api/stats', ...)] *)
Definition get_stats (s : State) : State * Response :=
  (s, {| status := 200;
         headers := [];
         cookie := None;
         body := StatsJson (totalVisits (stats s)) (uniqueVisitors (stats s)) |}).

Definition step (c : Call) (s : State) : State * Response :=
  match c with
  | Visit vid env => post_visit vid env s
  | Read _ => get_stats s
  end.

Definition run (calls : list Call) (s : State) : State :=
  fold_left (fun s c => fst (step c s)) calls s.

End Part000.

(** ** [src/server/index.js] with the answers of the database arriving later *)

Module Index.

(** What a handler that waits at [await pool.query(...)] goes on with. *)
Inductive Waiting : Type :=
| VisitWaits (visitorId : Vid.Value) (isNew : bool)
| StatsWaits.

(** How the promise settles: with [result.rows], or rejected. *)
Inductive Settled : Type :=
| Rows (rows : list Server.Row)
| Failed.

(** A query in flight: its statement has run in the database (or failed);
    the handler has not gone on yet. *)
Record Query : Type := {
  waiting : Waiting;
  settled : Settled
}.

Record State : Type := {
  stats : Stats;
  seenVisitorIds : Vid.Seen;
  pool : option Server.Db;
  pending : list Query
}.

(** The module is loaded: counters at zero, no id seen, the database as it
    is found.  [ensureTables()] is called but not awaited, and
    [app.listen] follows at once: the row of [visit_stats] is inserted at
    some later time, or never if a statement of [ensureTables] fails.
    As long as a table is missing a statement on it fails, which is a
    rejected query; [Server.Db] describes the tables once they exist. *)
Definition boot (database : option Server.Db) : State :=
  {| stats := {| totalVisits := Js.Int 0; uniqueVisitors := Js.Int 0 |};
     seenVisitorIds := Vid.empty;
     pool := database;
     pending := [] |}.

(** The [INSERT] of [ensureTables] runs. *)
Definition ensure (s : State) : State :=
  {| stats := stats s;
     seenVisitorIds := seenVisitorIds s;
     pool := Server.ensureTables <$> pool s;
     pending := pending s |}.

(** [/api/visit] up to [await]: without a pool the handler runs to its end;
    with a pool the statement runs in the database and the handler waits.
    The lines before [await] read nothing that changes while a pool exists,
    so the request is taken to arrive when its statement runs.  A parameter
    [NULL] violates the primary key of [visitors]: the statement fails. *)
Definition post_visit (vid : Vid.Value) (env : Env) (s : State) : State * option Response :=
  let '(visitorId, isNew) := Vid.resolveVisitor vid env (seenVisitorIds s) in
  match pool s with
  | None =>
      let '(st, seen) := Vid.countVisit visitorId isNew (stats s) (seenVisitorIds s) in
      ({| stats := st; seenVisitorIds := seen; pool := None; pending := pending s |},
       Some (Vid.visitResponse visitorId st isNew))
  | Some db =>
      let '(db', result) :=
        match Vid.pg_text visitorId, query env with
        | Some id, Resolved =>
            let '(db', rows) := Server.visit_query id db in (db', Rows rows)
        | Some id, Rejected true => (fst (Server.visit_query id db), Failed)
        | _, _ => (db, Failed)
        end in
      ({| stats := stats s;
          seenVisitorIds := seenVisitorIds s;
          pool := Some db';
          pending := pending s ++ [{| waiting := VisitWaits visitorId isNew;
                                      settled := result |}] |},
       None)
  end.

(** [/api/stats] up to [await]. *)
Definition get_stats (env : Env) (s : State) : State * option Response :=
  match pool s with
  | None =>
      (s, Some {| status := 200;
                  headers := [];
                  cookie := None;
                  body := StatsJson (totalVisits (stats s)) (uniqueVisitors (stats s)) |})
  | Some db =>
      let result := match query env with
                    | Resolved => Rows (Server.stats_query db)
                    | Rejected _ => Failed
                    end in
      ({| stats := stats s;
          seenVisitorIds := seenVisitorIds s;
          pool := Some db;
          pending := pending s ++ [{| waiting := StatsWaits; settled := result |}] |},
       None)
  end.

(** [/api/visit] after [await]. *)
Definition visit_answer (visitorId : Vid.Value) (isNew : bool) (result : Settled) (s : State)
  : State * Response :=
  match result with
  | Failed =>
      (s, {| status := 500;
             headers := [];
             cookie := None;
             body := ErrorJson false "stats_update_failed" |})
  | Rows (row :: _) =>
      let isNew' := Js.strict_eq (Server.new_visitor row) (Js.VNumber (Js.Int 1)) in
      let st := {| totalVisits := Double.Number (Server.total_visits row);
                   uniqueVisitors := Double.Number (Server.unique_visitors row) |} in
      ({| stats := st;
          seenVisitorIds := seenVisitorIds s;
          pool := pool s;
          pending := pending s |},
       Vid.visitResponse visitorId st isNew')
  | Rows [] => (s, Vid.visitResponse visitorId (stats s) isNew)
  end.

(** [/api/stats] after [await]. *)
Definition stats_answer (result : Settled) (s : State) : State * Response :=
  match result with
  | Failed =>
      (s, {| status := 500;
             headers := [];
             cookie := None;
             body := ErrorJson false "stats_read_failed" |})
  | Rows rows =>
      let row := match rows with
                 | row :: _ => row
                 | [] => {| Server.total_visits := Js.VNumber (Js.Int 0);
                            Server.unique_visitors := Js.VNumber (Js.Int 0);
                            Server.new_visitor := Js.VUndefined |}
                 end in
      let st := {| totalVisits := Double.Number (Server.total_visits row);
                   uniqueVisitors := Double.Number (Server.unique_visitors row) |} in
      ({| stats := st;
          seenVisitorIds := seenVisitorIds s;
          pool := pool s;
          pending := pending s |},
       {| status := 200;
          headers := [];
          cookie := None;
          body := StatsJson (totalVisits st) (uniqueVisitors st) |})
  end.

(** The promise of the query at position [i] of [pending] settles and its
    handler runs to the end. *)
Definition answer (i : nat) (s : State) : State * option Response :=
  match pending s !! i with
  | None => (s, None)
  | Some q =>
      let s0 := {| stats := stats s;
                   seenVisitorIds := seenVisitorIds s;
                   pool := pool s;
                   pending := delete i (pending s) |} in
      let '(s', r) := match waiting q with
                      | VisitWaits visitorId isNew => visit_answer visitorId isNew (settled q) s0
                      | StatsWaits => stats_answer (settled q) s0
                      end in
      (s', Some r)
  end.

(** What happens in the process, one event at a time. *)
Inductive Event : Type :=
| Ensure
| Arrive (c : Call)
| Answer (i : nat).

Definition step (ev : Event) (s : State) : State * option Response :=
  match ev with
  | Ensure => (ensure s, None)
  | Arrive (Visit vid env) => post_visit vid env s
  | Arrive (Read env) => get_stats env s
  | Answer i => answer i s
  end.

Definition run (evs : list Event) (s : State) : State :=
  fold_left (fun s ev => fst (step ev s)) evs s.

(** A call handled to its end before anything else happens: the request
    arrives and, with a pool, the answer to its own query is the next
    event. *)
Definition handle (c : Call) (s : State) : State * option Response :=
  let '(s1, r) := step (Arrive c) s in
  match r with
  | Some _ => (s1, r)
  | None => step (Answer (length (pending s))) s1
  end.

End Index.

(** ** Vocabulary of the second level *)

(** A string of white space only. *)
Definition all_white (s : list Z) : bool := List.forallb Utf16.is_white s.

(** An origin as one writes it in [ALLOWED_ORIGIN]: not empty, no white
    space at either end, no comma. *)
Definition clean_origin (s : list Z) : bool :=
  Utf16.truthy s
  && negb (from_option Utf16.is_white false (head s))
  && negb (from_option Utf16.is_white false (last s))
  && negb (List.existsb (Z.eqb 44) s).

(** The request names an origin of the allow-list. *)
Definition listed (allowedOrigin : option (list Z)) (o : option (list Z)) : Prop :=
  match o with
  | Some v => v <> [] /\ In v (Cors16.allowedOrigins allowedOrigin)
  | None => False
  end.

(** The visitor id the handler ends up with: the value of the cookie when
    it is truthy, the generated id otherwise. *)
Definition visitor_id (vid : Vid.Value) (env : Env) : Vid.Value :=
  if Vid.truthy vid then vid else Vid.Primitive (Vid.Str (randomUUID env)).

(** The visitor ids of the calls of [/api/visit], in order. *)
Fixpoint visitor_ids (calls : list Call) : list Vid.Value :=
  match calls with
  | [] => []
  | Visit vid env :: calls' => visitor_id vid env :: visitor_ids calls'
  | Read _ :: calls' => visitor_ids calls'
  end.

(** The primitive ones, as a set. *)
Fixpoint prim_ids (ids : list Vid.Value) : gset Vid.Prim :=
  match ids with
  | [] => ∅
  | Vid.Primitive p :: ids' => {[p]} ∪ prim_ids ids'
  | Vid.Object _ _ :: ids' => prim_ids ids'
  end.

(** The arrays and objects, each time one comes. *)
Fixpoint object_ids (ids : list Vid.Value) : list (string * string) :=
  match ids with
  | [] => []
  | Vid.Primitive _ :: ids' => object_ids ids'
  | Vid.Object json pg :: ids' => (json, pg) :: object_ids ids'
  end.

(** Every id drawn from [crypto.randomUUID()] is new: it is neither in
    [seen] nor the id of an earlier call. *)
Fixpoint fresh (seen : gset Vid.Prim) (calls : list Call) : bool :=
  match calls with
  | [] => true
  | Visit vid env :: calls' =>
      (Vid.truthy vid || negb (bool_decide (Vid.Str (randomUUID env) ∈ seen)))
      && fresh (prim_ids [visitor_id vid env] ∪ seen) calls'
  | Read _ :: calls' => fresh seen calls'
  end.

(** A state of [part_000] seen as a state of [index.js] without a pool. *)
Definition without_pool (m : Part000.State) : Index.State :=
  {| Index.stats := Part000.stats m;
     Index.seenVisitorIds := Part000.seenVisitorIds m;
     Index.pool := None;
     Index.pending := [] |}.

(** The calls that arrive in a sequence of events. *)
Fixpoint arrivals (evs : list Index.Event) : list Call :=
  match evs with
  | [] => []
  | Index.Arrive c :: evs' => c :: arrivals evs'
  | _ :: evs' => arrivals evs'
  end.

(** The answers sent while the events happen, in order. *)
Fixpoint answers (evs : list Index.Event) (s : Index.State) : list Response :=
  match evs with
  | [] => []
  | ev :: evs' =>
      match snd (Index.step ev s) with
      | Some r => r :: answers evs' (fst (Index.step ev s))
      | None => answers evs' (fst (Index.step ev s))
      end
  end.

Fixpoint part000_answers (calls : list Call) (m : Part000.State) : list Response :=
  match calls with
  | [] => []
  | c :: calls' => snd (Part000.step c m) :: part000_answers calls' (fst (Part000.step c m))
  end.

(** The set after the visitors [ids] were added to [seen]. *)
Definition seen_after (ids : list Vid.Value) (seen : Vid.Seen) : Vid.Seen :=
  {| Vid.prims := prim_ids ids ∪ Vid.prims seen;
     Vid.objects := Vid.objects seen ++ object_ids ids |}.

(** The counters stored in the database, if there is one and the row of
    [visit_stats] exists. *)
Definition stored_counters (s : Index.State) : option (Z * Z) :=
  match Index.pool s with
  | Some db => Server.visit_stats db
  | None => None
  end.

(** The stored counters did not go down; the row may have appeared. *)
Definition stored_grows (a b : option (Z * Z)) : Prop :=
  match a, b with
  | Some (total, unique), Some (total', unique') => total <= total' /\ unique <= unique'
  | Some _, None => False
  | None, _ => True
  end.

(** The query that settles, if one does, is the oldest one in flight. *)
Definition oldest_first (ev : Index.Event) : bool :=
  match ev with
  | Index.Answer i => Nat.eqb i 0
  | _ => true
  end.

(** Every answer is handled before those of the statements that ran
    later. *)
Definition in_order (evs : list Index.Event) : bool := List.forallb oldest_first evs.

(** A call of [/api/stats], or an event that is no call. *)
Definition no_visit (ev : Index.Event) : bool :=
  match ev with
  | Index.Arrive (Visit _ _) => false
  | _ => true
  end.

(** No call of [/api/visit] arrives. *)
Definition reads_only (evs : list Index.Event) : bool := List.forallb no_visit evs.

(** The process stops and the module is loaded again: what is in memory is
    lost, queries in flight included; the database is the one the pool led
    to. *)
Definition reload (s : Index.State) : Index.State := Index.boot (Index.pool s).

(** Calls handled one after the other, each to its end. *)
Definition one_by_one (calls : list Call) (s : Index.State) : Index.State :=
  fold_left (fun s c => fst (Index.handle c s)) calls s.

(** The key a visit sends to the table [visitors]: the text of its visitor
    id (a visitor id is truthy, or a generated string: never [NULL]). *)
Definition visitor_key (vid : Vid.Value) (env : Env) : string :=
  default "" (Vid.pg_text (visitor_id vid env)).

(** The statement of a visit ran in the database: it was answered, or
    rejected after it was applied. *)
Definition ran (o : QueryOutcome) : bool :=
  match o with
  | Resolved => true
  | Rejected applied => applied
  end.

(** The keys of the visits whose statement ran, in order. *)
Fixpoint applied_keys (evs : list Index.Event) : list string :=
  match evs with
  | [] => []
  | Index.Arrive (Visit vid env) :: evs' =>
      if ran (query env) then visitor_key vid env :: applied_keys evs'
      else applied_keys evs'
  | _ :: evs' => applied_keys evs'
  end.

(** The keys of the calls of [/api/visit], in order. *)
Fixpoint call_keys (calls : list Call) : list string :=
  match calls with
  | [] => []
  | Visit vid env :: calls' => visitor_key vid env :: call_keys calls'
  | Read _ :: calls' => call_keys calls'
  end.

(** Every query of the calls is answered. *)
Definition all_answered (calls : list Call) : bool :=
  List.forallb (fun c => match c with
                         | Visit _ env | Read env => negb (rejected (query env))
                         end) calls.

(** The cookie of the request reaches the handler as a string, or is
    missing. *)
Definition plain_cookie (vid : Vid.Value) : bool :=
  match vid with
  | Vid.Primitive Vid.Undefined => true
  | Vid.Primitive (Vid.Str _) => true
  | _ => false
  end.

(** The answer of [/api/visit] with these counters. *)
Definition visit_ok (text : string) (total unique : Z) (newVisitor : bool) : Response :=
  {| status := 200;
     headers := [];
     cookie := Some {| cookie_name := "vid";
                       cookie_value := text;
                       httpOnly := false;
                       sameSite := "Lax";
                       maxAge := 31536000000 |};
     body := VisitJson true (Js.Int total) (Js.Int unique) newVisitor |}.

(** The answer of [/api/stats] with these counters. *)
Definition stats_ok (total unique : Z) : Response :=
  {| status := 200;
     headers := [];
     cookie := None;
     body := StatsJson (Js.Int total) (Js.Int unique) |}.

(** The answer 500 with this error. *)
Definition failed_with (error : string) : Response :=
  {| status := 500;
     headers := [];
     cookie := None;
     body := ErrorJson false error |}.

(** ** Invariants of the second level *)

(** What the handler waiting for [q] will write into [stats] when the
    promise settles, if anything. *)
Definition reading (q : Index.Query) : option Stats :=
  match Index.settled q, Index.waiting q with
  | Index.Failed, _ => None
  | Index.Rows [], Index.VisitWaits _ _ => None
  | Index.Rows [], Index.StatsWaits =>
      Some {| totalVisits := Js.Int 0; uniqueVisitors := Js.Int 0 |}
  | Index.Rows (row :: _), _ =>
      Some {| totalVisits := Double.Number (Server.total_visits row);
              uniqueVisitors := Double.Number (Server.unique_visitors row) |}
  end.

(** What a read of the database would give now. *)
Definition reading_now (db : Server.Db) : Stats :=
  match Server.visit_stats db with
  | Some (total, unique) =>
      {| totalVisits := Js.Int (Double.round total);
         uniqueVisitors := Js.Int (Double.round unique) |}
  | None => {| totalVisits := Js.Int 0; uniqueVisitors := Js.Int 0 |}
  end.

(** From [lo] through the readings in flight, oldest first, up to [top],
    no counter goes down. *)
Fixpoint ordered (lo : Stats) (qs : list Index.Query) (top : Stats) : Prop :=
  match qs with
  | [] => counters_le lo top
  | q :: qs' =>
      match reading q with
      | Some x => counters_le lo x /\ ordered x qs' top
      | None => ordered lo qs' top
      end
  end.

(** The counters of [part_000] are integers a double holds. *)
Definition Bounded (st : Stats) : Prop :=
  exists t u : Z,
    st = {| totalVisits := Js.Int t; uniqueVisitors := Js.Int u |}
    /\ 0 <= t <= 2 ^ 53 /\ 0 <= u <= 2 ^ 53.

(** The invariant of [index.js] while the answers are handled in order. *)
Definition Ordered (s : Index.State) : Prop :=
  match Index.pool s with
  | Some db => ordered (Index.stats s) (Index.pending s) (reading_now db)
  | None => Index.pending s = [] /\ Bounded (Index.stats s)
  end.

(** The invariant of [index.js] as long as nobody visits: the counters are
    at zero, in [stats] and in the database if the row exists, and so are
    the readings in flight. *)
Definition Quiet (s : Index.State) : Prop :=
  Index.stats s = {| totalVisits := Js.Int 0; uniqueVisitors := Js.Int 0 |}
  /\ match Index.pool s with
     | Some db => Server.visit_stats db = None \/ Server.visit_stats db = Some (0, 0)
     | None => Index.pending s = []
     end
  /\ Forall (fun q => Index.waiting q = Index.StatsWaits
                      /\ (Index.settled q = Index.Failed
                          \/ reading q = Some {| totalVisits := Js.Int 0;
                                                 uniqueVisitors := Js.Int 0 |}))
       (Index.pending s).

(** ** Doubles *)

(** An integer that is a double: [m * 2^e] with a significand [m] of at
    most 53 bits.  (The exponent of a double is bounded as well; the
    integers of the program stay far below that bound.) *)
Definition is_double (d : Z) : Prop :=
  exists m e : Z, Z.abs m < 2 ^ 53 /\ 0 <= e /\ d = m * 2 ^ e.

(** ** Tactics *)

(** Goals on counters: conjunctions of integer comparisons, possibly under
    a test of membership. *)
Ltac counters_goal :=
  repeat match goal with
         | |- _ /\ _ => split
         | |- (_ <=? _) = true => apply Z.leb_le
         | |- True => exact I
         | |- context [bool_decide ?P] => destruct (bool_decide P)
         end;
  try reflexivity; try lia.

(** The invariant holds with the counters [t] and [u]. *)
Ltac inv_at t u :=
  exists t, u; split; [reflexivity|]; simpl; counters_goal.

(** ** Facts about the JavaScript values *)

Arguments Js.Number : simpl never.
Arguments Server.pg_int8 : simpl never.

Lemma of_to_decimal (z : Z) : Js.of_decimal (Js.to_decimal z) = Some z.
Proof.
  unfold Js.of_decimal, Js.to_decimal.
  rewrite NilZero.isi.
  - simpl. f_equal. apply DecimalZ.of_to.
  - destruct z; simpl; try discriminate.
    intros [= H]. exact (DecimalPos.Unsigned.to_uint_nonnil _ H).
  - destruct z; simpl; try discriminate.
    intros [= H]. exact (DecimalPos.Unsigned.to_uint_nonnil _ H).
Qed.

Lemma Number_pg_int8 (z : Z) : Js.Number (Server.pg_int8 z) = Js.Int z.
Proof. unfold Server.pg_int8, Js.Number. now rewrite of_to_decimal. Qed.

(** A [bigint] column never compares strictly equal to a number. *)
Lemma pg_int8_not_strict_eq (z : Z) (n : Js.Num) :
  Js.strict_eq (Server.pg_int8 z) (Js.VNumber n) = false.
Proof. reflexivity. Qed.

Lemma truthy_nonempty (s : string) : Js.truthy s = true <-> s <> "".
Proof.
  unfold Js.truthy. rewrite negb_true_iff. split.
  - intros H ->. discriminate.
  - intros H. destruct s; [congruence | reflexivity].
Qed.

(** ** The identity resolver *)

Lemma resolveVisitor_id req env seen :
  fst (resolveVisitor req env seen) = visitorIdOf req env.
Proof.
  unfold resolveVisitor, visitorIdOf.
  destruct (vid req) as [v|]; [|reflexivity].
  destruct (Js.truthy v); simpl; [|reflexivity].
  now destruct (bool_decide (v ∈ seen)).
Qed.

Lemma resolveVisitor_isNew req env seen :
  snd (resolveVisitor req env seen)
  = generates req || negb (bool_decide (visitorIdOf req env ∈ seen)).
Proof.
  unfold resolveVisitor, visitorIdOf, generates.
  destruct (vid req) as [v|]; [|reflexivity].
  destruct (Js.truthy v); simpl; [|reflexivity].
  now destruct (bool_decide (v ∈ seen)).
Qed.

Lemma resolveVisitor_eq req env seen :
  resolveVisitor req env seen
  = (visitorIdOf req env,
     generates req || negb (bool_decide (visitorIdOf req env ∈ seen))).
Proof.
  rewrite <- (resolveVisitor_id req env seen) at 1.
  rewrite <- resolveVisitor_isNew. now destruct (resolveVisitor req env seen).
Qed.


(** ** The handlers of [part_000] *)






(** ** Runs of [part_000] *)








(** ** [index.js] without a pool *)

(** Without a pool the handlers of [index.js] are those of [part_000]. *)
Lemma ephemeral_step op m :
  Server.step op (ephemeral m)
  = (ephemeral (fst (InMemory.step op m)), snd (InMemory.step op m)).
Proof.
  destruct op as [req env|env]; simpl; [|reflexivity].
  unfold Server.post_visit, InMemory.post_visit. simpl.
  destruct (resolveVisitor req env (InMemory.seenVisitorIds m)) as [visitorId isNew].
  now destruct (countVisit visitorId isNew (InMemory.stats m) (InMemory.seenVisitorIds m)).
Qed.


Lemma ephemeral_run ops m :
  Server.run ops (ephemeral m) = ephemeral (InMemory.run ops m).
Proof.
  revert m. induction ops as [|op ops IH]; intros m; [reflexivity|].
  simpl. rewrite ephemeral_step. simpl. apply IH.
Qed.


Lemma boot_without_database tables_ok :
  Server.boot None tables_ok = ephemeral InMemory.init.
Proof. reflexivity. Qed.

(** ** [index.js] with a database *)

Lemma visit_query_eq visitorId db :
  Server.visit_query visitorId db
  = let ins : Z := if bool_decide (visitorId ∈ Server.visitors db) then 0 else 1 in
    ({| Server.visit_stats :=
          match Server.visit_stats db with
          | Some (total, unique) => Some (total + 1, unique + ins)
          | None => None
          end;
        Server.visitors := {[visitorId]} ∪ Server.visitors db |},
     match Server.visit_stats db with
     | Some (total, unique) =>
         [ {| Server.total_visits := Server.pg_int8 (total + 1);
              Server.unique_visitors := Server.pg_int8 (unique + ins);
              Server.new_visitor := Server.pg_int8 ins |} ]
     | None => []
     end).
Proof.
  unfold Server.visit_query. now destruct (Server.visit_stats db) as [[total unique]|].
Qed.

(** A visit that the database answers, the row with [id = 1] being there:
    the counters of [stats] become the stored ones, and the answer always
    says [newVisitor: false]. *)
Lemma durable_visit_resolved req env s db total unique :
  Server.pool s = Some db ->
  Server.visit_stats db = Some (total, unique) ->
  query env = Resolved ->
  Server.post_visit req env s
  = let visitorId := visitorIdOf req env in
    let ins : Z := if bool_decide (visitorId ∈ Server.visitors db) then 0 else 1 in
    let st := {| totalVisits := Js.Int (total + 1);
                 uniqueVisitors := Js.Int (unique + ins) |} in
    ({| Server.stats := st;
        Server.seenVisitorIds := Server.seenVisitorIds s;
        Server.pool := Some {| Server.visit_stats := Some (total + 1, unique + ins);
                               Server.visitors := {[visitorId]} ∪ Server.visitors db |} |},
     visitResponse visitorId st false).
Proof.
  intros Hp Hrow Hq. unfold Server.post_visit.
  rewrite resolveVisitor_eq, Hp, Hq, visit_query_eq, Hrow. cbv zeta iota beta.
  cbn [Server.new_visitor Server.total_visits Server.unique_visitors].
  now rewrite pg_int8_not_strict_eq, !Number_pg_int8.
Qed.

(** ** The invariant of [index.js] *)

Lemma ensureTables_ok db :
  row_ok (Server.visit_stats db) -> row_ok (Server.visit_stats (Server.ensureTables db)).
Proof.
  unfold Server.ensureTables. simpl.
  destruct (Server.visit_stats db) as [[total unique]|]; simpl; [tauto | lia].
Qed.

Lemma boot_inv database tables_ok :
  database_ok database -> Inv (Server.boot database tables_ok).
Proof.
  intros Hok. exists 0, 0. split; [reflexivity|]. split; [lia|].
  destruct database as [db|]; simpl in *; [|exact I].
  destruct tables_ok.
  - apply ensureTables_ok in Hok. 
    destruct (Server.visit_stats (Server.ensureTables db)) as [[total unique]|]; simpl in *; lia.
  - destruct (Server.visit_stats db) as [[total unique]|]; simpl in *; lia.
Qed.

Lemma server_step_inv op s :
  Inv s ->
  Inv (fst (Server.step op s))
  /\ counters_le (Server.stats s) (Server.stats (fst (Server.step op s)))
  /\ stored_le (stored s) (stored (fst (Server.step op s))).
Proof.
  intros (t & u & Hst & Hu & Hdb). unfold counters_le, stored, stored_le, Inv.
  destruct op as [req env|env]; simpl.
  - unfold Server.post_visit. rewrite resolveVisitor_eq.
    destruct (Server.pool s) as [db|] eqn:Hp.
    + destruct (query env) as [|[|]]; rewrite ?visit_query_eq; cbv zeta;
        destruct (Server.visit_stats db) as [[total unique]|] eqn:Hrow;
        simpl; rewrite ?Number_pg_int8, ?Hrow, Hst; simpl.
      * split; [inv_at (total + 1)
                  (unique + if bool_decide (visitorIdOf req env ∈ Server.visitors db)
                            then 0 else 1) | counters_goal].
      * split; [inv_at t u | counters_goal].
      * split; [inv_at t u | counters_goal].
      * split; [inv_at t u | counters_goal].
      * split; [inv_at t u | counters_goal].
      * split; [inv_at t u | counters_goal].
    + unfold countVisit. rewrite Hst.
      destruct (generates req || negb (bool_decide (visitorIdOf req env ∈ Server.seenVisitorIds s)));
        simpl.
      * split; [inv_at (t + 1) (u + 1) | counters_goal].
      * split; [inv_at (t + 1) u | counters_goal].
  - unfold Server.get_stats.
    destruct (Server.pool s) as [db|] eqn:Hp.
    + destruct (query env) as [|applied]; unfold Server.stats_query;
        destruct (Server.visit_stats db) as [[total unique]|] eqn:Hrow;
        simpl; rewrite ?Number_pg_int8, ?Hp, ?Hrow, Hst; simpl.
      * split; [inv_at total unique | counters_goal].
      * destruct Hdb as [-> ->]. split; [inv_at 0 0 | counters_goal].
      * split; [inv_at t u | counters_goal].
      * split; [inv_at t u | counters_goal].
    + simpl. rewrite Hp, Hst. simpl. split; [inv_at t u | counters_goal].
Qed.

Lemma server_run_inv ops s : Inv s -> Inv (Server.run ops s).
Proof.
  revert s. induction ops as [|op ops IH]; intros s Hs; [exact Hs|].
  simpl. apply IH. now apply server_step_inv.
Qed.

Lemma Inv_unique_le_total s :
  Inv s ->
  Js.le (uniqueVisitors (Server.stats s)) (totalVisits (Server.stats s)) = true
  /\ row_ok (stored s).
Proof.
  intros (t & u & Hst & Hu & Hdb). rewrite Hst. simpl. split; [apply Z.leb_le; lia|].
  unfold stored, row_ok. destruct (Server.pool s) as [db|]; [|exact I].
  destruct (Server.visit_stats db) as [[total unique]|]; [lia|exact I].
Qed.

(** ** The claims *)

(** C2.  After every run of operations, with or without a database,
    [uniqueVisitors <= totalVisits] holds of [stats] and of the stored
    counters; the database the server starts with is any consistent one. *)
Theorem unique_le_total_after_every_operation
  (database : option Server.Db) (tables_ok : bool) (ops : list Op) :
  database_ok database ->
  (let s := Server.run ops (Server.boot database tables_ok) in
   Js.le (uniqueVisitors (Server.stats s)) (totalVisits (Server.stats s)) = true
   /\ row_ok (stored s))
  /\ (let m := InMemory.run ops InMemory.init in
      Js.le (uniqueVisitors (InMemory.stats m)) (totalVisits (InMemory.stats m)) = true).
Proof.
  intros Hok. split.
  - apply Inv_unique_le_total, server_run_inv, boot_inv, Hok.
  - pose proof (Inv_unique_le_total _
      (server_run_inv ops _ (boot_inv None tables_ok I))) as [H _].
    rewrite boot_without_database, ephemeral_run in H. exact H.
Qed.

Lemma unique_le_total_after_every_operation_witness :
  database_ok (Some Server.empty_db)
  /\ (let s := Server.run sample_ops (Server.boot (Some Server.empty_db) true) in
      Js.le (uniqueVisitors (Server.stats s)) (totalVisits (Server.stats s)) = true
      /\ row_ok (stored s)).
Proof.
  split; [exact I|].
  apply (unique_le_total_after_every_operation (Some Server.empty_db) true sample_ops).
  exact I.
Defined.



(** The first visit without cookie, in memory: the answer reports a new
    visitor, both counters at 1, and sets the cookie to the generated id. *)
Lemma first_visit_in_memory (m : string) (o : option string) (env : Env) :
  let req := {| method := m; origin := o; vid := None |} in
  let res := visitResponse (randomUUID env)
               {| totalVisits := Js.Int 1; uniqueVisitors := Js.Int 1 |} true in
  snd (InMemory.post_visit req env InMemory.init) = res
  /\ snd (Server.post_visit req env (Server.init false)) = res.
Proof. split; reflexivity. Qed.

(** C4, at the first visit with a database: the statement inserts the
    visitor and both counters become 1, the cookie is set, but the answer
    says [newVisitor: false], because [new_visitor] arrives as the string
    ["1"] and is compared with the number [1] by [===]. *)
Theorem first_visit_durable_reports_not_new (m : string) (o : option string) (uuid : string) :
  let req := {| method := m; origin := o; vid := None |} in
  let env := {| randomUUID := uuid; query := Resolved |} in
  snd (Server.post_visit req env (Server.init true))
  = visitResponse uuid {| totalVisits := Js.Int 1; uniqueVisitors := Js.Int 1 |} false.
Proof.
  intros req env.
  rewrite (durable_visit_resolved req env (Server.init true)
             (Server.ensureTables Server.empty_db) 0 0 eq_refl eq_refl eq_refl).
  cbv zeta. simpl.
  rewrite (bool_decide_eq_false_2 (uuid ∈ ∅)) by set_solver. reflexivity.
Qed.

(** C9, as stated, fails: a preflight request without [Origin] header is
    answered with 204 and both headers although no origin is allowed. *)
Lemma preflight_without_origin_counterexample :
  let allowedOrigin := Some "https://example.com" in
  let req := {| method := "OPTIONS"; origin := None; vid := None |} in
  ~ (is_preflight_answer (Cors.middleware allowedOrigin req) = true
     <-> Cors.origin_allowed allowedOrigin req = true).
Proof. intros allowedOrigin req [H _]. discriminate (H eq_refl). Qed.



(** ** Strings of the allow-list *)

Lemma split_nonempty sep s : Cors.split sep s <> [].
Proof.
  destruct s as [|c r]; simpl; [discriminate|].
  destruct (Ascii.eqb c sep); [discriminate|].
  now destruct (Cors.split sep r).
Qed.

Lemma split_pieces_without_separator sep s :
  Forall (fun p => has_char sep p = false) (Cors.split sep s).
Proof.
  induction s as [|c r IH]; simpl.
  - now constructor.
  - destruct (Ascii.eqb c sep) eqn:Hc.
    + now constructor.
    + destruct (Cors.split sep r) as [|p ps]; constructor; simpl;
        try (now rewrite Hc); try constructor.
      * rewrite Hc. now inversion IH.
      * now inversion IH.
Qed.

Lemma concat_cons sep p q qs :
  String.concat sep (p :: q :: qs) = p ++ sep ++ String.concat sep (q :: qs).
Proof. reflexivity. Qed.

Lemma concat_split sep s :
  String.concat (String sep EmptyString) (Cors.split sep s) = s.
Proof.
  induction s as [|c r IH]; [reflexivity|]. simpl Cors.split.
  destruct (Ascii.eqb c sep) eqn:Hc.
  - apply Ascii.eqb_eq in Hc. subst c.
    pose proof (split_nonempty sep r) as Hne.
    destruct (Cors.split sep r) as [|p ps]; [congruence|].
    rewrite concat_cons, IH. reflexivity.
  - pose proof (split_nonempty sep r) as Hne.
    destruct (Cors.split sep r) as [|p ps]; [congruence|].
    destruct ps as [|q qs].
    + simpl in *. now rewrite IH.
    + rewrite concat_cons. rewrite concat_cons in IH. rewrite <- IH. reflexivity.
Qed.

Lemma split_app_separator sep p rest :
  has_char sep p = false ->
  Cors.split sep (p ++ String sep rest) = p :: Cors.split sep rest.
Proof.
  induction p as [|c p IH]; simpl; intros Hp.
  - now rewrite Ascii.eqb_refl.
  - apply orb_false_iff in Hp as [Hc Hp]. rewrite Hc, (IH Hp). reflexivity.
Qed.

Lemma split_without_separator sep p :
  has_char sep p = false -> Cors.split sep p = [p].
Proof.
  induction p as [|c p IH]; simpl; intros Hp; [reflexivity|].
  apply orb_false_iff in Hp as [Hc Hp]. now rewrite Hc, (IH Hp).
Qed.

Lemma split_concat sep l :
  l <> [] ->
  Forall (fun p => has_char sep p = false) l ->
  Cors.split sep (String.concat (String sep EmptyString) l) = l.
Proof.
  induction l as [|p l IH]; intros Hne Hall; [congruence|].
  inversion Hall as [|? ? Hp Hl]; subst.
  destruct l as [|q qs].
  - simpl. now apply split_without_separator.
  - rewrite concat_cons.
    change (p ++ String sep "" ++ String.concat (String sep "") (q :: qs))%string
      with (p ++ String sep (String.concat (String sep "") (q :: qs)))%string.
    rewrite (split_app_separator _ _ _ Hp). f_equal. now apply IH.
Qed.

Lemma has_char_trimStart c s : has_char c (Cors.trimStart s) = true -> has_char c s = true.
Proof.
  induction s as [|d s IH]; simpl; [discriminate|].
  destruct (Cors.is_space d); simpl; [|tauto].
  intros H. rewrite (IH H). apply orb_true_r.
Qed.

Lemma has_char_trimEnd c s : has_char c (Cors.trimEnd s) = true -> has_char c s = true.
Proof.
  induction s as [|d s IH]; simpl; [discriminate|].
  destruct (Cors.is_space d && String.eqb (Cors.trimEnd s) ""); simpl; [discriminate|].
  rewrite !orb_true_iff. intros [H|H]; [now left | right; now apply IH].
Qed.

Lemma has_char_trim c s : has_char c s = false -> has_char c (Cors.trim s) = false.
Proof.
  intros H. destruct (has_char c (Cors.trim s)) eqn:Ht; [|reflexivity].
  apply has_char_trimEnd, has_char_trimStart in Ht. congruence.
Qed.

Lemma first_char_trimStart s : is_space_opt (first_char (Cors.trimStart s)) = false.
Proof.
  induction s as [|c s IH]; simpl; [reflexivity|].
  destruct (Cors.is_space c) eqn:Hc; [exact IH | simpl; exact Hc].
Qed.

Lemma first_char_trimEnd s :
  Cors.trimEnd s <> "" -> first_char (Cors.trimEnd s) = first_char s.
Proof.
  destruct s as [|c s]; simpl; [congruence|].
  now destruct (Cors.is_space c && String.eqb (Cors.trimEnd s) "").
Qed.

Lemma last_char_trimEnd s : is_space_opt (last_char (Cors.trimEnd s)) = false.
Proof.
  induction s as [|c s IH]; simpl; [reflexivity|].
  destruct (Cors.is_space c) eqn:Hc; simpl.
  - destruct (String.eqb_spec (Cors.trimEnd s) "") as [He|Hne]; [reflexivity|].
    simpl. destruct (Cors.trimEnd s); [congruence | exact IH].
  - destruct (Cors.trimEnd s) eqn:Ht; [simpl; exact Hc | exact IH].
Qed.

Lemma trim_ends s :
  is_space_opt (first_char (Cors.trim s)) = false
  /\ is_space_opt (last_char (Cors.trim s)) = false.
Proof.
  unfold Cors.trim. split; [|apply last_char_trimEnd].
  destruct (String.eqb_spec (Cors.trimEnd (Cors.trimStart s)) "") as [He|Hne].
  - now rewrite He.
  - rewrite (first_char_trimEnd _ Hne). apply first_char_trimStart.
Qed.

(** ** Further properties: the CORS middleware *)

(** X1.  Splitting on a separator loses nothing: the pieces joined by the
    separator give the string back, there is always at least one piece, no
    piece holds the separator; and a non-empty list of pieces without
    separator is what splitting their join returns. *)
Theorem split_and_join_are_inverse (sep : ascii) (s : string) :
  String.concat (String sep EmptyString) (Cors.split sep s) = s
  /\ Cors.split sep s <> []
  /\ Forall (fun p => has_char sep p = false) (Cors.split sep s)
  /\ (forall l : list string,
        l <> [] ->
        Forall (fun p => has_char sep p = false) l ->
        Cors.split sep (String.concat (String sep EmptyString) l) = l).
Proof.
  split; [apply concat_split|]. split; [apply split_nonempty|].
  split; [apply split_pieces_without_separator|]. apply split_concat.
Qed.

(** X2.  Every entry of [allowedOrigins] is a non-empty string without
    white space at either end and without comma, whatever
    [ALLOWED_ORIGIN] holds. *)
Theorem allowed_origins_are_clean (allowedOrigin : option string) :
  Forall (fun o => clean_entry o = true) (Cors.allowedOrigins allowedOrigin).
Proof.
  unfold Cors.allowedOrigins. destruct allowedOrigin as [a|]; [|constructor].
  destruct (Js.truthy a); [|constructor].
  apply List.Forall_forall. intros o Ho.
  apply filter_In in Ho as [Ho Ht]. apply in_map_iff in Ho as (p & <- & Hp).
  pose proof (split_pieces_without_separator "," a) as Hall.
  rewrite List.Forall_forall in Hall. specialize (Hall p Hp).
  destruct (trim_ends p) as [Hf Hl].
  unfold clean_entry. now rewrite Ht, Hf, Hl, (has_char_trim _ _ Hall).
Qed.

(** ** Further properties: configuration *)

Lemma prefix_app sub s : String.prefix sub s = true <-> exists post, s = (sub ++ post)%string.
Proof.
  revert s. induction sub as [|c sub IH]; intros s.
  - split; [intros _; now exists s | intros _; now destruct s].
  - destruct s as [|d s]; simpl.
    + split; [discriminate | intros [post H]; discriminate H].
    + destruct (Ascii.ascii_dec c d) as [->|Hne].
      * rewrite IH. split; intros [post H]; exists post.
        -- now rewrite H.
        -- now injection H.
      * split; [discriminate|]. intros [post H]. injection H as H1 _. congruence.
Qed.

Lemma includes_substring s sub :
  Config.includes s sub = true <-> exists pre post, s = (pre ++ sub ++ post)%string.
Proof.
  induction s as [|c s IH].
  - change (Config.includes "" sub) with (if String.prefix sub "" then true else false).
    destruct (String.prefix sub "") eqn:Hp.
    + split; [|reflexivity]. intros _. apply prefix_app in Hp as [post H].
      now exists "", post.
    + split; [discriminate|]. intros (pre & post & H).
      destruct pre; [|discriminate].
      assert (String.prefix sub "" = true) by (apply prefix_app; now exists post).
      congruence.
  - change (Config.includes (String c s) sub)
      with (if String.prefix sub (String c s) then true else Config.includes s sub).
    destruct (String.prefix sub (String c s)) eqn:Hp.
    + split; [|reflexivity]. intros _. apply prefix_app in Hp as [post H].
      now exists "", post.
    + rewrite IH. split.
      * intros (pre & post & H). exists (String c pre), post. now rewrite H.
      * intros (pre & post & H). destruct pre as [|d pre].
        -- assert (String.prefix sub (String c s) = true)
             by (apply prefix_app; now exists post).
           congruence.
        -- injection H as _ H. now exists pre, post.
Qed.

(** X5.  A pool is made exactly when [DATABASE_URL] is set and not empty,
    with that URL as connection string; the option [ssl] given to
    [new Pool] is [{ rejectUnauthorized: false }] exactly when the text
    [sslmode=require] occurs somewhere in the URL, and [false] otherwise.
    What the driver makes of these options and of the URL is outside the
    model. *)
Theorem pool_configuration (databaseUrl : option string) :
  (Config.pool databaseUrl = None <-> databaseUrl = None \/ databaseUrl = Some "")
  /\ (forall c : Config.PoolConfig,
        Config.pool databaseUrl = Some c ->
        databaseUrl = Some (Config.connectionString c)
        /\ (Config.ssl c = Some {| Config.rejectUnauthorized := false |}
            <-> exists pre post,
                  Config.connectionString c = (pre ++ "sslmode=require" ++ post)%string)
        /\ (Config.ssl c = None
            \/ Config.ssl c = Some {| Config.rejectUnauthorized := false |})).
Proof.
  unfold Config.pool. destruct databaseUrl as [url|].
  - destruct (Js.truthy url) eqn:Ht.
    + apply truthy_nonempty in Ht. split.
      * split; [discriminate|]. intros [H|[= H]]; [discriminate | congruence].
      * intros c [= <-]. simpl. split; [reflexivity|].
        rewrite <- includes_substring.
        destruct (Config.includes url "sslmode=require"); split;
          try (now left); try (now right); split; congruence.
    + split.
      * split; [|reflexivity]. intros _. right. f_equal.
        destruct url; [reflexivity | discriminate Ht].
      * discriminate.
  - split; [split; [now left | reflexivity] | discriminate].
Qed.

(** X6.  Started without [DATABASE_URL], or with an empty one, [index.js]
    is [part_000]: for every run the answers are the same and the states
    agree, whatever database exists. *)
Theorem without_database_url_is_part_000
  (db : Server.Db) (tables_ok : bool) (ops : list Op) :
  (server_answers ops (start None db tables_ok) = in_memory_answers ops InMemory.init
   /\ Server.run ops (start None db tables_ok) = ephemeral (InMemory.run ops InMemory.init))
  /\ (server_answers ops (start (Some "") db tables_ok) = in_memory_answers ops InMemory.init
      /\ Server.run ops (start (Some "") db tables_ok)
         = ephemeral (InMemory.run ops InMemory.init)).
Proof.
  assert (Hans : forall m, server_answers ops (ephemeral m) = in_memory_answers ops m).
  { induction ops as [|op ops IH]; intros m; [reflexivity|].
    simpl. rewrite ephemeral_step. simpl. now rewrite IH. }
  change (start None db tables_ok) with (ephemeral InMemory.init).
  change (start (Some "") db tables_ok) with (ephemeral InMemory.init).
  rewrite Hans, ephemeral_run. repeat split.
Qed.

(** ** Further properties: start and restart *)

(** X7.  [ensureTables] is idempotent: it creates the row [(1, 0, 0)] when
    the row is missing, and otherwise changes nothing; it never touches the
    table [visitors]. *)
Theorem ensureTables_is_idempotent (db : Server.Db) :
  Server.ensureTables (Server.ensureTables db) = Server.ensureTables db
  /\ Server.visitors (Server.ensureTables db) = Server.visitors db
  /\ (forall row, Server.visit_stats db = Some row -> Server.ensureTables db = db)
  /\ (Server.visit_stats db = None ->
      Server.visit_stats (Server.ensureTables db) = Some (0, 0)).
Proof.
  destruct db as [row ids]. unfold Server.ensureTables. simpl.
  split; [now destruct row|]. split; [reflexivity|].
  split; [now intros r ->|now intros ->].
Qed.

(** ** Further properties: [/api/visit] *)


(** X12.  With a database, no operation touches [seenVisitorIds], and
    the pool stays in place: the set of [index.js] is used by the in-memory
    branch only. *)
Theorem database_mode_leaves_seen_alone
  (st : Stats) (seen : gset string) (db : Server.Db) (ops : list Op) :
  let s := Server.run ops {| Server.stats := st;
                             Server.seenVisitorIds := seen;
                             Server.pool := Some db |} in
  Server.seenVisitorIds s = seen /\ exists db', Server.pool s = Some db'.
Proof.
  revert st db. induction ops as [|[req env|env] ops IH]; intros st db.
  - simpl. split; [reflexivity | now exists db].
  - cbv zeta.
    change (Server.run (PostVisit req env :: ops) ?s)
      with (Server.run ops (fst (Server.post_visit req env s))).
    unfold Server.post_visit. rewrite resolveVisitor_eq. simpl.
    destruct (query env) as [|a]; simpl; [|apply IH].
    rewrite visit_query_eq. cbv zeta.
    destruct (Server.visit_stats db) as [[total unique]|]; simpl; apply IH.
  - cbv zeta.
    change (Server.run (GetStats env :: ops) ?s)
      with (Server.run ops (fst (Server.get_stats env s))).
    unfold Server.get_stats. simpl. destruct (query env) as [|a]; simpl; apply IH.
Qed.

Lemma missing_row_step op st ids :
  let zero := {| totalVisits := Js.Int 0; uniqueVisitors := Js.Int 0 |} in
  let s := {| Server.stats := zero;
              Server.seenVisitorIds := ∅;
              Server.pool := Some {| Server.visit_stats := None; Server.visitors := ids |} |} in
  st = Server.step op s ->
  (exists ids', fst st = {| Server.stats := zero;
                            Server.seenVisitorIds := ∅;
                            Server.pool := Some {| Server.visit_stats := None;
                                                   Server.visitors := ids' |} |})
  /\ (snd st = errorResponse "stats_update_failed"
      \/ snd st = errorResponse "stats_read_failed"
      \/ snd st = statsResponse zero
      \/ exists visitorId, snd st = visitResponse visitorId zero true).
Proof.
  intros zero s ->. destruct op as [req env|env]; simpl.
  - unfold Server.post_visit. rewrite resolveVisitor_eq. simpl.
    rewrite (bool_decide_eq_false_2 (visitorIdOf req env ∈ ∅)) by set_solver.
    rewrite orb_true_r.
    destruct (query env) as [|[|]]; simpl; (split; [eexists; reflexivity|]).
    + do 3 right. eexists; reflexivity.
    + now left.
    + now left.
  - unfold Server.get_stats. simpl.
    destruct (query env) as [|a]; simpl; (split; [eexists; reflexivity|]).
    + right; right; now left.
    + right; now left.
Qed.

(** X13.  When the row of [visit_stats] is missing (its creation failed),
    nothing is ever counted: after every run [stats] is at zero and the row
    is still missing, and every answer is a 500, a read of [0, 0], or a
    visit answered [ok: true] with [totalVisits: 0], [uniqueVisitors: 0] and
    [newVisitor: true]. *)
Theorem missing_row_counts_nothing (ids : gset string) (ops : list Op) :
  let zero := {| totalVisits := Js.Int 0; uniqueVisitors := Js.Int 0 |} in
  let s0 := Server.boot (Some {| Server.visit_stats := None; Server.visitors := ids |}) false in
  Server.stats (Server.run ops s0) = zero
  /\ stored (Server.run ops s0) = None
  /\ Forall (fun r => r = errorResponse "stats_update_failed"
                      \/ r = errorResponse "stats_read_failed"
                      \/ r = statsResponse zero
                      \/ exists visitorId, r = visitResponse visitorId zero true)
       (server_answers ops s0).
Proof.
  intros zero s0. subst s0. unfold Server.boot. revert ids.
  induction ops as [|op ops IH]; intros ids.
  - simpl. repeat split. constructor.
  - destruct (missing_row_step op _ ids eq_refl) as [[ids' Hs] Hr].
    simpl. rewrite Hs. destruct (IH ids') as (H1 & H2 & H3).
    split; [exact H1|]. split; [exact H2|]. constructor; [exact Hr | exact H3].
Qed.




(** ** Further properties: [/api/stats] and the database *)

(** X18.  A read that follows a visit agrees with it: after any run from
    the start, when a visit is answered with counters and the read right
    after it is answered too, the read reports the counters of the visit's
    answer; with and without a database. *)
Theorem read_after_visit_agrees
  (database : option Server.Db) (tables_ok : bool) (ops : list Op)
  (req : Request) (env env' : Env) (t u : Js.Num) (newVisitor : bool) :
  database_ok database ->
  let s := Server.run ops (Server.boot database tables_ok) in
  let visit := Server.post_visit req env s in
  let read := Server.get_stats env' (fst visit) in
  body (snd visit) = VisitJson true t u newVisitor ->
  status (snd read) = 200 ->
  body (snd read) = StatsJson t u.
Proof.
  intros Hok s visit read.
  pose proof (server_run_inv ops _ (boot_inv database tables_ok Hok)) as Hinv.
  fold s in Hinv. destruct Hinv as (t0 & u0 & Hst & _ & Hdb).
  subst read visit. unfold Server.post_visit. rewrite resolveVisitor_eq.
  destruct (Server.pool s) as [db|] eqn:Hp.
  - destruct (query env) as [|a]; [|discriminate].
    rewrite visit_query_eq. cbv zeta.
    destruct (Server.visit_stats db) as [[total unique]|] eqn:Hrow; simpl.
    + rewrite !Number_pg_int8. intros [= <- <- _].
      unfold Server.get_stats, Server.stats_query. simpl.
      destruct (query env'); simpl; [|discriminate].
      now rewrite !Number_pg_int8.
    + rewrite Hst. simpl. destruct Hdb as [-> ->]. intros [= <- <- _].
      unfold Server.get_stats, Server.stats_query. simpl.
      destruct (query env'); simpl; [reflexivity | discriminate].
  - destruct (countVisit _ _ _ _) as [st' seen'] eqn:Hc. simpl.
    intros [= <- <- _]. reflexivity.
Qed.

Lemma read_after_visit_agrees_witness :
  let req := {| method := "POST"; origin := None; vid := None |} in
  let env := {| randomUUID := "0e6f4c1a-7b2d-4e3f-a5c6-9d8e7f6a5b4c"; query := Resolved |} in
  let s := Server.run sample_ops (Server.boot (Some Server.empty_db) true) in
  let visit := Server.post_visit req env s in
  let read := Server.get_stats env (fst visit) in
  database_ok (Some Server.empty_db)
  /\ body (snd visit) = VisitJson true (Js.Int 4) (Js.Int 3) false
  /\ status (snd read) = 200
  /\ body (snd read) = StatsJson (Js.Int 4) (Js.Int 3).
Proof.
  intros req env s visit read. split; [exact I|].
  split; [vm_compute; reflexivity|]. split; [vm_compute; reflexivity|].
  apply (read_after_visit_agrees (Some Server.empty_db) true sample_ops req env env
           (Js.Int 4) (Js.Int 3) false);
    [exact I | vm_compute; reflexivity | vm_compute; reflexivity].
Defined.

(** * Second level: proofs *)

(** ** Rounding to a double *)

Arguments Double.round : simpl never.

Lemma round_exact (z : Z) : Z.abs z <= 2 ^ 53 -> Double.round z = z.
Proof.
  intros H. unfold Double.round.
  destruct (Z.leb_spec (Z.abs z) (2 ^ 53)); [reflexivity | lia].
Qed.

Lemma round_opp (z : Z) : Double.round (- z) = - Double.round z.
Proof.
  unfold Double.round. rewrite Z.abs_opp, Z.sgn_opp.
  destruct (Z.abs z <=? 2 ^ 53); [reflexivity | ring].
Qed.

(** Above [2^53] the double is one of the two multiples of [2^e] around [a],
    where [2^(e+52) <= a < 2^(e+53)]. *)
Lemma round_above (a : Z) :
  2 ^ 53 < a ->
  let e := Z.log2 a - 52 in
  let q := a / 2 ^ e in
  1 <= e /\ 2 ^ 52 <= q < 2 ^ 53
  /\ q * 2 ^ e <= Double.round a <= (q + 1) * 2 ^ e
  /\ (a mod 2 ^ e < 2 ^ (e - 1) -> Double.round a = q * 2 ^ e)
  /\ (2 ^ (e - 1) < a mod 2 ^ e -> Double.round a = (q + 1) * 2 ^ e).
Proof.
  intros Ha e q.
  assert (Hlog : 53 <= Z.log2 a) by (apply Z.log2_le_pow2; lia).
  assert (He : 1 <= e) by (subst e; lia).
  pose proof (Z.log2_spec a ltac:(lia)) as [Hlo Hhi].
  assert (Hp : 0 < 2 ^ e) by (apply Z.pow_pos_nonneg; lia).
  assert (Hlo' : 2 ^ 52 * 2 ^ e <= a).
  { rewrite <- Z.pow_add_r by lia. replace (52 + e) with (Z.log2 a) by (subst e; lia).
    exact Hlo. }
  assert (Hhi' : a < 2 ^ 53 * 2 ^ e).
  { rewrite <- Z.pow_add_r by lia. replace (53 + e) with (Z.succ (Z.log2 a)) by (subst e; lia).
    exact Hhi. }
  assert (Hq : 2 ^ 52 <= q < 2 ^ 53).
  { subst q. split.
    - apply Z.div_le_lower_bound; lia.
    - apply Z.div_lt_upper_bound; lia. }
  split; [exact He|]. split; [exact Hq|].
  unfold Double.round. rewrite (Z.abs_eq a) by lia. rewrite (Z.sgn_pos a) by lia.
  destruct (Z.leb_spec a (2 ^ 53)); [lia|].
  fold e. fold q. rewrite Z.mul_1_l.
  destruct (Z.ltb_spec (a mod 2 ^ e) (2 ^ (e - 1))) as [H1|H1].
  - split; [nia|]. split; [reflexivity | lia].
  - destruct (Z.ltb_spec (2 ^ (e - 1)) (a mod 2 ^ e)) as [H2|H2].
    + split; [nia|]. split; [lia | reflexivity].
    + split; [destruct (Z.even q); nia|]. split; lia.
Qed.

Lemma round_mono_above (a b : Z) :
  2 ^ 53 < a -> a <= b -> Double.round a <= Double.round b.
Proof.
  intros Ha Hab.
  assert (Hb : 2 ^ 53 < b) by lia.
  pose proof (round_above a Ha) as (Hea & Hqa & Hra & Hloa & Hhia).
  pose proof (round_above b Hb) as (Heb & Hqb & Hrb & Hlob & Hhib).
  cbv zeta in *.
  assert (Hlog : Z.log2 a <= Z.log2 b) by (apply Z.log2_le_mono; lia).
  destruct (Z.eq_dec (Z.log2 a) (Z.log2 b)) as [Heq|Hne].
  - rewrite <- Heq in *.
    set (e := Z.log2 a - 52) in *.
    assert (Hp : 0 < 2 ^ e) by (apply Z.pow_pos_nonneg; lia).
    assert (Hq : a / 2 ^ e <= b / 2 ^ e) by (apply Z.div_le_mono; lia).
    destruct (Z.eq_dec (a / 2 ^ e) (b / 2 ^ e)) as [Hqe|Hqn]; [|nia].
    pose proof (Z.div_mod a (2 ^ e) ltac:(lia)) as Da.
    pose proof (Z.div_mod b (2 ^ e) ltac:(lia)) as Db.
    assert (Hr : a mod 2 ^ e <= b mod 2 ^ e) by nia.
    destruct (Z.lt_trichotomy (a mod 2 ^ e) (2 ^ (e - 1))) as [H|[H|H]].
    + rewrite (Hloa H). rewrite <- Hqe in Hrb. lia.
    + destruct (Z.lt_trichotomy (b mod 2 ^ e) (2 ^ (e - 1))) as [H'|[H'|H']]; [lia| |].
      * assert (a = b) by nia. now subst.
      * rewrite (Hhib H'). rewrite Hqe in Hra. lia.
    + rewrite (Hhia H), (Hhib ltac:(lia)), Hqe. lia.
  - set (ea := Z.log2 a - 52) in *. set (eb := Z.log2 b - 52) in *.
    assert (Hlt : ea + 1 <= eb) by (subst ea eb; lia).
    assert (Hpa : 0 < 2 ^ ea) by (apply Z.pow_pos_nonneg; lia).
    assert (Hpow : 2 * 2 ^ ea <= 2 ^ eb).
    { replace (2 * 2 ^ ea) with (2 ^ (ea + 1)) by (rewrite Z.pow_add_r by lia; lia).
      apply Z.pow_le_mono_r; lia. }
    nia.
Qed.

Lemma round_mono (a b : Z) : a <= b -> Double.round a <= Double.round b.
Proof.
  intros Hab.
  assert (Hup : forall z, 2 ^ 53 < z -> 2 ^ 53 <= Double.round z).
  { intros z Hz. pose proof (round_above z Hz) as (He & Hq & Hr & _). cbv zeta in *.
    assert (0 < 2 ^ (Z.log2 z - 52)) by (apply Z.pow_pos_nonneg; lia).
    assert (2 <= 2 ^ (Z.log2 z - 52)).
    { change 2 with (2 ^ 1) at 1. apply Z.pow_le_mono_r; lia. }
    nia. }
  assert (Hdown : forall z, z < - 2 ^ 53 -> Double.round z <= - 2 ^ 53).
  { intros z Hz. replace z with (- - z) by lia. rewrite round_opp.
    pose proof (Hup (- z) ltac:(lia)). lia. }
  destruct (Z.lt_ge_cases (2 ^ 53) b) as [Hb|Hb].
  - destruct (Z.lt_ge_cases (2 ^ 53) a) as [Ha|Ha]; [now apply round_mono_above|].
    pose proof (Hup b Hb).
    destruct (Z.lt_ge_cases a (- 2 ^ 53)) as [Ha'|Ha'].
    + pose proof (Hdown a Ha'). lia.
    + rewrite (round_exact a) by lia. lia.
  - destruct (Z.lt_ge_cases b (- 2 ^ 53)) as [Hb'|Hb'].
    + replace a with (- - a) by lia. replace b with (- - b) by lia.
      rewrite (round_opp (- a)), (round_opp (- b)).
      pose proof (round_mono_above (- b) (- a) ltac:(lia) ltac:(lia)). lia.
    + rewrite (round_exact b) by lia.
      destruct (Z.lt_ge_cases a (- 2 ^ 53)) as [Ha'|Ha'].
      * pose proof (Hdown a Ha'). lia.
      * rewrite (round_exact a) by lia. lia.
Qed.

Lemma round_nonneg (z : Z) : 0 <= z -> 0 <= Double.round z.
Proof. intros H. apply round_mono in H. now rewrite (round_exact 0) in H by lia. Qed.

(** [2^53 + 1] is no double: adding 1 to [2^53] gives [2^53] again. *)
Lemma round_saturated : Double.round (2 ^ 53 + 1) = 2 ^ 53.
Proof. reflexivity. Qed.

Lemma Double_Number_pg_int8 (z : Z) :
  Double.Number (Server.pg_int8 z) = Js.Int (Double.round z).
Proof. unfold Double.Number. now rewrite Number_pg_int8. Qed.

Arguments Double.Number : simpl never.

(** ** Rounding is rounding to nearest, ties to even *)

Lemma round_above_cases (a : Z) :
  2 ^ 53 < a ->
  let e := Z.log2 a - 52 in
  let q := a / 2 ^ e in
  let r := a mod 2 ^ e in
  1 <= e /\ 2 ^ 52 <= q < 2 ^ 53
  /\ a = q * 2 ^ e + r /\ 0 <= r < 2 ^ e /\ 2 ^ e = 2 * 2 ^ (e - 1)
  /\ exists q', Double.round a = q' * 2 ^ e
                /\ (q' = q \/ q' = q + 1)
                /\ (r < 2 ^ (e - 1) -> q' = q)
                /\ (2 ^ (e - 1) < r -> q' = q + 1)
                /\ (r = 2 ^ (e - 1) -> Z.even q' = true).
Proof.
  intros Ha e q r.
  pose proof (round_above a Ha) as (He & Hq & _). fold e q in He, Hq.
  assert (Hp : 0 < 2 ^ e) by (apply Z.pow_pos_nonneg; lia).
  split; [exact He|]. split; [exact Hq|].
  split; [subst q r; rewrite Z.mul_comm; apply Z.div_mod; lia|].
  split; [subst r; apply Z.mod_pos_bound; lia|].
  split.
  { replace e with (1 + (e - 1)) at 1 by lia. rewrite Z.pow_add_r by lia. reflexivity. }
  unfold Double.round. rewrite (Z.abs_eq a) by lia. rewrite (Z.sgn_pos a) by lia.
  destruct (Z.leb_spec a (2 ^ 53)); [lia|].
  fold e. fold q. fold r. rewrite Z.mul_1_l.
  destruct (Z.ltb_spec r (2 ^ (e - 1))) as [H1|H1].
  - exists q. repeat split; try tauto; lia.
  - destruct (Z.ltb_spec (2 ^ (e - 1)) r) as [H2|H2].
    + exists (q + 1). repeat split; try tauto; lia.
    + destruct (Z.even q) eqn:Hev.
      * exists q. repeat split; try tauto; lia.
      * exists (q + 1). repeat split; try tauto; try lia.
        intros _. rewrite Z.add_1_r, Z.even_succ, <- Z.negb_even, Hev. reflexivity.
Qed.

Lemma is_double_opp (d : Z) : is_double d -> is_double (- d).
Proof.
  intros (m & e & Hm & He & ->). exists (- m), e.
  rewrite Z.abs_opp. split; [exact Hm|]. split; [exact He | ring].
Qed.

Lemma is_double_small (z : Z) : Z.abs z <= 2 ^ 53 -> is_double z.
Proof.
  intros H. destruct (Z.eq_dec (Z.abs z) (2 ^ 53)) as [Heq|Hne].
  - exists (Z.sgn z * 2 ^ 52), 1. split; [|split; [lia|]].
    + destruct z; simpl in *; lia.
    + destruct z; simpl in *; lia.
  - exists z, 0. split; [lia|]. split; [lia|]. rewrite Z.pow_0_r. ring.
Qed.

(** A double is a multiple of [2^e] or small, for every [e]. *)
Lemma double_multiple_or_small (d e : Z) :
  1 <= e -> is_double d ->
  (exists k, d = k * 2 ^ e) \/ Z.abs d < 2 ^ 52 * 2 ^ e.
Proof.
  intros He (m & e' & Hm & He' & ->).
  destruct (Z.le_gt_cases e e') as [Hle|Hgt].
  - left. exists (m * 2 ^ (e' - e)). rewrite <- Z.mul_assoc, <- Z.pow_add_r by lia.
    do 2 f_equal. lia.
  - right. rewrite Z.abs_mul, (Z.abs_eq (2 ^ e')) by (apply Z.pow_nonneg; lia).
    assert (Hp : 0 < 2 ^ e') by (apply Z.pow_pos_nonneg; lia).
    assert (Hpow : 2 * 2 ^ e' <= 2 ^ e).
    { replace (2 * 2 ^ e') with (2 ^ (e' + 1)) by (rewrite Z.pow_add_r by lia; lia).
      apply Z.pow_le_mono_r; lia. }
    assert (H1 : Z.abs m * 2 ^ e' < 2 ^ 53 * 2 ^ e') by (apply Z.mul_lt_mono_pos_r; lia).
    lia.
Qed.

Lemma nearest_above (a d : Z) :
  2 ^ 53 < a -> is_double d ->
  Z.abs (Double.round a - a) <= Z.abs (d - a)
  /\ (d <> Double.round a -> Z.abs (d - a) = Z.abs (Double.round a - a) ->
      Z.even (Double.round a / Z.abs (d - Double.round a)) = true
      /\ Double.round a mod Z.abs (d - Double.round a) = 0).
Proof.
  intros Ha Hd.
  destruct (round_above_cases a Ha)
    as (He & Hq & Hdiv & Hr & Hhalf & q' & HR & Hq' & Hlo & Hhi & Htie).
  cbv zeta in *.
  pose proof (double_multiple_or_small d (Z.log2 a - 52) He Hd) as Hms.
  assert (Hh : 0 < 2 ^ (Z.log2 a - 52 - 1)) by (apply Z.pow_pos_nonneg; lia).
  remember (2 ^ (Z.log2 a - 52)) as P eqn:HP in *.
  remember (2 ^ (Z.log2 a - 52 - 1)) as h eqn:Hh' in *.
  remember (a / P) as q eqn:Hq0 in *. remember (a mod P) as r eqn:Hr0 in *.
  clear HP Hh' Hq0 Hr0.
  rewrite HR.
  assert (HqP : q' * P = q * P \/ q' * P = q * P + P) by (destruct Hq' as [-> | ->]; lia).
  destruct Hms as [[k ->]|Hsmall].
  - assert (Hk : k * P <= q * P \/ q * P + P <= k * P).
    { destruct (Z.le_gt_cases k q) as [Hle|Hgt].
      - left. apply Z.mul_le_mono_nonneg_r; lia.
      - right. replace (q * P + P) with ((q + 1) * P) by ring.
        apply Z.mul_le_mono_nonneg_r; lia. }
    split.
    + destruct (Z.lt_trichotomy r h) as [H|[H|H]].
      * rewrite (Hlo H) in *. lia.
      * lia.
      * rewrite (Hhi H) in *. lia.
    + intros Hne Heq.
      assert (Hrh : r = h).
      { destruct (Z.lt_trichotomy r h) as [H|[H|H]]; [|exact H|].
        - rewrite (Hlo H) in *. lia.
        - rewrite (Hhi H) in *. lia. }
      assert (Hgap : Z.abs (k * P - q' * P) = P) by lia.
      rewrite Hgap, Z.div_mul, Z.mod_mul by lia. split; [now apply Htie | reflexivity].
  - assert (Hlow : 2 ^ 52 * P <= q * P) by (apply Z.mul_le_mono_nonneg_r; lia).
    split; [lia|]. intros _ Heq. exfalso. lia.
Qed.

(** X25.  The number model: [Double.round z] is a double, no double is
    nearer to [z], and when two doubles are equally near the result is the
    one whose significand, counted in units of the gap between the two, is
    even.  Integers up to [2^53] in absolute value are doubles and are left
    as they are; [2^53 + 1] is the first integer that is no double. *)
Theorem round_is_nearest_ties_to_even (z : Z) :
  is_double (Double.round z)
  /\ (forall d, is_double d -> Z.abs (Double.round z - z) <= Z.abs (d - z))
  /\ (forall d, is_double d -> d <> Double.round z ->
        Z.abs (d - z) = Z.abs (Double.round z - z) ->
        Z.even (Double.round z / Z.abs (d - Double.round z)) = true)
  /\ (Z.abs z <= 2 ^ 53 -> Double.round z = z)
  /\ Double.round (2 ^ 53 + 1) = 2 ^ 53.
Proof.
  assert (Habove : forall a, 2 ^ 53 < a -> is_double (Double.round a)).
  { intros a Ha.
    destruct (round_above_cases a Ha) as (He & Hq & _ & _ & _ & q' & HR & Hq' & _).
    cbv zeta in *. rewrite HR.
    destruct (Z.eq_dec q' (2 ^ 53)) as [->|Hne].
    - exists (2 ^ 52), (Z.log2 a - 52 + 1). split; [lia|]. split; [lia|].
      rewrite Z.pow_add_r by lia. lia.
    - exists q', (Z.log2 a - 52). split; [lia|]. split; [lia | reflexivity]. }
  split; [|split; [|split; [|split; [apply round_exact | apply round_saturated]]]].
  - destruct (Z.le_gt_cases (Z.abs z) (2 ^ 53)) as [Hs|Hb].
    + rewrite round_exact by exact Hs. now apply is_double_small.
    + destruct (Z.lt_ge_cases 0 z) as [Hz|Hz].
      * apply Habove. lia.
      * replace z with (- - z) by lia. rewrite round_opp. apply is_double_opp, Habove. lia.
  - intros d Hd. destruct (Z.le_gt_cases (Z.abs z) (2 ^ 53)) as [Hs|Hb].
    + rewrite round_exact by exact Hs. lia.
    + destruct (Z.lt_ge_cases 0 z) as [Hz|Hz].
      * apply nearest_above; [lia | exact Hd].
      * destruct (nearest_above (- z) (- d) ltac:(lia) (is_double_opp d Hd)) as [H _].
        replace z with (- - z) at 1 by lia. rewrite round_opp. lia.
  - intros d Hd Hne Heq. destruct (Z.le_gt_cases (Z.abs z) (2 ^ 53)) as [Hs|Hb].
    + rewrite round_exact in * by exact Hs. lia.
    + destruct (Z.lt_ge_cases 0 z) as [Hz|Hz].
      * apply nearest_above; [lia | exact Hd | exact Hne | exact Heq].
      * destruct (nearest_above (- z) (- d) ltac:(lia) (is_double_opp d Hd)) as [_ H].
        assert (Hr : Double.round z = - Double.round (- z)).
        { replace z with (- - z) at 1 by lia. now rewrite round_opp. }
        rewrite Hr in *.
        destruct (H ltac:(lia) ltac:(lia)) as [Hev Hmod].
        replace (Z.abs (d - - Double.round (- z)))
          with (Z.abs (- d - Double.round (- z))) by lia.
        rewrite Z.div_opp_l_z; [now rewrite Z.even_opp | lia | exact Hmod].
Qed.

(** ** The CORS middleware on UTF-16 strings *)

Lemma includes16_in (l : list (list Z)) (o : list Z) : Cors16.includes l o = true <-> In o l.
Proof.
  unfold Cors16.includes. rewrite existsb_exists. split.
  - intros (x & Hx & He). apply bool_decide_eq_true in He. now subst.
  - intros H. exists o. split; [exact H | now apply bool_decide_eq_true].
Qed.

Lemma listed_dec (allowedOrigin : option (list Z)) (o : option (list Z)) :
  match o with
  | Some v => Utf16.truthy v && Cors16.includes (Cors16.allowedOrigins allowedOrigin) v = true
              <-> listed allowedOrigin o
  | None => ~ listed allowedOrigin o
  end.
Proof.
  destruct o as [v|]; [|intros []]. unfold listed.
  rewrite andb_true_iff, includes16_in.
  destruct v; simpl; split; intros [H1 H2]; (split; [congruence || discriminate | exact H2]).
Qed.

(** C9, amended.  Every [OPTIONS] request is answered with status 204
    carrying [Access-Control-Allow-Methods: GET,POST,OPTIONS] and
    [Access-Control-Allow-Headers: Content-Type], whatever its origin.  When
    the origin is present, not empty and an entry of the allow-list, the
    answer carries [Access-Control-Allow-Origin] (the origin itself),
    [Access-Control-Allow-Credentials: true] and [Vary: Origin] as well;
    otherwise it carries none of the three.  The entries of the allow-list
    are the pieces of [ALLOWED_ORIGIN] between commas, trimmed of the white
    space of JavaScript. *)
Theorem preflight_always_answered (allowedOrigin : option (list Z)) (o : option (list Z)) :
  let out := Cors16.middleware allowedOrigin {| Cors16.method := "OPTIONS"; Cors16.origin := o |} in
  (exists hs, out = Cors16.Sent 204 hs)
  /\ Cors16.header "Access-Control-Allow-Methods" out = Some (Utf16.of_string "GET,POST,OPTIONS")
  /\ Cors16.header "Access-Control-Allow-Headers" out = Some (Utf16.of_string "Content-Type")
  /\ (listed allowedOrigin o ->
      Cors16.header "Access-Control-Allow-Origin" out = o
      /\ Cors16.header "Access-Control-Allow-Credentials" out = Some (Utf16.of_string "true")
      /\ Cors16.header "Vary" out = Some (Utf16.of_string "Origin"))
  /\ (~ listed allowedOrigin o ->
      Cors16.header "Access-Control-Allow-Origin" out = None
      /\ Cors16.header "Access-Control-Allow-Credentials" out = None
      /\ Cors16.header "Vary" out = None).
Proof.
  intros out. subst out. unfold Cors16.middleware. simpl.
  pose proof (listed_dec allowedOrigin o) as Hl.
  destruct o as [v|].
  - destruct (Utf16.truthy v && Cors16.includes (Cors16.allowedOrigins allowedOrigin) v).
    + split; [eexists; reflexivity|]. split; [reflexivity|]. split; [reflexivity|].
      split; [intros _; repeat split|]. intros Hn. exfalso. apply Hn, Hl. reflexivity.
    + split; [eexists; reflexivity|]. split; [reflexivity|]. split; [reflexivity|].
      split; [|intros _; repeat split]. intros H. apply Hl in H. discriminate.
  - split; [eexists; reflexivity|]. split; [reflexivity|]. split; [reflexivity|].
    split; [intros []|intros _; repeat split].
Qed.

(** X4.  Whatever the method, the headers set by the middleware hold
    [Access-Control-Allow-Origin: v] exactly when [v] is the [Origin] of the
    request and an entry of [allowedOrigins]; the headers
    [Access-Control-Allow-Credentials: true] and [Vary: Origin] come with it
    and never without it.  No other origin, and no wildcard, is ever
    allowed. *)
Theorem allow_origin_only_for_listed_origin
  (allowedOrigin : option (list Z)) (req : Cors16.Request) (v : list Z) :
  let out := Cors16.middleware allowedOrigin req in
  (Cors16.header "Access-Control-Allow-Origin" out = Some v
   <-> Cors16.origin req = Some v /\ In v (Cors16.allowedOrigins allowedOrigin))
  /\ Cors16.header "Access-Control-Allow-Credentials" out
     = match Cors16.header "Access-Control-Allow-Origin" out with
       | Some _ => Some (Utf16.of_string "true")
       | None => None
       end
  /\ Cors16.header "Vary" out
     = match Cors16.header "Access-Control-Allow-Origin" out with
       | Some _ => Some (Utf16.of_string "Origin")
       | None => None
       end.
Proof.
  intros out. subst out. unfold Cors16.middleware.
  assert (Hne : forall x, In x (Cors16.allowedOrigins allowedOrigin) -> Utf16.truthy x = true).
  { intros x. unfold Cors16.allowedOrigins. destruct allowedOrigin as [a|]; [|intros []].
    destruct (Utf16.truthy a); [|intros []]. intros Hx. now apply filter_In in Hx. }
  destruct (Cors16.origin req) as [o|] eqn:Ho.
  - destruct (Utf16.truthy o && Cors16.includes (Cors16.allowedOrigins allowedOrigin) o) eqn:Ha.
    + apply andb_true_iff in Ha as [_ Hin]. apply includes16_in in Hin.
      destruct (String.eqb (Cors16.method req) "OPTIONS"); simpl;
        (split; [|split; reflexivity]); (split; [intros [= <-]; now split | intros [[= ->] _]; reflexivity]).
    + assert (Hno : ~ In o (Cors16.allowedOrigins allowedOrigin)).
      { intros Hin. rewrite (Hne o Hin) in Ha. apply includes16_in in Hin. simpl in Ha. congruence. }
      destruct (String.eqb (Cors16.method req) "OPTIONS"); simpl;
        (split; [|split; reflexivity]); (split; [discriminate | intros [[= ->] Hin]; contradiction]).
  - destruct (String.eqb (Cors16.method req) "OPTIONS"); simpl;
      (split; [|split; reflexivity]); (split; [discriminate | intros [[= ] _]]).
Qed.

(** ** Strings of the allow-list, in UTF-16 *)

Lemma split16_cons (sep c : Z) (s : list Z) :
  Utf16.split sep (c :: s)
  = if Z.eqb c sep then [] :: Utf16.split sep s
    else match Utf16.split sep s with
         | p :: ps => (c :: p) :: ps
         | [] => [[c]]
         end.
Proof. reflexivity. Qed.

Lemma split16_without_separator (sep : Z) (p : list Z) :
  List.existsb (Z.eqb sep) p = false -> Utf16.split sep p = [p].
Proof.
  induction p as [|c p IH]; [reflexivity|]. simpl List.existsb. intros H.
  apply orb_false_iff in H as [Hc Hp]. rewrite split16_cons, (IH Hp).
  rewrite Z.eqb_sym, Hc. reflexivity.
Qed.

Lemma split16_app_separator (sep : Z) (p s : list Z) :
  List.existsb (Z.eqb sep) p = false ->
  Utf16.split sep (p ++ sep :: s)%list = p :: Utf16.split sep s.
Proof.
  induction p as [|c p IH]; intros H.
  - simpl app. rewrite split16_cons, Z.eqb_refl. reflexivity.
  - simpl List.existsb in H. apply orb_false_iff in H as [Hc Hp].
    change ((c :: p) ++ sep :: s)%list with (c :: (p ++ sep :: s)%list).
    rewrite split16_cons, (IH Hp), Z.eqb_sym, Hc. reflexivity.
Qed.

Lemma split16_join (sep : Z) (l : list (list Z)) :
  l <> [] ->
  Forall (fun p => List.existsb (Z.eqb sep) p = false) l ->
  Utf16.split sep (Utf16.join sep l) = l.
Proof.
  intros Hne Hall. induction Hall as [|p l Hp Hall IH]; [congruence|].
  destruct l as [|p' l].
  - simpl. now apply split16_without_separator.
  - change (Utf16.join sep (p :: p' :: l)) with (p ++ sep :: Utf16.join sep (p' :: l))%list.
    rewrite (split16_app_separator _ _ _ Hp), IH by discriminate. reflexivity.
Qed.

Lemma trimStart16_white (ws s : list Z) :
  all_white ws = true -> Utf16.trimStart (ws ++ s)%list = Utf16.trimStart s.
Proof.
  induction ws as [|c ws IH]; [reflexivity|]. simpl. intros H.
  apply andb_true_iff in H as [Hc Hws]. rewrite Hc. now apply IH.
Qed.

Lemma trimStart16_clean (s : list Z) :
  from_option Utf16.is_white false (head s) = false -> Utf16.trimStart s = s.
Proof. destruct s as [|c s]; [reflexivity|]. simpl. now intros ->. Qed.

Lemma trimEnd16_all_white (ws : list Z) : all_white ws = true -> Utf16.trimEnd ws = [].
Proof.
  induction ws as [|c ws IH]; [reflexivity|]. simpl. intros H.
  apply andb_true_iff in H as [Hc Hws]. now rewrite (IH Hws), Hc.
Qed.

Lemma trimEnd16_white (s ws : list Z) :
  all_white ws = true -> Utf16.trimEnd (s ++ ws)%list = Utf16.trimEnd s.
Proof.
  intros H. induction s as [|c s IH]; [now apply trimEnd16_all_white|].
  simpl. now rewrite IH.
Qed.

Lemma trimEnd16_clean (s : list Z) :
  from_option Utf16.is_white false (last s) = false -> Utf16.trimEnd s = s.
Proof.
  induction s as [|c s IH]; [reflexivity|]. destruct s as [|d s].
  - simpl. now intros ->.
  - change (last (c :: d :: s)) with (last (d :: s)). intros H.
    change (Utf16.trimEnd (c :: d :: s))
      with (let r' := Utf16.trimEnd (d :: s) in
            if Utf16.is_white c && match r' with [] => true | _ :: _ => false end
            then [] else c :: r').
    rewrite (IH H). cbv zeta. now rewrite andb_false_r.
Qed.

Lemma clean_origin_parts (s : list Z) :
  clean_origin s = true ->
  s <> []
  /\ from_option Utf16.is_white false (head s) = false
  /\ from_option Utf16.is_white false (last s) = false
  /\ List.existsb (Z.eqb 44) s = false.
Proof.
  unfold clean_origin. rewrite !andb_true_iff, !negb_true_iff.
  intros [[[H1 H2] H3] H4]. repeat split; try assumption. now destruct s.
Qed.

Lemma all_white_no_comma (ws : list Z) :
  all_white ws = true -> List.existsb (Z.eqb 44) ws = false.
Proof.
  induction ws as [|c ws IH]; [reflexivity|]. intros H.
  change (all_white (c :: ws)) with (Utf16.is_white c && all_white ws) in H.
  apply andb_true_iff in H as [Hc Hws].
  change (List.existsb (Z.eqb 44) (c :: ws)) with ((44 =? c) || List.existsb (Z.eqb 44) ws).
  rewrite (IH Hws), orb_false_r.
  destruct (Z.eqb_spec 44 c) as [<-|]; [discriminate Hc | reflexivity].
Qed.

Lemma trim16_padded (pre o post : list Z) :
  clean_origin o = true -> all_white pre = true -> all_white post = true ->
  Utf16.trim (pre ++ o ++ post)%list = o.
Proof.
  intros Hc H1 H2. destruct (clean_origin_parts _ Hc) as (Hne & Hh & Hl & _).
  unfold Utf16.trim. rewrite (trimStart16_white _ _ H1).
  rewrite trimStart16_clean by (destruct o; [congruence | exact Hh]).
  rewrite (trimEnd16_white _ _ H2). now apply trimEnd16_clean.
Qed.

(** X3.  A list of origins written with commas between them, each padded
    with any white space of JavaScript (no-break space and byte order mark
    included), is read back as that list. *)
Theorem allowed_origins_of_padded_list (entries : list (list Z * list Z * list Z)) :
  entries <> [] ->
  Forall (fun e => all_white (fst (fst e)) = true
                   /\ clean_origin (snd (fst e)) = true
                   /\ all_white (snd e) = true) entries ->
  Cors16.allowedOrigins
    (Some (Utf16.join 44 (List.map (fun e => (fst (fst e) ++ snd (fst e) ++ snd e)%list) entries)))
  = List.map (fun e => snd (fst e)) entries.
Proof.
  intros Hne Hall. unfold Cors16.allowedOrigins.
  set (pad := fun e : list Z * list Z * list Z => (fst (fst e) ++ snd (fst e) ++ snd e)%list).
  assert (Hpieces : Forall (fun p => List.existsb (Z.eqb 44) p = false) (List.map pad entries)).
  { apply List.Forall_forall. intros p Hp. apply in_map_iff in Hp as (e & <- & He).
    rewrite List.Forall_forall in Hall. destruct (Hall e He) as (H1 & Hc & H2).
    unfold pad. rewrite !existsb_app.
    destruct (clean_origin_parts _ Hc) as (_ & _ & _ & Hcomma).
    now rewrite (all_white_no_comma _ H1), Hcomma, (all_white_no_comma _ H2). }
  assert (Htruthy : Utf16.truthy (Utf16.join 44 (List.map pad entries)) = true).
  { destruct entries as [|e es]; [congruence|].
    inversion Hall as [|? ? (H1 & Hc & _) _]; subst.
    destruct (clean_origin_parts _ Hc) as (Hs & Hh & _).
    assert (Hp : exists c r, pad e = c :: r).
    { unfold pad. destruct (fst (fst e)) as [|c r]; [|now exists c, (r ++ snd (fst e) ++ snd e)%list].
      destruct (snd (fst e)) as [|c r]; [congruence|]. now exists c, (r ++ snd e)%list. }
    destruct Hp as (c & r & Hp). simpl List.map. rewrite Hp.
    destruct (List.map pad es); reflexivity. }
  rewrite Htruthy, split16_join;
    [|destruct entries; [congruence | discriminate]|exact Hpieces].
  clear Hne Hpieces Htruthy.
  induction Hall as [|e es (H1 & Hc & H2) _ IH]; [reflexivity|].
  cbn [List.map]. unfold pad at 1. rewrite (trim16_padded _ _ _ Hc H1 H2).
  cbn [List.filter]. destruct (clean_origin_parts _ Hc) as (Hs & _).
  destruct (snd (fst e)) as [|c r] eqn:Ho; [congruence|]. simpl Utf16.truthy. cbv iota.
  f_equal. exact IH.
Qed.

Lemma allowed_origins_of_padded_list_witness :
  let a := Utf16.of_string "https://a.example" in
  let b := Utf16.of_string "https://b.example" in
  let entries := [([160], a, [32]); ([65279; 9], b, [])] in
  entries <> []
  /\ Forall (fun e => all_white (fst (fst e)) = true
                      /\ clean_origin (snd (fst e)) = true
                      /\ all_white (snd e) = true) entries
  /\ Cors16.allowedOrigins (Some ([160] ++ a ++ [32; 44; 65279; 9] ++ b)%list) = [a; b].
Proof.
  intros a b entries. split; [discriminate|].
  assert (Hall : Forall (fun e => all_white (fst (fst e)) = true
                                  /\ clean_origin (snd (fst e)) = true
                                  /\ all_white (snd e) = true) entries)
    by (repeat constructor).
  split; [exact Hall|].
  apply (allowed_origins_of_padded_list entries); [discriminate | exact Hall].
Defined.

(** ** The handlers of [part_000] on the values of JavaScript *)

Lemma resolveVisitor_value (vid : Vid.Value) (env : Env) (seen : Vid.Seen) :
  Vid.resolveVisitor vid env seen
  = (visitor_id vid env, negb (Vid.truthy vid && Vid.has seen vid)).
Proof.
  unfold Vid.resolveVisitor, visitor_id.
  destruct (Vid.truthy vid); [|reflexivity]. simpl. now destruct (Vid.has seen vid).
Qed.

Lemma part000_post_visit (vid : Vid.Value) (env : Env) (m : Part000.State) :
  Part000.post_visit vid env m
  = let known := Vid.truthy vid && Vid.has (Part000.seenVisitorIds m) vid in
    let r := Vid.countVisit (visitor_id vid env) (negb known)
               (Part000.stats m) (Part000.seenVisitorIds m) in
    ({| Part000.stats := fst r; Part000.seenVisitorIds := snd r |},
     Vid.visitResponse (visitor_id vid env) (fst r) (negb known)).
Proof.
  unfold Part000.post_visit. rewrite resolveVisitor_value. cbv zeta.
  now destruct (Vid.countVisit _ _ _ _).
Qed.

Lemma index_step_without_pool (c : Call) (m : Part000.State) :
  Index.step (Index.Arrive c) (without_pool m)
  = (without_pool (fst (Part000.step c m)), Some (snd (Part000.step c m))).
Proof.
  destruct c as [vid env|env]; [|reflexivity].
  unfold Index.step, Index.post_visit, Part000.step, Part000.post_visit.
  change (Index.seenVisitorIds (without_pool m)) with (Part000.seenVisitorIds m).
  destruct (Vid.resolveVisitor vid env (Part000.seenVisitorIds m)) as [visitorId isNew].
  change (Index.pool (without_pool m)) with (@None Server.Db).
  change (Index.stats (without_pool m)) with (Part000.stats m). cbv iota.
  now destruct (Vid.countVisit _ _ _ _).
Qed.

Lemma index_idle_without_pool (ev : Index.Event) (m : Part000.State) :
  match ev with Index.Arrive _ => False | _ => True end ->
  Index.step ev (without_pool m) = (without_pool m, None).
Proof.
  destruct ev as [|c|i]; [reflexivity | intros [] | intros _].
  unfold Index.step, Index.answer. simpl. now destruct i.
Qed.

Lemma answers_cons (ev : Index.Event) (evs : list Index.Event) (s : Index.State) :
  answers (ev :: evs) s
  = match snd (Index.step ev s) with
    | Some r => r :: answers evs (fst (Index.step ev s))
    | None => answers evs (fst (Index.step ev s))
    end.
Proof. reflexivity. Qed.

Lemma index_run_cons (ev : Index.Event) (evs : list Index.Event) (s : Index.State) :
  Index.run (ev :: evs) s = Index.run evs (fst (Index.step ev s)).
Proof. reflexivity. Qed.

Lemma index_run_without_pool (evs : list Index.Event) (m : Part000.State) :
  Index.run evs (without_pool m) = without_pool (Part000.run (arrivals evs) m)
  /\ answers evs (without_pool m) = part000_answers (arrivals evs) m.
Proof.
  revert m. induction evs as [|ev evs IH]; intros m; [now split|].
  rewrite index_run_cons, answers_cons. destruct ev as [|c|i].
  - rewrite (index_idle_without_pool Index.Ensure m I). apply IH.
  - rewrite index_step_without_pool. cbn [fst snd].
    destruct (IH (fst (Part000.step c m))) as [H1 H2]. split; [exact H1|].
    rewrite H2. reflexivity.
  - rewrite (index_idle_without_pool (Index.Answer i) m I). apply IH.
Qed.

(** ** Runs of [part_000] on the values of JavaScript *)

Lemma part000_run_cons (c : Call) (calls : list Call) (m : Part000.State) :
  Part000.run (c :: calls) m = Part000.run calls (fst (Part000.step c m)).
Proof. reflexivity. Qed.

Lemma seen_eq (a b : Vid.Seen) :
  Vid.prims a = Vid.prims b -> Vid.objects a = Vid.objects b -> a = b.
Proof. destruct a, b. simpl. now intros -> ->. Qed.

Lemma seen_after_cons (v : Vid.Value) (ids : list Vid.Value) (seen : Vid.Seen) :
  seen_after (v :: ids) seen = seen_after ids (Vid.add v seen).
Proof.
  apply seen_eq; destruct v as [p|json pg]; simpl; try reflexivity.
  - set_solver.
  - now rewrite <- app_assoc.
Qed.

Lemma seen_after_known (v : Vid.Value) (ids : list Vid.Value) (seen : Vid.Seen) :
  Vid.has seen v = true -> seen_after (v :: ids) seen = seen_after ids seen.
Proof.
  destruct v as [p|json pg]; [|discriminate]. simpl. intros H.
  apply bool_decide_eq_true in H. apply seen_eq; simpl; [set_solver | reflexivity].
Qed.

(** What a visit leaves in [seenVisitorIds]. *)
Lemma part000_seen_after_visit (vid : Vid.Value) (env : Env) (m : Part000.State) :
  Part000.seenVisitorIds (fst (Part000.post_visit vid env m))
  = if Vid.truthy vid && Vid.has (Part000.seenVisitorIds m) vid
    then Part000.seenVisitorIds m
    else Vid.add (visitor_id vid env) (Part000.seenVisitorIds m).
Proof.
  rewrite part000_post_visit. cbv zeta. unfold Vid.countVisit.
  now destruct (Vid.truthy vid && Vid.has (Part000.seenVisitorIds m) vid).
Qed.

Lemma part000_run_seen (calls : list Call) (m : Part000.State) :
  Part000.seenVisitorIds (Part000.run calls m)
  = seen_after (visitor_ids calls) (Part000.seenVisitorIds m).
Proof.
  revert m. induction calls as [|[vid env|env] calls IH]; intros m.
  - apply seen_eq; simpl; [set_solver | now rewrite app_nil_r].
  - rewrite part000_run_cons, IH. simpl Part000.step. rewrite part000_seen_after_visit.
    simpl visitor_ids. unfold visitor_id at 2.
    destruct (Vid.truthy vid) eqn:Ht; simpl andb.
    + destruct (Vid.has (Part000.seenVisitorIds m) vid) eqn:Hh.
      * now rewrite seen_after_known.
      * unfold visitor_id. rewrite Ht. now rewrite seen_after_cons.
    + unfold visitor_id. rewrite Ht. now rewrite seen_after_cons.
  - rewrite part000_run_cons. simpl. apply IH.
Qed.

Lemma size_add_new (v : Vid.Value) (seen : Vid.Seen) :
  match v with
  | Vid.Primitive p => p ∉ Vid.prims seen
  | Vid.Object _ _ => True
  end ->
  Vid.size (Vid.add v seen) = S (Vid.size seen).
Proof.
  destruct v as [p|json pg]; unfold Vid.size; simpl; intros H.
  - rewrite size_union, size_singleton by set_solver. reflexivity.
  - rewrite length_app. simpl. lia.
Qed.

Lemma part000_stats_after_visit (vid : Vid.Value) (env : Env) (m : Part000.State) :
  Part000.stats (fst (Part000.post_visit vid env m))
  = {| totalVisits := Double.plus (totalVisits (Part000.stats m)) (Js.Int 1);
       uniqueVisitors :=
         if Vid.truthy vid && Vid.has (Part000.seenVisitorIds m) vid
         then uniqueVisitors (Part000.stats m)
         else Double.plus (uniqueVisitors (Part000.stats m)) (Js.Int 1) |}.
Proof.
  rewrite part000_post_visit. cbv zeta. unfold Vid.countVisit.
  now destruct (Vid.truthy vid && Vid.has (Part000.seenVisitorIds m) vid).
Qed.

Lemma part000_run_total (calls : list Call) (m : Part000.State) (t : Z) :
  totalVisits (Part000.stats m) = Js.Int t ->
  0 <= t ->
  t + Z.of_nat (length (visitor_ids calls)) <= 2 ^ 53 ->
  totalVisits (Part000.stats (Part000.run calls m))
  = Js.Int (t + Z.of_nat (length (visitor_ids calls))).
Proof.
  revert m t. induction calls as [|[vid env|env] calls IH]; intros m t Ht H0 Hb.
  - simpl. rewrite Ht. f_equal. lia.
  - rewrite part000_run_cons. simpl visitor_ids in *. simpl length in *.
    rewrite (IH _ (t + 1)); [f_equal; lia| |lia|lia].
    simpl Part000.step. rewrite part000_stats_after_visit. simpl. rewrite Ht. simpl.
    now rewrite round_exact by lia.
  - rewrite part000_run_cons. simpl. now apply IH.
Qed.

Lemma part000_run_unique (calls : list Call) (m : Part000.State) :
  uniqueVisitors (Part000.stats m) = Js.Int (Z.of_nat (Vid.size (Part000.seenVisitorIds m))) ->
  Z.of_nat (Vid.size (Part000.seenVisitorIds m)) + Z.of_nat (length (visitor_ids calls))
    <= 2 ^ 53 ->
  fresh (Vid.prims (Part000.seenVisitorIds m)) calls = true ->
  uniqueVisitors (Part000.stats (Part000.run calls m))
  = Js.Int (Z.of_nat (Vid.size (Part000.seenVisitorIds (Part000.run calls m)))).
Proof.
  revert m. induction calls as [|[vid env|env] calls IH]; intros m Hu Hb Hf.
  - exact Hu.
  - rewrite part000_run_cons. simpl visitor_ids in Hb. simpl length in Hb.
    simpl fresh in Hf. apply andb_true_iff in Hf as [Hnew Hf].
    simpl Part000.step.
    assert (Hstep :
      uniqueVisitors (Part000.stats (fst (Part000.post_visit vid env m)))
      = Js.Int (Z.of_nat (Vid.size (Part000.seenVisitorIds (fst (Part000.post_visit vid env m)))))
      /\ Z.of_nat (Vid.size (Part000.seenVisitorIds (fst (Part000.post_visit vid env m))))
         <= Z.of_nat (Vid.size (Part000.seenVisitorIds m)) + 1
      /\ Vid.prims (Part000.seenVisitorIds (fst (Part000.post_visit vid env m)))
         = prim_ids [visitor_id vid env] ∪ Vid.prims (Part000.seenVisitorIds m)).
    { rewrite part000_stats_after_visit, part000_seen_after_visit. simpl uniqueVisitors.
      destruct (Vid.truthy vid) eqn:Ht; simpl andb.
      - destruct (Vid.has (Part000.seenVisitorIds m) vid) eqn:Hh.
        + split; [exact Hu|]. split; [lia|].
          unfold visitor_id. rewrite Ht. destruct vid as [p|json pg]; [|discriminate].
          simpl in *. apply bool_decide_eq_true in Hh. set_solver.
        + unfold visitor_id. rewrite Ht. rewrite size_add_new.
          * rewrite Hu. simpl. rewrite round_exact by lia.
            split; [f_equal; lia|]. split; [lia|].
            destruct vid as [p|json pg]; simpl; set_solver.
          * destruct vid as [p|json pg]; [|exact I]. simpl in Hh.
            now apply bool_decide_eq_false in Hh.
      - unfold visitor_id. rewrite Ht. simpl in Hnew. rewrite size_add_new.
        + rewrite Hu. simpl. rewrite round_exact by lia.
          split; [f_equal; lia|]. split; [lia|]. simpl. set_solver.
        + apply negb_true_iff, bool_decide_eq_false in Hnew. exact Hnew. }
    destruct Hstep as (Hu' & Hsz & Hprims).
    apply IH; [exact Hu' | lia | now rewrite Hprims].
  - rewrite part000_run_cons. simpl. now apply IH.
Qed.

(** A visit in closed form, from a state with integer counters. *)
Lemma part000_visit (vid : Vid.Value) (env : Env) (t u : Z) (seen : Vid.Seen) :
  Part000.post_visit vid env
    {| Part000.stats := {| totalVisits := Js.Int t; uniqueVisitors := Js.Int u |};
       Part000.seenVisitorIds := seen |}
  = let known := Vid.truthy vid && Vid.has seen vid in
    let total := Double.round (t + 1) in
    let unique := if known then u else Double.round (u + 1) in
    ({| Part000.stats := {| totalVisits := Js.Int total; uniqueVisitors := Js.Int unique |};
        Part000.seenVisitorIds := if known then seen else Vid.add (visitor_id vid env) seen |},
     visit_ok (Vid.cookie_text (visitor_id vid env)) total unique (negb known)).
Proof.
  rewrite part000_post_visit. cbv zeta. unfold Vid.countVisit. simpl.
  destruct (Vid.truthy vid && Vid.has seen vid); reflexivity.
Qed.

(** ** Claims on the in-memory handlers *)

(** C1, at two requests carrying the same JSON cookie ([vid=j:[]], say).
    In memory the two calls count as two visitors: [cookie-parser] hands
    the handler a new array for each request, and a [Set] tells arrays apart
    by identity.  Each answer says [newVisitor: true] and sends the cookie
    back as it came.  The branch of the same handler that uses the database
    sends the text of the value to the table [visitors] and counts one
    visitor. *)
Theorem json_cookie_counted_twice (json pg : string) (env1 env2 : Env) :
  let vid := Vid.Object json pg in
  let calls := [Visit vid env1; Visit vid env2] in
  let answer := fun total unique : Z =>
    {| status := 200;
       headers := [];
       cookie := Some {| cookie_name := "vid";
                         cookie_value := "j:" ++ json;
                         httpOnly := false;
                         sameSite := "Lax";
                         maxAge := 31536000000 |};
       body := VisitJson true (Js.Int total) (Js.Int unique) true |} in
  visitor_ids calls = [vid; vid]
  /\ Part000.stats (Part000.run calls Part000.init)
     = {| totalVisits := Js.Int 2; uniqueVisitors := Js.Int 2 |}
  /\ part000_answers calls Part000.init = [answer 1 1; answer 2 2]
  /\ Index.stats (Index.run (List.map Index.Arrive calls) (Index.boot None))
     = {| totalVisits := Js.Int 2; uniqueVisitors := Js.Int 2 |}
  /\ (let resolved := fun env => {| randomUUID := randomUUID env; query := Resolved |} in
      let fresh_db := Some (Server.ensureTables Server.empty_db) in
      let s := fst (Index.handle (Visit vid (resolved env2))
                      (fst (Index.handle (Visit vid (resolved env1)) (Index.boot fresh_db)))) in
      Index.stats s = {| totalVisits := Js.Int 2; uniqueVisitors := Js.Int 1 |}
      /\ Index.pool s = Some {| Server.visit_stats := Some (2, 1);
                                Server.visitors := {[pg]} |}).
Proof.
  intros vid calls answer. split; [reflexivity|]. split; [reflexivity|].
  split; [reflexivity|]. split; [reflexivity|].
  cbv zeta. unfold Index.handle, Index.step, Index.post_visit, Index.answer. simpl.
  rewrite (bool_decide_eq_false_2 (pg ∈ ∅)) by set_solver. simpl.
  rewrite (bool_decide_eq_true_2 (pg ∈ {[pg]} ∪ ∅)) by set_solver. simpl.
  rewrite !Double_Number_pg_int8. split; [reflexivity|].
  do 2 f_equal. set_solver.
Qed.

Lemma has_add (p : Vid.Prim) (seen : Vid.Seen) :
  Vid.has (Vid.add (Vid.Primitive p) seen) (Vid.Primitive p) = true.
Proof.
  unfold Vid.has, Vid.add. cbn [Vid.prims].
  apply bool_decide_eq_true, elem_of_union_l, elem_of_singleton. reflexivity.
Qed.

(** C7, as stated, fails at the end of the range of integers a double
    holds: from [totalVisits = 2^53], two visits of the same visitor leave
    [totalVisits] at [2^53], not at [2^53 + 2]. *)
Lemma same_visitor_at_two_to_53_counterexample :
  let id := Vid.Primitive (Vid.Str "3b241101-e2bb-4255-8caf-4136c566a962") in
  let env := {| randomUUID := "9f1c2d3e-0a4b-4c5d-8e6f-7a8b9c0d1e2f"; query := Resolved |} in
  let t := 9007199254740992 in
  let m := {| Part000.stats := {| totalVisits := Js.Int t; uniqueVisitors := Js.Int 1 |};
              Part000.seenVisitorIds := Vid.add id Vid.empty |} in
  let m' := Part000.run [Visit id env; Visit id env] m in
  totalVisits (Part000.stats m') = Js.Int t
  /\ totalVisits (Part000.stats m') <> Js.Int (t + 2).
Proof. vm_compute. split; [reflexivity | discriminate]. Qed.

(** C7, amended.  From any in-memory state whose counters are integers
    that leave room for the two additions below [2^53], a visit followed
    by a visit whose cookie holds the same visitor id, a primitive value,
    adds exactly 2 to [totalVisits]; [uniqueVisitors] goes up by 1 when the
    first of the two is new and stays otherwise.  In [part_000] and in
    [index.js] without a pool. *)
Theorem same_visitor_twice
  (vid1 : Vid.Value) (env1 env2 : Env) (p : Vid.Prim) (t u : Z) (seen : Vid.Seen) :
  - 2 ^ 53 <= t <= 2 ^ 53 - 2 ->
  - 2 ^ 53 <= u <= 2 ^ 53 - 1 ->
  visitor_id vid1 env1 = Vid.Primitive p ->
  Vid.truthy (Vid.Primitive p) = true ->
  let m := {| Part000.stats := {| totalVisits := Js.Int t; uniqueVisitors := Js.Int u |};
              Part000.seenVisitorIds := seen |} in
  let calls := [Visit vid1 env1; Visit (Vid.Primitive p) env2] in
  let d := if Vid.truthy vid1 && Vid.has seen vid1 then 0 else 1 in
  Part000.stats (Part000.run calls m)
  = {| totalVisits := Js.Int (t + 2); uniqueVisitors := Js.Int (u + d) |}
  /\ Index.stats (Index.run (List.map Index.Arrive calls) (without_pool m))
     = {| totalVisits := Js.Int (t + 2); uniqueVisitors := Js.Int (u + d) |}.
Proof.
  intros Ht Hu Hid Hp m calls d.
  assert (Hm : Part000.stats (Part000.run calls m)
               = {| totalVisits := Js.Int (t + 2); uniqueVisitors := Js.Int (u + d) |}).
  { subst calls. rewrite !part000_run_cons. simpl Part000.run. simpl Part000.step.
    rewrite part000_stats_after_visit, part000_seen_after_visit, part000_stats_after_visit.
    rewrite Hp. simpl totalVisits. simpl uniqueVisitors. cbn [Part000.seenVisitorIds m].
    assert (Hknown : Vid.has (if Vid.truthy vid1 && Vid.has seen vid1
                              then seen else Vid.add (visitor_id vid1 env1) seen)
                       (Vid.Primitive p) = true).
    { destruct (Vid.truthy vid1) eqn:Ht1; simpl andb.
      - rewrite Hid. unfold visitor_id in Hid. rewrite Ht1 in Hid. subst vid1.
        destruct (Vid.has seen (Vid.Primitive p)) eqn:Hh; [exact Hh|].
        apply has_add.
      - rewrite Hid. apply has_add. }
    rewrite Hknown. simpl andb. cbv iota. subst d. simpl Double.plus.
    rewrite (round_exact (t + 1)) by lia. rewrite (round_exact (t + 1 + 1)) by lia.
    destruct (Vid.truthy vid1 && Vid.has seen vid1).
    - f_equal; f_equal; lia.
    - simpl. rewrite (round_exact (u + 1)) by lia. f_equal; f_equal; lia. }
  split; [exact Hm|].
  destruct (index_run_without_pool (List.map Index.Arrive calls) m) as [-> _].
  exact Hm.
Qed.

Lemma same_visitor_twice_witness :
  let p := Vid.Str "3b241101-e2bb-4255-8caf-4136c566a962" in
  let env := {| randomUUID := "9f1c2d3e-0a4b-4c5d-8e6f-7a8b9c0d1e2f"; query := Resolved |} in
  let m := {| Part000.stats := {| totalVisits := Js.Int 7; uniqueVisitors := Js.Int 4 |};
              Part000.seenVisitorIds := Vid.empty |} in
  (- 2 ^ 53 <= 7 <= 2 ^ 53 - 2)
  /\ (- 2 ^ 53 <= 4 <= 2 ^ 53 - 1)
  /\ visitor_id (Vid.Primitive p) env = Vid.Primitive p
  /\ Vid.truthy (Vid.Primitive p) = true
  /\ Part000.stats (Part000.run [Visit (Vid.Primitive p) env; Visit (Vid.Primitive p) env] m)
     = {| totalVisits := Js.Int (7 + 2); uniqueVisitors := Js.Int (4 + 1) |}.
Proof.
  intros p env m. split; [lia|]. split; [lia|]. split; [reflexivity|]. split; [reflexivity|].
  apply (same_visitor_twice (Vid.Primitive p) env env p 7 4 Vid.empty); [lia | lia | reflexivity | reflexivity].
Defined.

(** ** Further properties: the in-memory handlers on the values of JavaScript *)

(** X10.  In memory, from any state with integer counters, a visit is
    answered [newVisitor: false] exactly when the cookie holds a truthy
    primitive value that is in [seenVisitorIds]; an array or object parsed
    from a JSON cookie is always new.  [uniqueVisitors] goes up exactly when
    the answer says [newVisitor: true], and then the id enters the set;
    [totalVisits] goes up in both cases.  The additions are those of doubles:
    exact as long as the result is at most [2^53]. *)
Theorem in_memory_new_visitor_iff_counted
  (vid : Vid.Value) (env : Env) (t u : Z) (seen : Vid.Seen) :
  let m := {| Part000.stats := {| totalVisits := Js.Int t; uniqueVisitors := Js.Int u |};
              Part000.seenVisitorIds := seen |} in
  exists newVisitor : bool,
    let total := Js.Int (Double.round (t + 1)) in
    let unique := Js.Int (if newVisitor then Double.round (u + 1) else u) in
    Part000.post_visit vid env m
    = ({| Part000.stats := {| totalVisits := total; uniqueVisitors := unique |};
          Part000.seenVisitorIds :=
            if newVisitor then Vid.add (visitor_id vid env) seen else seen |},
       {| status := 200;
          headers := [];
          cookie := Some {| cookie_name := "vid";
                            cookie_value := Vid.cookie_text (visitor_id vid env);
                            httpOnly := false;
                            sameSite := "Lax";
                            maxAge := 31536000000 |};
          body := VisitJson true total unique newVisitor |})
    /\ (newVisitor = false
        <-> exists p, vid = Vid.Primitive p /\ Vid.truthy vid = true /\ p ∈ Vid.prims seen)
    /\ (Z.abs (t + 1) <= 2 ^ 53 -> Double.round (t + 1) = t + 1)
    /\ (Z.abs (u + 1) <= 2 ^ 53 -> Double.round (u + 1) = u + 1).
Proof.
  intros m. exists (negb (Vid.truthy vid && Vid.has seen vid)). cbv zeta.
  split; [|split; [|split; apply round_exact]].
  - rewrite part000_post_visit. cbv zeta. unfold Vid.countVisit. subst m. simpl.
    destruct (Vid.truthy vid && Vid.has seen vid); reflexivity.
  - rewrite negb_false_iff, andb_true_iff. split.
    + intros [Ht Hh]. destruct vid as [p|json pg]; [|discriminate].
      exists p. split; [reflexivity|]. split; [exact Ht|].
      now apply bool_decide_eq_true in Hh.
    + intros (p & -> & Ht & Hin). split; [exact Ht|]. now apply bool_decide_eq_true.
Qed.

Lemma prim_ids_in (p : Vid.Prim) (ids : list Vid.Value) :
  In (Vid.Primitive p) ids -> p ∈ prim_ids ids.
Proof.
  induction ids as [|[q|json pg] ids IH]; simpl; [intros [] | |].
  - intros [[= ->]|H]; [set_solver | apply IH in H; set_solver].
  - intros [[=]|H]. now apply IH.
Qed.

(** X16.  In memory a visitor that was counted stays known: after any run
    from the initial state, a request whose cookie holds a truthy primitive
    value that was the visitor id of one of the calls is answered
    [newVisitor: false]; [uniqueVisitors] and [seenVisitorIds] are unchanged
    and 1 is added to [totalVisits]. *)
Theorem known_visitor_stays_known (calls : list Call) (p : Vid.Prim) (env : Env) :
  Vid.truthy (Vid.Primitive p) = true ->
  In (Vid.Primitive p) (visitor_ids calls) ->
  let m := Part000.run calls Part000.init in
  let total := Double.plus (totalVisits (Part000.stats m)) (Js.Int 1) in
  let unique := uniqueVisitors (Part000.stats m) in
  Part000.post_visit (Vid.Primitive p) env m
  = ({| Part000.stats := {| totalVisits := total; uniqueVisitors := unique |};
        Part000.seenVisitorIds := Part000.seenVisitorIds m |},
     {| status := 200;
        headers := [];
        cookie := Some {| cookie_name := "vid";
                          cookie_value := Vid.cookie_text (Vid.Primitive p);
                          httpOnly := false;
                          sameSite := "Lax";
                          maxAge := 31536000000 |};
        body := VisitJson true total unique false |}).
Proof.
  intros Ht Hin m total unique.
  assert (Hh : Vid.has (Part000.seenVisitorIds m) (Vid.Primitive p) = true).
  { subst m. rewrite part000_run_seen. unfold Vid.has, seen_after. cbn [Vid.prims].
    apply bool_decide_eq_true, elem_of_union_l, prim_ids_in, Hin. }
  rewrite part000_post_visit. cbv zeta. rewrite Ht, Hh. simpl andb. simpl negb.
  unfold Vid.countVisit, visitor_id. rewrite Ht. reflexivity.
Qed.

Lemma known_visitor_stays_known_witness :
  let p := Vid.Number "42" in
  let env := {| randomUUID := "0e6f4c1a-7b2d-4e3f-a5c6-9d8e7f6a5b4c"; query := Resolved |} in
  let calls := [Visit (Vid.Primitive Vid.Undefined) env; Visit (Vid.Primitive p) env; Read env] in
  Vid.truthy (Vid.Primitive p) = true
  /\ In (Vid.Primitive p) (visitor_ids calls)
  /\ Part000.post_visit (Vid.Primitive p) env (Part000.run calls Part000.init)
     = ({| Part000.stats := {| totalVisits := Js.Int 3; uniqueVisitors := Js.Int 2 |};
           Part000.seenVisitorIds := Part000.seenVisitorIds (Part000.run calls Part000.init) |},
        {| status := 200;
           headers := [];
           cookie := Some {| cookie_name := "vid";
                             cookie_value := "42";
                             httpOnly := false;
                             sameSite := "Lax";
                             maxAge := 31536000000 |};
           body := VisitJson true (Js.Int 3) (Js.Int 2) false |}).
Proof.
  intros p env calls. split; [reflexivity|]. split; [right; left; reflexivity|].
  apply (known_visitor_stays_known calls p env); [reflexivity | right; left; reflexivity].
Defined.

(** X22.  What of C1 holds in memory.  From the initial state, for up to
    [2^53] calls of [/api/visit] and ids from [crypto.randomUUID()] that are
    new, [totalVisits] is the number of calls, and [uniqueVisitors] is the
    number of distinct primitive visitor ids plus the number of calls that
    carried an array or object; [seenVisitorIds] holds exactly these.  In
    [part_000] and in [index.js] without a pool. *)
Theorem visit_counts_in_memory (calls : list Call) :
  let ids := visitor_ids calls in
  Z.of_nat (length ids) <= 2 ^ 53 ->
  fresh ∅ calls = true ->
  let total := Js.Int (Z.of_nat (length ids)) in
  let unique := Js.Int (Z.of_nat (size (prim_ids ids) + length (object_ids ids))) in
  let m := Part000.run calls Part000.init in
  Part000.stats m = {| totalVisits := total; uniqueVisitors := unique |}
  /\ Part000.seenVisitorIds m = {| Vid.prims := prim_ids ids; Vid.objects := object_ids ids |}
  /\ Index.stats (Index.run (List.map Index.Arrive calls) (Index.boot None))
     = {| totalVisits := total; uniqueVisitors := unique |}.
Proof.
  intros ids Hb Hf total unique m.
  assert (Hseen : Part000.seenVisitorIds m
                  = {| Vid.prims := prim_ids ids; Vid.objects := object_ids ids |}).
  { subst m. rewrite part000_run_seen. apply seen_eq; simpl; [set_solver | reflexivity]. }
  assert (Hstats : Part000.stats m = {| totalVisits := total; uniqueVisitors := unique |}).
  { pose proof (part000_run_total calls Part000.init 0 eq_refl ltac:(lia) Hb) as Ht.
    pose proof (part000_run_unique calls Part000.init eq_refl Hb Hf) as Hu.
    fold m in Ht, Hu. rewrite Hseen in Hu. unfold Vid.size in Hu. simpl in Hu.
    destruct (Part000.stats m) as [t u]. simpl in Ht, Hu. now subst t u. }
  split; [exact Hstats|]. split; [exact Hseen|].
  change (Index.boot None) with (without_pool Part000.init).
  destruct (index_run_without_pool (List.map Index.Arrive calls) Part000.init) as [-> _].
  replace (arrivals (List.map Index.Arrive calls)) with calls; [exact Hstats|].
  clear. induction calls as [|c calls IH]; [reflexivity|]. simpl. now rewrite <- IH.
Qed.

Lemma visit_counts_in_memory_witness :
  let env := fun uuid => {| randomUUID := uuid; query := Resolved |} in
  let calls := [ Visit (Vid.Primitive Vid.Undefined) (env "3b241101-e2bb-4255-8caf-4136c566a962");
                 Read (env "c0a8012e-5b1f-4d7a-9c3e-2f4b6d8e0a1c");
                 Visit (Vid.Primitive (Vid.Str "3b241101-e2bb-4255-8caf-4136c566a962"))
                   (env "9f1c2d3e-0a4b-4c5d-8e6f-7a8b9c0d1e2f");
                 Visit (Vid.Object "[]" "{}") (env "7d444840-9dc0-41d1-b245-5ffdce74fad2");
                 Visit (Vid.Object "[]" "{}") (env "5e0c8391-6a2d-4f7b-b1c4-d9e8f7a6b5c4") ] in
  let ids := visitor_ids calls in
  Z.of_nat (length ids) <= 2 ^ 53
  /\ fresh ∅ calls = true
  /\ Part000.stats (Part000.run calls Part000.init)
     = {| totalVisits := Js.Int (Z.of_nat (length ids));
          uniqueVisitors := Js.Int (Z.of_nat (size (prim_ids ids) + length (object_ids ids))) |}
  /\ Part000.stats (Part000.run calls Part000.init)
     = {| totalVisits := Js.Int 4; uniqueVisitors := Js.Int 3 |}.
Proof.
  intros env calls ids.
  assert (Hb : Z.of_nat (length ids) <= 2 ^ 53) by (vm_compute; discriminate).
  assert (Hf : fresh ∅ calls = true) by (vm_compute; reflexivity).
  split; [exact Hb|]. split; [exact Hf|].
  split; [apply (visit_counts_in_memory calls Hb Hf) | vm_compute; reflexivity].
Defined.

(** X23.  Without a pool [index.js] is [part_000], whatever happens: the
    states agree after every sequence of events and the answers are the
    same; the insertion of [ensureTables] and the settling of queries are
    events that never do anything there. *)
Theorem index_without_pool_is_part_000 (evs : list Index.Event) :
  Index.run evs (Index.boot None) = without_pool (Part000.run (arrivals evs) Part000.init)
  /\ answers evs (Index.boot None) = part000_answers (arrivals evs) Part000.init.
Proof. exact (index_run_without_pool evs Part000.init). Qed.

Lemma answer_cookie (vid : Vid.Value) (env : Env) (m : Part000.State) :
  cookie_value <$> cookie (snd (Part000.post_visit vid env m))
  = Some (Vid.cookie_text (visitor_id vid env)).
Proof. now rewrite part000_post_visit. Qed.

(** X24.  The visitor id by the kind of value the cookie holds, with the
    text the answer puts in the cookie and the key the statement sends to
    the table [visitors].  A non-empty string, a number other than [0] and
    [NaN], and [true] are kept: the cookie holds the text of the value, and
    so does the key.  An array or object is kept: the cookie holds [j:] and
    its JSON, the key what the driver makes of it.  Everything else gives
    way to the id from [crypto.randomUUID()]. *)
Theorem cookie_and_key_by_kind (env : Env) (m : Part000.State) :
  let sent := fun vid => cookie_value <$> cookie (snd (Part000.post_visit vid env m)) in
  let key := fun vid => visitor_key vid env in
  (forall s, s <> "" ->
     sent (Vid.Primitive (Vid.Str s)) = Some s /\ key (Vid.Primitive (Vid.Str s)) = s)
  /\ (forall text, text <> "0" -> text <> "NaN" ->
        sent (Vid.Primitive (Vid.Number text)) = Some text
        /\ key (Vid.Primitive (Vid.Number text)) = text)
  /\ (sent (Vid.Primitive (Vid.Bool true)) = Some "true"
      /\ key (Vid.Primitive (Vid.Bool true)) = "true")
  /\ (forall json pg,
        sent (Vid.Object json pg) = Some ("j:" ++ json) /\ key (Vid.Object json pg) = pg)
  /\ (forall vid,
        In vid [ Vid.Primitive Vid.Undefined; Vid.Primitive Vid.Null;
                 Vid.Primitive (Vid.Bool false); Vid.Primitive (Vid.Number "0");
                 Vid.Primitive (Vid.Number "NaN"); Vid.Primitive (Vid.Str "") ] ->
        sent vid = Some (randomUUID env) /\ key vid = randomUUID env).
Proof.
  intros sent key. subst sent key. cbv beta.
  split; [|split; [|split; [|split]]].
  - intros s Hs. rewrite answer_cookie. unfold visitor_key, visitor_id. simpl Vid.truthy.
    destruct (String.eqb_spec s ""); [congruence | now split].
  - intros text H0 Hn. rewrite answer_cookie. unfold visitor_key, visitor_id. simpl Vid.truthy.
    destruct (String.eqb_spec text "0"); [congruence|].
    destruct (String.eqb_spec text "NaN"); [congruence | now split].
  - rewrite answer_cookie. now split.
  - intros json pg. rewrite answer_cookie. now split.
  - intros vid Hin. rewrite answer_cookie. simpl in Hin.
    destruct Hin as [<-|[<-|[<-|[<-|[<-|[<-|[]]]]]]]; now split.
Qed.

(** ** With a database: a call handled to its end *)

Lemma pending_last (p : list Index.Query) (q : Index.Query) :
  (p ++ [q])%list !! length p = Some q /\ delete (length p) (p ++ [q])%list = p.
Proof.
  split.
  - now apply list_lookup_middle.
  - rewrite delete_middle. apply app_nil_r.
Qed.

(** The statement of a visit, as the database sees it. *)
Lemma index_visit_arrives (vid : Vid.Value) (env : Env) (s : Index.State) (db : Server.Db) :
  Index.pool s = Some db ->
  Index.step (Index.Arrive (Visit vid env)) s
  = let id := visitor_id vid env in
    let isNew := negb (Vid.truthy vid && Vid.has (Index.seenVisitorIds s) vid) in
    let r := match Vid.pg_text id, query env with
             | Some key, Resolved =>
                 (fst (Server.visit_query key db), Index.Rows (snd (Server.visit_query key db)))
             | Some key, Rejected true => (fst (Server.visit_query key db), Index.Failed)
             | _, _ => (db, Index.Failed)
             end in
    ({| Index.stats := Index.stats s;
        Index.seenVisitorIds := Index.seenVisitorIds s;
        Index.pool := Some (fst r);
        Index.pending := Index.pending s ++ [{| Index.waiting := Index.VisitWaits id isNew;
                                                Index.settled := snd r |}] |},
     None).
Proof.
  intros Hp. unfold Index.step, Index.post_visit. rewrite resolveVisitor_value, Hp. cbv zeta.
  destruct (Vid.pg_text (visitor_id vid env)) as [key|]; [|reflexivity].
  destruct (query env) as [|[|]]; try reflexivity.
  now destruct (Server.visit_query key db).
Qed.

Lemma index_read_arrives (env : Env) (s : Index.State) (db : Server.Db) :
  Index.pool s = Some db ->
  Index.step (Index.Arrive (Read env)) s
  = ({| Index.stats := Index.stats s;
        Index.seenVisitorIds := Index.seenVisitorIds s;
        Index.pool := Some db;
        Index.pending :=
          Index.pending s ++ [{| Index.waiting := Index.StatsWaits;
                                 Index.settled := match query env with
                                                  | Resolved => Index.Rows (Server.stats_query db)
                                                  | Rejected _ => Index.Failed
                                                  end |}] |},
     None).
Proof. intros Hp. unfold Index.step, Index.get_stats. now rewrite Hp. Qed.

Lemma state_eta (s : Index.State) :
  {| Index.stats := Index.stats s;
     Index.seenVisitorIds := Index.seenVisitorIds s;
     Index.pool := Index.pool s;
     Index.pending := Index.pending s |} = s.
Proof. now destruct s. Qed.

(** An answered visit while the row exists, handled to its end. *)
Lemma handle_visit_resolved
  (vid : Vid.Value) (env : Env) (s : Index.State) (db : Server.Db) (key : string)
  (total unique : Z) :
  Index.pool s = Some db ->
  Server.visit_stats db = Some (total, unique) ->
  query env = Resolved ->
  Vid.pg_text (visitor_id vid env) = Some key ->
  Index.handle (Visit vid env) s
  = let ins := if bool_decide (key ∈ Server.visitors db) then 0 else 1 in
    ({| Index.stats := {| totalVisits := Js.Int (Double.round (total + 1));
                          uniqueVisitors := Js.Int (Double.round (unique + ins)) |};
        Index.seenVisitorIds := Index.seenVisitorIds s;
        Index.pool := Some {| Server.visit_stats := Some (total + 1, unique + ins);
                              Server.visitors := {[key]} ∪ Server.visitors db |};
        Index.pending := Index.pending s |},
     Some (visit_ok (Vid.cookie_text (visitor_id vid env))
             (Double.round (total + 1)) (Double.round (unique + ins)) false)).
Proof.
  intros Hp Hrow Hq Hkey. unfold Index.handle.
  rewrite (index_visit_arrives vid env s db Hp). cbv zeta. rewrite Hkey, Hq.
  unfold Index.step, Index.answer. cbn [Index.pending fst snd].
  destruct (pending_last (Index.pending s)
              {| Index.waiting :=
                   Index.VisitWaits (visitor_id vid env)
                     (negb (Vid.truthy vid && Vid.has (Index.seenVisitorIds s) vid));
                 Index.settled := Index.Rows (snd (Server.visit_query key db)) |}) as [-> ->].
  cbn [Index.waiting Index.settled].
  unfold Server.visit_query. rewrite Hrow. cbn [fst snd].
  unfold Index.visit_answer. cbn [Server.new_visitor Server.total_visits Server.unique_visitors].
  rewrite pg_int8_not_strict_eq, !Double_Number_pg_int8. reflexivity.
Qed.

(** A read handled to its end. *)
Lemma handle_read (env : Env) (s : Index.State) (db : Server.Db) :
  Index.pool s = Some db ->
  Index.handle (Read env) s
  = match query env with
    | Resolved =>
        let counters := match Server.visit_stats db with
                        | Some (total, unique) => (Double.round total, Double.round unique)
                        | None => (0, 0)
                        end in
        ({| Index.stats := {| totalVisits := Js.Int (fst counters);
                              uniqueVisitors := Js.Int (snd counters) |};
            Index.seenVisitorIds := Index.seenVisitorIds s;
            Index.pool := Some db;
            Index.pending := Index.pending s |},
         Some (stats_ok (fst counters) (snd counters)))
    | Rejected _ => (s, Some (failed_with "stats_read_failed"))
    end.
Proof.
  intros Hp. unfold Index.handle. rewrite (index_read_arrives env s db Hp).
  unfold Index.step, Index.answer. cbn [Index.pending fst snd].
  destruct (pending_last (Index.pending s)
              {| Index.waiting := Index.StatsWaits;
                 Index.settled := match query env with
                                  | Resolved => Index.Rows (Server.stats_query db)
                                  | Rejected _ => Index.Failed
                                  end |}) as [-> ->].
  cbn [Index.waiting Index.settled].
  destruct (query env) as [|a].
  - unfold Index.stats_answer, Server.stats_query.
    destruct (Server.visit_stats db) as [[total unique]|];
      cbn [Server.total_visits Server.unique_visitors Index.stats Index.seenVisitorIds
           Index.pool Index.pending totalVisits uniqueVisitors fst snd].
    + rewrite !Double_Number_pg_int8. reflexivity.
    + reflexivity.
  - unfold Index.stats_answer.
    cbn [Index.stats Index.seenVisitorIds Index.pool Index.pending].
    rewrite <- Hp, state_eta. reflexivity.
Qed.

Lemma visitor_key_text (vid : Vid.Value) (env : Env) :
  Vid.pg_text (visitor_id vid env) = Some (visitor_key vid env).
Proof.
  unfold visitor_key, visitor_id. destruct (Vid.truthy vid) eqn:Ht; [|reflexivity].
  destruct vid as [[| |b|text|s]|json pg]; try discriminate; reflexivity.
Qed.

(** ** Claims on the handlers with a database *)

(** C5, as stated, fails while the server starts: [ensureTables()] is not
    awaited, so a first visit can arrive after its two [CREATE TABLE]
    statements and before its [INSERT], when the row of [visit_stats] does
    not exist yet.  It is answered with the counters at 0; the visit that
    sends the cookie back, after the row was inserted, is answered
    [totalVisits: 1], [uniqueVisitors: 0].  Both queries are answered by the
    database. *)
Lemma return_visit_while_starting_counterexample :
  let uuid := "3b241101-e2bb-4255-8caf-4136c566a962" in
  let env1 := {| randomUUID := uuid; query := Resolved |} in
  let env2 := {| randomUUID := "9f1c2d3e-0a4b-4c5d-8e6f-7a8b9c0d1e2f"; query := Resolved |} in
  let evs := [ Index.Arrive (Visit (Vid.Primitive Vid.Undefined) env1);
               Index.Answer 0;
               Index.Ensure;
               Index.Arrive (Visit (Vid.Primitive (Vid.Str uuid)) env2);
               Index.Answer 0 ] in
  answers evs (Index.boot (Some Server.empty_db))
  = [ visit_ok uuid 0 0 true; visit_ok uuid 1 0 false ]
  /\ visit_ok uuid 1 0 false <> visit_ok uuid 2 1 false.
Proof. split; [vm_compute; reflexivity | discriminate]. Qed.

(** C5, amended.  A first visit from the initial state, whose cookie is
    missing or reaches the handler as a string, is answered with the
    counters at 1 and sets the cookie to the visitor id; a second request
    whose cookie reaches the handler as that string is answered
    [newVisitor: false], [totalVisits: 2], [uniqueVisitors: 1].  This holds in
    [part_000], in [index.js] without a pool, and with a database as soon
    as the row of [visit_stats] exists, when both queries are answered and
    each request is handled to its end. *)
Theorem return_visit_with_issued_cookie (vid1 : Vid.Value) (env1 env2 : Env) :
  plain_cookie vid1 = true ->
  Vid.cookie_text (visitor_id vid1 env1) <> "" ->
  let issued := Vid.cookie_text (visitor_id vid1 env1) in
  let vid2 := Vid.Primitive (Vid.Str issued) in
  (let first := Part000.post_visit vid1 env1 Part000.init in
   snd first = visit_ok issued 1 1 true
   /\ snd (Part000.post_visit vid2 env2 (fst first)) = visit_ok issued 2 1 false)
  /\ (let first := Index.handle (Visit vid1 env1) (Index.boot None) in
      snd first = Some (visit_ok issued 1 1 true)
      /\ snd (Index.handle (Visit vid2 env2) (fst first)) = Some (visit_ok issued 2 1 false))
  /\ (query env1 = Resolved ->
      query env2 = Resolved ->
      let first := Index.handle (Visit vid1 env1)
                     (Index.boot (Some (Server.ensureTables Server.empty_db))) in
      snd first = Some (visit_ok issued 1 1 false)
      /\ snd (Index.handle (Visit vid2 env2) (fst first)) = Some (visit_ok issued 2 1 false)).
Proof.
  intros Hplain Hne issued vid2.
  assert (Hid : visitor_id vid1 env1 = Vid.Primitive (Vid.Str issued)).
  { subst issued. unfold visitor_id. destruct (Vid.truthy vid1) eqn:Ht1; [|reflexivity].
    destruct vid1 as [[| |b|text|s]|json pg]; try discriminate; reflexivity. }
  assert (Hne' : issued <> "") by exact Hne.
  clearbody issued. clear Hne.
  assert (Ht2 : Vid.truthy vid2 = true).
  { unfold vid2. simpl. destruct issued; [congruence | reflexivity]. }
  assert (Hid2 : visitor_id vid2 env2 = vid2) by (unfold visitor_id; now rewrite Ht2).
  assert (Hnew : Vid.truthy vid1 && Vid.has Vid.empty vid1 = false).
  { destruct vid1 as [p|json pg]; [|apply andb_false_r]. unfold Vid.has, Vid.empty. simpl Vid.prims.
    rewrite (bool_decide_eq_false_2 (p ∈ ∅)) by set_solver. apply andb_false_r. }
  assert (Hmem : let first := Part000.post_visit vid1 env1 Part000.init in
                 snd first = visit_ok issued 1 1 true
                 /\ snd (Part000.post_visit vid2 env2 (fst first)) = visit_ok issued 2 1 false).
  { cbv zeta. unfold Part000.init. rewrite part000_visit. cbv zeta. cbn [fst snd].
    rewrite Hnew, Hid. cbn [negb Vid.cookie_text].
    split; [reflexivity|].
    rewrite part000_visit. cbv zeta. cbn [snd]. rewrite Hid2, Ht2. subst vid2.
    rewrite has_add. reflexivity. }
  split; [exact Hmem|]. split.
  - cbv zeta. unfold Index.handle.
    change (Index.boot None) with (without_pool Part000.init).
    rewrite index_step_without_pool. cbn [fst snd].
    rewrite index_step_without_pool. cbn [fst snd].
    destruct Hmem as [H1 H2]. cbn [Part000.step]. now rewrite H1, H2.
  - intros Hq1 Hq2. cbv zeta.
    rewrite (handle_visit_resolved vid1 env1
               (Index.boot (Some (Server.ensureTables Server.empty_db)))
               (Server.ensureTables Server.empty_db)
               issued 0 0 eq_refl eq_refl Hq1) by (now rewrite Hid).
    cbv zeta. cbn [fst snd]. rewrite Hid. cbn [Vid.cookie_text Server.visitors
      Server.ensureTables Server.empty_db].
    rewrite (bool_decide_eq_false_2 (issued ∈ ∅)) by set_solver.
    split; [reflexivity|].
    erewrite handle_visit_resolved;
      [|reflexivity|reflexivity|exact Hq2|rewrite Hid2; reflexivity].
    cbv zeta. cbn [snd Server.visitors]. rewrite Hid2.
    rewrite bool_decide_eq_true_2 by set_solver. reflexivity.
Qed.

Lemma return_visit_with_issued_cookie_witness :
  let uuid := "3b241101-e2bb-4255-8caf-4136c566a962" in
  let vid1 := Vid.Primitive Vid.Undefined in
  let env1 := {| randomUUID := uuid; query := Resolved |} in
  let env2 := {| randomUUID := "9f1c2d3e-0a4b-4c5d-8e6f-7a8b9c0d1e2f"; query := Resolved |} in
  plain_cookie vid1 = true
  /\ Vid.cookie_text (visitor_id vid1 env1) <> ""
  /\ (let first := Part000.post_visit vid1 env1 Part000.init in
      snd first = visit_ok uuid 1 1 true
      /\ snd (Part000.post_visit (Vid.Primitive (Vid.Str uuid)) env2 (fst first))
         = visit_ok uuid 2 1 false).
Proof.
  intros uuid vid1 env1 env2. split; [reflexivity|]. split; [discriminate|].
  apply (return_visit_with_issued_cookie vid1 env1 env2); [reflexivity | discriminate].
Defined.

(** ** Further properties: the handlers with a database *)

(** X11.  With a database whose row exists, an answered visit that is
    handled to its end always says [newVisitor: false]; it stores
    [total_visits + 1], and [unique_visitors] plus one exactly when the key
    of the visitor was not in the table [visitors], to which the key is
    added, and reports both as doubles. *)
Theorem durable_answer_never_reports_new
  (vid : Vid.Value) (uuid : string) (st : Stats) (seen : Vid.Seen)
  (ids : gset string) (waiting : list Index.Query) (total unique : Z) :
  let db := {| Server.visit_stats := Some (total, unique); Server.visitors := ids |} in
  let s := {| Index.stats := st;
              Index.seenVisitorIds := seen;
              Index.pool := Some db;
              Index.pending := waiting |} in
  let env := {| randomUUID := uuid; query := Resolved |} in
  let key := visitor_key vid env in
  let total' := total + 1 in
  let unique' := unique + if bool_decide (key ∈ ids) then 0 else 1 in
  Index.handle (Visit vid env) s
  = ({| Index.stats := {| totalVisits := Js.Int (Double.round total');
                          uniqueVisitors := Js.Int (Double.round unique') |};
        Index.seenVisitorIds := seen;
        Index.pool := Some {| Server.visit_stats := Some (total', unique');
                              Server.visitors := {[key]} ∪ ids |};
        Index.pending := waiting |},
     Some {| status := 200;
             headers := [];
             cookie := Some {| cookie_name := "vid";
                               cookie_value := Vid.cookie_text (visitor_id vid env);
                               httpOnly := false;
                               sameSite := "Lax";
                               maxAge := 31536000000 |};
             body := VisitJson true (Js.Int (Double.round total'))
                       (Js.Int (Double.round unique')) false |}).
Proof.
  intros db s env key total' unique'.
  exact (handle_visit_resolved vid env s db key total unique eq_refl eq_refl eq_refl
           (visitor_key_text vid env)).
Qed.

(** X17.  With a database, an answered read that is handled to its end
    reports the stored counters as doubles (the nearest double of each
    [bigint]), and [0, 0] when the row is missing; it copies them into
    [stats] and leaves the database and [seenVisitorIds] as they are.  A
    rejected read is answered 500 with [stats_read_failed] and changes
    nothing at all. *)
Theorem read_reports_stored_counters
  (st : Stats) (seen : Vid.Seen) (db : Server.Db) (waiting : list Index.Query)
  (uuid : string) (a : bool) :
  let s := {| Index.stats := st;
              Index.seenVisitorIds := seen;
              Index.pool := Some db;
              Index.pending := waiting |} in
  let counters := match Server.visit_stats db with
                  | Some (total, unique) =>
                      {| totalVisits := Js.Int (Double.round total);
                         uniqueVisitors := Js.Int (Double.round unique) |}
                  | None => {| totalVisits := Js.Int 0; uniqueVisitors := Js.Int 0 |}
                  end in
  Index.handle (Read {| randomUUID := uuid; query := Resolved |}) s
  = ({| Index.stats := counters;
        Index.seenVisitorIds := seen;
        Index.pool := Some db;
        Index.pending := waiting |},
     Some {| status := 200;
             headers := [];
             cookie := None;
             body := StatsJson (totalVisits counters) (uniqueVisitors counters) |})
  /\ Index.handle (Read {| randomUUID := uuid; query := Rejected a |}) s
     = (s, Some {| status := 500;
                   headers := [];
                   cookie := None;
                   body := ErrorJson false "stats_read_failed" |}).
Proof.
  intros s counters. split.
  - rewrite (handle_read _ s db eq_refl). subst counters. simpl.
    now destruct (Server.visit_stats db) as [[total unique]|].
  - now rewrite (handle_read _ s db eq_refl).
Qed.

(** X8.  A restart keeps what is in the database and nothing else: [stats]
    is back at zero, no id is known and the queries in flight are
    forgotten; the database is what it was, and the first answered read
    reports the stored counters again, as doubles.  Without a database the
    server is back in its initial state. *)
Theorem restart_keeps_only_the_database
  (st : Stats) (seen : Vid.Seen) (db : Server.Db) (waiting : list Index.Query)
  (uuid : string) :
  let s := {| Index.stats := st;
              Index.seenVisitorIds := seen;
              Index.pool := Some db;
              Index.pending := waiting |} in
  Index.stats (reload s) = {| totalVisits := Js.Int 0; uniqueVisitors := Js.Int 0 |}
  /\ Index.seenVisitorIds (reload s) = Vid.empty
  /\ Index.pending (reload s) = []
  /\ Index.pool (reload s) = Some db
  /\ snd (Index.handle (Read {| randomUUID := uuid; query := Resolved |}) (reload s))
     = Some {| status := 200;
               headers := [];
               cookie := None;
               body := match Server.visit_stats db with
                       | Some (total, unique) =>
                           StatsJson (Js.Int (Double.round total)) (Js.Int (Double.round unique))
                       | None => StatsJson (Js.Int 0) (Js.Int 0)
                       end |}
  /\ reload {| Index.stats := st;
               Index.seenVisitorIds := seen;
               Index.pool := None;
               Index.pending := waiting |}
     = Index.boot None.
Proof.
  intros s. repeat (split; [reflexivity|]). split; [|reflexivity].
  rewrite (handle_read _ (reload s) db eq_refl). simpl.
  now destruct (Server.visit_stats db) as [[total unique]|].
Qed.

(** X21.  With a database whose row exists, two answered visits with the
    same key, handled one after the other, add exactly 2 to the stored
    [total_visits], and 1 to the stored [unique_visitors] if the key was not
    in the table [visitors] and 0 otherwise; [stats] ends as the doubles of
    the stored counters, which the second answer reports. *)
Theorem durable_two_visits_same_id
  (vid1 vid2 : Vid.Value) (env1 env2 : Env) (s : Index.State) (db : Server.Db)
  (total unique : Z) :
  Index.pool s = Some db ->
  Server.visit_stats db = Some (total, unique) ->
  query env1 = Resolved ->
  query env2 = Resolved ->
  visitor_key vid2 env2 = visitor_key vid1 env1 ->
  let first := Index.handle (Visit vid1 env1) s in
  let second := Index.handle (Visit vid2 env2) (fst first) in
  let total' := total + 2 in
  let unique' := unique + if bool_decide (visitor_key vid1 env1 ∈ Server.visitors db)
                          then 0 else 1 in
  stored_counters (fst second) = Some (total', unique')
  /\ Index.stats (fst second) = {| totalVisits := Js.Int (Double.round total');
                                   uniqueVisitors := Js.Int (Double.round unique') |}
  /\ snd second = Some {| status := 200;
                          headers := [];
                          cookie := Some {| cookie_name := "vid";
                                            cookie_value := Vid.cookie_text (visitor_id vid2 env2);
                                            httpOnly := false;
                                            sameSite := "Lax";
                                            maxAge := 31536000000 |};
                          body := VisitJson true (Js.Int (Double.round total'))
                                    (Js.Int (Double.round unique')) false |}.
Proof.
  intros Hp Hrow Hq1 Hq2 Hkey first second total' unique'. subst second first.
  rewrite (handle_visit_resolved vid1 env1 s db _ total unique Hp Hrow Hq1
             (visitor_key_text vid1 env1)).
  cbv zeta. cbn [fst].
  erewrite handle_visit_resolved;
    [|reflexivity|reflexivity|exact Hq2|apply visitor_key_text].
  cbv zeta. cbn [fst snd Server.visitors]. rewrite Hkey.
  rewrite (bool_decide_eq_true_2 (visitor_key vid1 env1 ∈ {[visitor_key vid1 env1]} ∪ _))
    by set_solver.
  subst total' unique'. unfold stored_counters. cbn [Index.pool Index.stats Server.visit_stats].
  replace (total + 1 + 1) with (total + 2) by lia. rewrite Z.add_0_r.
  repeat split.
Qed.

Lemma durable_two_visits_same_id_witness :
  let uuid := "3b241101-e2bb-4255-8caf-4136c566a962" in
  let vid := Vid.Primitive (Vid.Str uuid) in
  let env := {| randomUUID := "0e6f4c1a-7b2d-4e3f-a5c6-9d8e7f6a5b4c"; query := Resolved |} in
  let db := Server.ensureTables Server.empty_db in
  let s := Index.boot (Some db) in
  Index.pool s = Some db
  /\ Server.visit_stats db = Some (0, 0)
  /\ query env = Resolved
  /\ visitor_key vid env = visitor_key vid env
  /\ (let first := Index.handle (Visit vid env) s in
      let second := Index.handle (Visit vid env) (fst first) in
      let total' := 0 + 2 in
      let unique' := 0 + if bool_decide (visitor_key vid env ∈ Server.visitors db)
                         then 0 else 1 in
      stored_counters (fst second) = Some (total', unique')
      /\ Index.stats (fst second) = {| totalVisits := Js.Int (Double.round total');
                                       uniqueVisitors := Js.Int (Double.round unique') |}
      /\ snd second = Some {| status := 200;
                              headers := [];
                              cookie := Some {| cookie_name := "vid";
                                                cookie_value := Vid.cookie_text (visitor_id vid env);
                                                httpOnly := false;
                                                sameSite := "Lax";
                                                maxAge := 31536000000 |};
                              body := VisitJson true (Js.Int (Double.round total'))
                                        (Js.Int (Double.round unique')) false |}).
Proof.
  intros uuid vid env db s. split; [reflexivity|]. split; [reflexivity|].
  split; [reflexivity|]. split; [reflexivity|].
  apply (durable_two_visits_same_id vid vid env env s db 0 0); reflexivity.
Defined.

Lemma answer_keeps_pool (i : nat) (s : Index.State) :
  Index.pool (fst (Index.answer i s)) = Index.pool s
  /\ Index.seenVisitorIds (fst (Index.answer i s)) = Index.seenVisitorIds s.
Proof.
  unfold Index.answer. destruct (Index.pending s !! i) as [[w r]|]; [|now split].
  destruct w as [visitorId isNew|]; simpl.
  - destruct r as [[|row rows]|]; now split.
  - destruct r as [rows|]; now split.
Qed.

Lemma size_new_key (key : string) (keys ids : gset string) :
  (if bool_decide (key ∈ ids) then 0 else 1)
  + Z.of_nat (size (keys ∖ ({[key]} ∪ ids)))
  = Z.of_nat (size (({[key]} ∪ keys) ∖ ids)).
Proof.
  case_bool_decide as Hin.
  - rewrite Z.add_0_l. do 2 f_equal. set_solver.
  - assert (Heq : ({[key]} ∪ keys) ∖ ids = {[key]} ∪ keys ∖ ({[key]} ∪ ids)).
    { apply set_eq. intros x.
      rewrite elem_of_difference, !elem_of_union, elem_of_difference, elem_of_union,
        !elem_of_singleton.
      destruct (decide (x = key)) as [->|Hne]; tauto. }
    assert (Hd : ({[key]} : gset string) ## keys ∖ ({[key]} ∪ ids)).
    { intros x. rewrite elem_of_singleton, elem_of_difference, elem_of_union, elem_of_singleton.
      tauto. }
    rewrite Heq, (size_union _ _ Hd), size_singleton. lia.
Qed.

Lemma stored_after_key (key : string) (keys : list string) (ids : gset string) (total unique : Z) :
  {| Server.visit_stats :=
       Some (total + 1 + Z.of_nat (length keys),
             unique + (if bool_decide (key ∈ ids) then 0 else 1)
             + Z.of_nat (size (list_to_set keys ∖ ({[key]} ∪ ids))));
     Server.visitors := list_to_set keys ∪ ({[key]} ∪ ids) |}
  = {| Server.visit_stats :=
         Some (total + Z.of_nat (length (key :: keys)),
               unique + Z.of_nat (size (list_to_set (key :: keys) ∖ ids)));
       Server.visitors := list_to_set (key :: keys) ∪ ids |}.
Proof.
  simpl length. simpl list_to_set. rewrite <- size_new_key.
  rewrite (assoc_L (∪) (list_to_set keys) {[key]} ids).
  rewrite (comm_L (∪) (list_to_set keys) {[key]}).
  replace (total + 1 + Z.of_nat (length keys)) with (total + Z.of_nat (S (length keys))) by lia.
  now rewrite Z.add_assoc.
Qed.

Lemma stored_follows_applied_keys
  (evs : list Index.Event) (s : Index.State) (ids : gset string) (total unique : Z) :
  Index.pool s = Some {| Server.visit_stats := Some (total, unique); Server.visitors := ids |} ->
  Index.pool (Index.run evs s)
  = Some {| Server.visit_stats :=
              Some (total + Z.of_nat (length (applied_keys evs)),
                    unique + Z.of_nat (size (list_to_set (applied_keys evs) ∖ ids)));
            Server.visitors := list_to_set (applied_keys evs) ∪ ids |}.
Proof.
  revert s ids total unique.
  induction evs as [|ev evs IH]; intros s ids total unique Hp.
  - simpl. rewrite Hp. do 2 f_equal; [|set_solver].
    rewrite Z.add_0_r. do 2 f_equal.
    replace ((∅ : gset string) ∖ ids) with (∅ : gset string) by set_solver.
    rewrite size_empty. lia.
  - rewrite index_run_cons. destruct ev as [|[vid env|env]|i].
    + simpl applied_keys. apply IH. simpl. now rewrite Hp.
    + rewrite (index_visit_arrives vid env s _ Hp). cbv zeta. cbn [fst].
      rewrite visitor_key_text. simpl applied_keys.
      unfold Server.visit_query. cbn [Server.visit_stats Server.visitors fst snd].
      destruct (query env) as [|[|]]; cbn [ran fst snd].
      * erewrite IH; [|reflexivity]. now rewrite stored_after_key.
      * erewrite IH; [|reflexivity]. now rewrite stored_after_key.
      * now apply IH.
    + rewrite (index_read_arrives env s _ Hp). cbn [fst]. simpl applied_keys. now apply IH.
    + simpl applied_keys. apply IH. simpl.
      destruct (answer_keeps_pool i s) as [-> _]. exact Hp.
Qed.

(** X19.  With a database whose row exists, whatever happens and in
    whatever order the answers are handled, the stored [total_visits] grows
    by the number of visits whose statement ran, answered or not, the
    table [visitors] gains exactly their keys, and the stored
    [unique_visitors] grows by the number of keys that were not in the
    table, whatever [crypto.randomUUID()] returned. *)
Theorem stored_counters_match_applied_visits
  (evs : list Index.Event) (s : Index.State) (db : Server.Db) (total unique : Z) :
  Index.pool s = Some db ->
  Server.visit_stats db = Some (total, unique) ->
  let keys : gset string := list_to_set (applied_keys evs) in
  Index.pool (Index.run evs s)
  = Some {| Server.visit_stats :=
              Some (total + Z.of_nat (length (applied_keys evs)),
                    unique + Z.of_nat (size (keys ∖ Server.visitors db)));
            Server.visitors := keys ∪ Server.visitors db |}.
Proof.
  intros Hp Hrow keys. apply stored_follows_applied_keys.
  rewrite Hp. destruct db as [row ids]. simpl in *. now subst row.
Qed.

Lemma stored_counters_match_applied_visits_witness :
  let env := fun uuid o => {| randomUUID := uuid; query := o |} in
  let evs := [ Index.Arrive (Visit (Vid.Primitive Vid.Undefined)
                               (env "3b241101-e2bb-4255-8caf-4136c566a962" Resolved));
               Index.Arrive (Visit (Vid.Primitive (Vid.Number "7"))
                               (env "9f1c2d3e-0a4b-4c5d-8e6f-7a8b9c0d1e2f" (Rejected true)));
               Index.Answer 1;
               Index.Arrive (Visit (Vid.Primitive (Vid.Str "7"))
                               (env "7d444840-9dc0-41d1-b245-5ffdce74fad2" Resolved));
               Index.Arrive (Visit (Vid.Primitive Vid.Undefined)
                               (env "5e0c8391-6a2d-4f7b-b1c4-d9e8f7a6b5c4" (Rejected false)));
               Index.Answer 0 ] in
  let db := Server.ensureTables Server.empty_db in
  let s := Index.boot (Some db) in
  let keys : gset string := list_to_set (applied_keys evs) in
  Index.pool s = Some db
  /\ Server.visit_stats db = Some (0, 0)
  /\ Index.pool (Index.run evs s)
     = Some {| Server.visit_stats :=
                 Some (0 + Z.of_nat (length (applied_keys evs)),
                       0 + Z.of_nat (size (keys ∖ Server.visitors db)));
               Server.visitors := keys ∪ Server.visitors db |}
  /\ stored_counters (Index.run evs s) = Some (3, 2).
Proof.
  intros env evs db s keys. split; [reflexivity|]. split; [reflexivity|].
  split; [apply (stored_counters_match_applied_visits evs s db 0 0); reflexivity|].
  vm_compute. reflexivity.
Defined.

Lemma one_by_one_cons (c : Call) (calls : list Call) (s : Index.State) :
  one_by_one (c :: calls) s = one_by_one calls (fst (Index.handle c s)).
Proof. reflexivity. Qed.

Lemma one_by_one_answered
  (calls : list Call) (st : Stats) (seen : Vid.Seen) (waiting : list Index.Query)
  (ids : gset string) (total : Z) :
  all_answered calls = true ->
  (call_keys calls = [] ->
   st = {| totalVisits := Js.Int (Double.round total);
           uniqueVisitors := Js.Int (Double.round (Z.of_nat (size ids))) |}) ->
  let keys : gset string := list_to_set (call_keys calls) ∪ ids in
  let total' := total + Z.of_nat (length (call_keys calls)) in
  one_by_one calls
    {| Index.stats := st;
       Index.seenVisitorIds := seen;
       Index.pool := Some {| Server.visit_stats := Some (total, Z.of_nat (size ids));
                             Server.visitors := ids |};
       Index.pending := waiting |}
  = {| Index.stats := {| totalVisits := Js.Int (Double.round total');
                         uniqueVisitors := Js.Int (Double.round (Z.of_nat (size keys))) |};
       Index.seenVisitorIds := seen;
       Index.pool := Some {| Server.visit_stats := Some (total', Z.of_nat (size keys));
                             Server.visitors := keys |};
       Index.pending := waiting |}.
Proof.
  revert st ids total.
  induction calls as [|[vid env|env] calls IH]; intros st ids total Hall Hst keys total'.
  - subst keys total'. simpl. rewrite (Hst eq_refl), Z.add_0_r.
    now rewrite (left_id_L ∅ (∪) ids).
  - simpl in Hall. apply andb_true_iff in Hall as [Hq Hall].
    assert (Hres : query env = Resolved) by (destruct (query env); [reflexivity | discriminate]).
    rewrite one_by_one_cons.
    erewrite handle_visit_resolved;
      [|reflexivity|reflexivity|exact Hres|apply visitor_key_text].
    cbv zeta. cbn [fst Server.visitors].
    assert (Hsize : Z.of_nat (size ids)
                    + (if bool_decide (visitor_key vid env ∈ ids) then 0 else 1)
                    = Z.of_nat (size ({[visitor_key vid env]} ∪ ids))).
    { case_bool_decide as Hin.
      - rewrite Z.add_0_r. do 2 f_equal. set_solver.
      - rewrite size_union, size_singleton by set_solver. lia. }
    rewrite Hsize, IH; [|exact Hall|reflexivity].
    subst keys total'. simpl call_keys. simpl length. simpl list_to_set.
    replace (list_to_set (call_keys calls) ∪ ({[visitor_key vid env]} ∪ ids))
      with ({[visitor_key vid env]} ∪ list_to_set (call_keys calls) ∪ ids) by set_solver.
    replace (total + 1 + Z.of_nat (length (call_keys calls)))
      with (total + Z.of_nat (S (length (call_keys calls)))) by lia.
    reflexivity.
  - simpl in Hall. apply andb_true_iff in Hall as [Hq Hall].
    assert (Hres : query env = Resolved) by (destruct (query env); [reflexivity | discriminate]).
    rewrite one_by_one_cons. erewrite handle_read; [|reflexivity].
    rewrite Hres. cbn [fst snd Server.visit_stats].
    apply IH; [exact Hall | reflexivity].
Qed.

(** X20.  The counterpart of C1 with a database.  From a fresh database
    whose row exists, when every query is answered and every call is
    handled to its end before the next, the stored counters end at the
    number of calls of [/api/visit] and the number of distinct keys of
    their visitors, and [stats] at the doubles of both, whatever
    [crypto.randomUUID()] returned. *)
Theorem durable_visit_counts (calls : list Call) :
  all_answered calls = true ->
  let N := Z.of_nat (length (call_keys calls)) in
  let K := Z.of_nat (size (list_to_set (call_keys calls) : gset string)) in
  let s := one_by_one calls (Index.boot (Some (Server.ensureTables Server.empty_db))) in
  Index.stats s = {| totalVisits := Js.Int (Double.round N);
                     uniqueVisitors := Js.Int (Double.round K) |}
  /\ stored_counters s = Some (N, K).
Proof.
  intros Hall N K s.
  pose proof (one_by_one_answered calls
                {| totalVisits := Js.Int 0; uniqueVisitors := Js.Int 0 |}
                Vid.empty [] ∅ 0 Hall (fun _ => eq_refl)) as H.
  cbv zeta in H. rewrite (right_id_L ∅ (∪)) in H. rewrite Z.add_0_l in H.
  change (Z.of_nat (size (∅ : gset string))) with 0 in H.
  subst s. unfold Index.boot, Server.ensureTables, Server.empty_db. cbn [Server.visit_stats
    Server.visitors]. rewrite H. unfold stored_counters. now split.
Qed.

Lemma durable_visit_counts_witness :
  let env := fun uuid => {| randomUUID := uuid; query := Resolved |} in
  let calls := [ Visit (Vid.Primitive Vid.Undefined) (env "3b241101-e2bb-4255-8caf-4136c566a962");
                 Read (env "c0a8012e-5b1f-4d7a-9c3e-2f4b6d8e0a1c");
                 Visit (Vid.Object "[]" "{}") (env "7d444840-9dc0-41d1-b245-5ffdce74fad2");
                 Visit (Vid.Object "[]" "{}") (env "5e0c8391-6a2d-4f7b-b1c4-d9e8f7a6b5c4") ] in
  let s := one_by_one calls (Index.boot (Some (Server.ensureTables Server.empty_db))) in
  all_answered calls = true
  /\ (let N := Z.of_nat (length (call_keys calls)) in
      let K := Z.of_nat (size (list_to_set (call_keys calls) : gset string)) in
      Index.stats s = {| totalVisits := Js.Int (Double.round N);
                         uniqueVisitors := Js.Int (Double.round K) |}
      /\ stored_counters s = Some (N, K))
  /\ stored_counters s = Some (3, 2).
Proof.
  intros env calls s. split; [reflexivity|].
  split; [apply (durable_visit_counts calls); reflexivity|].
  vm_compute. reflexivity.
Defined.

(** ** The order of the answers *)

Lemma counters_le_int (t u t' u' : Z) :
  counters_le {| totalVisits := Js.Int t; uniqueVisitors := Js.Int u |}
              {| totalVisits := Js.Int t'; uniqueVisitors := Js.Int u' |}
  <-> t <= t' /\ u <= u'.
Proof. unfold counters_le. simpl. now rewrite !Z.leb_le. Qed.

Lemma counters_le_ints (a b : Stats) :
  counters_le a b ->
  exists t u t' u',
    a = {| totalVisits := Js.Int t; uniqueVisitors := Js.Int u |}
    /\ b = {| totalVisits := Js.Int t'; uniqueVisitors := Js.Int u' |}
    /\ t <= t' /\ u <= u'.
Proof.
  destruct a as [[t|] [u|]], b as [[t'|] [u'|]]; intros [H1 H2]; try discriminate.
  simpl in H1, H2. apply Z.leb_le in H1, H2. now exists t, u, t', u'.
Qed.

Lemma counters_le_trans (a b c : Stats) :
  counters_le a b -> counters_le b c -> counters_le a c.
Proof.
  intros Hab Hbc.
  destruct (counters_le_ints _ _ Hab) as (t & u & t' & u' & -> & -> & H1 & H2).
  destruct (counters_le_ints _ _ Hbc) as (t1 & u1 & t2 & u2 & [= <- <-] & -> & H3 & H4).
  apply counters_le_int. lia.
Qed.

Lemma counters_le_left (a b : Stats) : counters_le a b -> counters_le a a.
Proof.
  intros Hab. destruct (counters_le_ints _ _ Hab) as (t & u & t' & u' & -> & -> & H1 & H2).
  apply counters_le_int. lia.
Qed.

Lemma counters_le_right (a b : Stats) : counters_le a b -> counters_le b b.
Proof.
  intros Hab. destruct (counters_le_ints _ _ Hab) as (t & u & t' & u' & -> & -> & H1 & H2).
  apply counters_le_int. lia.
Qed.

Lemma ordered_lo (lo : Stats) (qs : list Index.Query) (top : Stats) :
  ordered lo qs top -> counters_le lo lo.
Proof.
  revert lo. induction qs as [|q qs IH]; intros lo; simpl.
  - apply counters_le_left.
  - destruct (reading q) as [x|]; [intros [H _]; now apply counters_le_left in H | apply IH].
Qed.

Lemma ordered_snoc (lo : Stats) (qs : list Index.Query) (q : Index.Query) (top top' : Stats) :
  ordered lo qs top ->
  counters_le top top' ->
  match reading q with
  | Some x => x = top'
  | None => True
  end ->
  ordered lo (qs ++ [q]) top'.
Proof.
  revert lo. induction qs as [|p qs IH]; intros lo; simpl.
  - intros Hlo Ht Hq. destruct (reading q) as [x|].
    + subst x. split; [now apply (counters_le_trans _ top) | now apply counters_le_right in Ht].
    + now apply (counters_le_trans _ top).
  - destruct (reading p) as [x|]; [|apply IH].
    intros [H1 H2] Ht Hq. split; [exact H1 | now apply IH].
Qed.

Lemma reading_now_refl (db : Server.Db) : counters_le (reading_now db) (reading_now db).
Proof.
  unfold reading_now.
  destruct (Server.visit_stats db) as [[total unique]|]; apply counters_le_int; lia.
Qed.

Lemma reading_now_visit (key : string) (db : Server.Db) :
  counters_le (reading_now db) (reading_now (fst (Server.visit_query key db))).
Proof.
  unfold reading_now, Server.visit_query.
  destruct (Server.visit_stats db) as [[total unique]|]; simpl.
  - apply counters_le_int. split; apply round_mono; [lia|].
    destruct (bool_decide (key ∈ Server.visitors db)); lia.
  - apply counters_le_int. lia.
Qed.

Lemma reading_visit_query (key : string) (db : Server.Db) (id : Vid.Value) (isNew : bool) :
  match reading {| Index.waiting := Index.VisitWaits id isNew;
                   Index.settled := Index.Rows (snd (Server.visit_query key db)) |} with
  | Some x => x = reading_now (fst (Server.visit_query key db))
  | None => True
  end.
Proof.
  unfold reading, reading_now, Server.visit_query. simpl.
  destruct (Server.visit_stats db) as [[total unique]|]; simpl; [|exact I].
  now rewrite !Double_Number_pg_int8.
Qed.

Lemma reading_stats_query (db : Server.Db) :
  reading {| Index.waiting := Index.StatsWaits;
             Index.settled := Index.Rows (Server.stats_query db) |}
  = Some (reading_now db).
Proof.
  unfold reading, reading_now, Server.stats_query. simpl.
  destruct (Server.visit_stats db) as [[total unique]|]; simpl; [|reflexivity].
  now rewrite !Double_Number_pg_int8.
Qed.

(** The oldest query settles: [stats] becomes its reading, if it has one. *)
Lemma answer_oldest (q : Index.Query) (qs : list Index.Query) (s : Index.State) :
  Index.pending s = q :: qs ->
  fst (Index.answer 0 s)
  = {| Index.stats := default (Index.stats s) (reading q);
       Index.seenVisitorIds := Index.seenVisitorIds s;
       Index.pool := Index.pool s;
       Index.pending := qs |}.
Proof.
  intros Hp. unfold Index.answer. rewrite Hp. simpl.
  destruct q as [[id isNew|] [[|row rows]|]]; reflexivity.
Qed.

Lemma answer_nothing (i : nat) (s : Index.State) :
  Index.pending s !! i = None -> Index.answer i s = (s, None).
Proof. intros H. unfold Index.answer. now rewrite H. Qed.

Lemma bounded_plus_one (t : Z) :
  0 <= t <= 2 ^ 53 -> t <= Double.round (t + 1) <= 2 ^ 53.
Proof.
  intros H. destruct (Z.eq_dec t (2 ^ 53)) as [->|Hne].
  - rewrite round_saturated. lia.
  - rewrite round_exact by lia. lia.
Qed.

Lemma part000_step_bounded (c : Call) (m : Part000.State) :
  Bounded (Part000.stats m) ->
  Bounded (Part000.stats (fst (Part000.step c m)))
  /\ counters_le (Part000.stats m) (Part000.stats (fst (Part000.step c m))).
Proof.
  intros (t & u & Hst & Ht & Hu). destruct c as [vid env|env]; simpl.
  - rewrite part000_stats_after_visit, Hst. simpl.
    pose proof (bounded_plus_one t Ht). pose proof (bounded_plus_one u Hu).
    destruct (Vid.truthy vid && Vid.has (Part000.seenVisitorIds m) vid).
    + split; [eexists _, _; split; [reflexivity|]; lia | apply counters_le_int; lia].
    + split; [eexists _, _; split; [reflexivity|]; lia | apply counters_le_int; lia].
  - rewrite Hst. split; [now exists t, u | apply counters_le_int; lia].
Qed.

Lemma part000_run_bounded (calls : list Call) (m : Part000.State) :
  Bounded (Part000.stats m) -> Bounded (Part000.stats (Part000.run calls m)).
Proof.
  revert m. induction calls as [|c calls IH]; intros m Hb; [exact Hb|].
  rewrite part000_run_cons. apply IH. now apply part000_step_bounded.
Qed.

Lemma without_pool_eq (s : Index.State) :
  Index.pool s = None -> Index.pending s = [] ->
  s = without_pool {| Part000.stats := Index.stats s;
                      Part000.seenVisitorIds := Index.seenVisitorIds s |}.
Proof. destruct s. simpl. now intros -> ->. Qed.

Lemma reading_now_ensure (db : Server.Db) :
  reading_now (Server.ensureTables db) = reading_now db.
Proof.
  unfold reading_now, Server.ensureTables. simpl.
  now destruct (Server.visit_stats db) as [[total unique]|].
Qed.

Lemma ordered_step (ev : Index.Event) (s : Index.State) :
  oldest_first ev = true ->
  Ordered s ->
  Ordered (fst (Index.step ev s))
  /\ counters_le (Index.stats s) (Index.stats (fst (Index.step ev s))).
Proof.
  intros Hev Hs. unfold Ordered in Hs. destruct (Index.pool s) as [db|] eqn:Hp.
  - pose proof (ordered_lo _ _ _ Hs) as Hrefl.
    destruct ev as [|[vid env|env]|i].
    + split; [|exact Hrefl]. unfold Ordered. simpl. rewrite Hp. simpl.
      now rewrite reading_now_ensure.
    + rewrite (index_visit_arrives vid env s db Hp). cbv zeta. cbn [fst].
      split; [|exact Hrefl]. unfold Ordered. cbn [Index.pool Index.stats Index.pending].
      rewrite visitor_key_text. destruct (query env) as [|[|]]; cbn [fst snd].
      * apply (ordered_snoc _ _ _ (reading_now db)); [exact Hs|apply reading_now_visit|].
        apply reading_visit_query.
      * apply (ordered_snoc _ _ _ (reading_now db)); [exact Hs|apply reading_now_visit|exact I].
      * apply (ordered_snoc _ _ _ (reading_now db)); [exact Hs|apply reading_now_refl|exact I].
    + rewrite (index_read_arrives env s db Hp). cbn [fst].
      split; [|exact Hrefl]. unfold Ordered. cbn [Index.pool Index.stats Index.pending].
      apply (ordered_snoc _ _ _ (reading_now db)); [exact Hs|apply reading_now_refl|].
      destruct (query env) as [|a]; [now rewrite reading_stats_query | exact I].
    + simpl in Hev. apply Nat.eqb_eq in Hev. subst i. simpl Index.step.
      destruct (Index.pending s) as [|q qs] eqn:Hq.
      * rewrite answer_nothing by (now rewrite Hq). simpl.
        split; [|exact Hrefl]. unfold Ordered. now rewrite Hp, Hq.
      * rewrite (answer_oldest q qs s Hq). cbn [Index.stats].
        simpl in Hs. unfold Ordered. cbn [Index.pool Index.stats Index.pending]. rewrite Hp.
        destruct (reading q) as [x|]; simpl.
        -- destruct Hs as [H1 H2]. now split.
        -- now split.
  - destruct Hs as [Hq Hb].
    rewrite (without_pool_eq s Hp Hq).
    set (m := {| Part000.stats := Index.stats s;
                 Part000.seenVisitorIds := Index.seenVisitorIds s |}).
    assert (Hrefl : counters_le (Index.stats s) (Index.stats s)).
    { destruct Hb as (t & u & -> & _). apply counters_le_int. lia. }
    destruct ev as [|c|i].
    + rewrite (index_idle_without_pool Index.Ensure m I). simpl.
      split; [|exact Hrefl]. unfold Ordered. simpl. now split.
    + rewrite index_step_without_pool. cbn [fst].
      destruct (part000_step_bounded c m Hb) as [Hb' Hle].
      split; [|exact Hle]. unfold Ordered. simpl. now split.
    + rewrite (index_idle_without_pool (Index.Answer i) m I). simpl.
      split; [|exact Hrefl]. unfold Ordered. simpl. now split.
Qed.

Lemma ordered_run (evs : list Index.Event) (s : Index.State) :
  in_order evs = true -> Ordered s -> Ordered (Index.run evs s).
Proof.
  revert s. induction evs as [|ev evs IH]; intros s Hin Hs; [exact Hs|].
  simpl in Hin. apply andb_true_iff in Hin as [Hev Hin].
  rewrite index_run_cons. apply IH; [exact Hin|]. now apply ordered_step.
Qed.

Lemma ordered_boot (database : option Server.Db) :
  database_ok database -> Ordered (Index.boot database).
Proof.
  intros Hok. unfold Ordered. simpl. destruct database as [db|].
  - simpl. unfold reading_now. simpl in Hok. unfold row_ok in Hok.
    destruct (Server.visit_stats db) as [[total unique]|]; apply counters_le_int.
    + split; apply round_nonneg; lia.
    + lia.
  - split; [reflexivity|]. exists 0, 0. split; [reflexivity|]. lia.
Qed.

Lemma stored_grows_refl (row : option (Z * Z)) : stored_grows row row.
Proof. destruct row as [[total unique]|]; simpl; [lia | exact I]. Qed.

(** No event lowers a stored counter. *)
Lemma step_stored_grows (ev : Index.Event) (s : Index.State) :
  stored_grows (stored_counters s) (stored_counters (fst (Index.step ev s))).
Proof.
  unfold stored_counters at 1. destruct (Index.pool s) as [db|] eqn:Hp; [|exact I].
  destruct ev as [|[vid env|env]|i].
  - unfold stored_counters. simpl. rewrite Hp. simpl.
    destruct (Server.visit_stats db) as [[total unique]|]; simpl; [lia | exact I].
  - rewrite (index_visit_arrives vid env s db Hp). cbv zeta. unfold stored_counters.
    cbn [fst Index.pool]. rewrite visitor_key_text.
    assert (Hq : stored_grows (Server.visit_stats db)
                   (Server.visit_stats (fst (Server.visit_query (visitor_key vid env) db)))).
    { unfold Server.visit_query.
      destruct (Server.visit_stats db) as [[total unique]|]; simpl; [|exact I].
      destruct (bool_decide (visitor_key vid env ∈ Server.visitors db)); lia. }
    destruct (query env) as [|[|]]; cbn [fst]; try exact Hq. apply stored_grows_refl.
  - rewrite (index_read_arrives env s db Hp). unfold stored_counters. cbn [fst Index.pool].
    apply stored_grows_refl.
  - unfold stored_counters. simpl Index.step.
    destruct (answer_keeps_pool i s) as [-> _]. rewrite Hp. apply stored_grows_refl.
Qed.

Lemma in_order_snoc (evs : list Index.Event) (ev : Index.Event) :
  in_order (evs ++ [ev]) = in_order evs && oldest_first ev.
Proof. unfold in_order. rewrite forallb_app. simpl. now rewrite andb_true_r. Qed.

(** C6, as stated, fails with a database: [stats] is overwritten by each
    answer as it arrives, so the answer to an older query, handled after
    the answer to a later one, takes both counters back. *)
Lemma late_answer_lowers_stats_counterexample :
  let env := fun uuid => {| randomUUID := uuid; query := Resolved |} in
  let evs := [ Index.Arrive (Visit (Vid.Primitive Vid.Undefined)
                               (env "3b241101-e2bb-4255-8caf-4136c566a962"));
               Index.Arrive (Visit (Vid.Primitive Vid.Undefined)
                               (env "9f1c2d3e-0a4b-4c5d-8e6f-7a8b9c0d1e2f"));
               Index.Answer 1 ] in
  let s := Index.run evs (Index.boot (Some (Server.ensureTables Server.empty_db))) in
  let s' := fst (Index.step (Index.Answer 0) s) in
  Index.stats s = {| totalVisits := Js.Int 2; uniqueVisitors := Js.Int 2 |}
  /\ Index.stats s' = {| totalVisits := Js.Int 1; uniqueVisitors := Js.Int 1 |}
  /\ ~ counters_le (Index.stats s) (Index.stats s').
Proof.
  vm_compute. split; [reflexivity|]. split; [reflexivity|]. intros [H _]. discriminate H.
Qed.

(** C6, amended.  The stored counters never decrease, whatever happens
    and in whatever order.  The counters of [stats] never decrease in
    [part_000] and in [index.js] without a pool; with a database they
    never decrease as long as the answers of the database are handled in
    the order its statements ran.  The database the server starts with is
    any consistent one. *)
Theorem counters_never_decrease
  (database : option Server.Db) (evs : list Index.Event) (ev : Index.Event)
  (calls : list Call) (c : Call) :
  database_ok database ->
  (let s := Index.run evs (Index.boot database) in
   let s' := fst (Index.step ev s) in
   stored_grows (stored_counters s) (stored_counters s')
   /\ (in_order (evs ++ [ev]) = true \/ database = None ->
       counters_le (Index.stats s) (Index.stats s')))
  /\ (let m := Part000.run calls Part000.init in
      counters_le (Part000.stats m) (Part000.stats (fst (Part000.step c m)))).
Proof.
  intros Hok. split.
  - cbv zeta. split; [apply step_stored_grows|]. intros [Hin| ->].
    + rewrite in_order_snoc in Hin. apply andb_true_iff in Hin as [Hevs Hev].
      apply ordered_step; [exact Hev|]. apply ordered_run; [exact Hevs|].
      now apply ordered_boot.
    + destruct (index_run_without_pool evs Part000.init) as [Hrun _].
      change (Index.boot None) with (without_pool Part000.init). rewrite Hrun.
      set (m := Part000.run (arrivals evs) Part000.init).
      assert (Hb : Bounded (Part000.stats m)).
      { apply part000_run_bounded. exists 0, 0. split; [reflexivity | lia]. }
      destruct ev as [|c'|i].
      * rewrite (index_idle_without_pool Index.Ensure m I). simpl.
        destruct Hb as (t & u & -> & _). apply counters_le_int. lia.
      * rewrite index_step_without_pool. simpl. now apply part000_step_bounded.
      * rewrite (index_idle_without_pool (Index.Answer i) m I). simpl.
        destruct Hb as (t & u & -> & _). apply counters_le_int. lia.
  - cbv zeta. apply part000_step_bounded, part000_run_bounded.
    exists 0, 0. split; [reflexivity | lia].
Qed.

Lemma counters_never_decrease_witness :
  let env := fun uuid => {| randomUUID := uuid; query := Resolved |} in
  let evs := [ Index.Arrive (Visit (Vid.Primitive Vid.Undefined)
                               (env "3b241101-e2bb-4255-8caf-4136c566a962"));
               Index.Ensure;
               Index.Arrive (Visit (Vid.Primitive Vid.Undefined)
                               (env "9f1c2d3e-0a4b-4c5d-8e6f-7a8b9c0d1e2f"));
               Index.Answer 0 ] in
  let ev := Index.Answer 0 in
  let s := Index.run evs (Index.boot (Some Server.empty_db)) in
  let s' := fst (Index.step ev s) in
  database_ok (Some Server.empty_db)
  /\ in_order (evs ++ [ev]) = true
  /\ stored_grows (stored_counters s) (stored_counters s')
  /\ counters_le (Index.stats s) (Index.stats s').
Proof.
  intros env evs ev s s'.
  assert (Hok : database_ok (Some Server.empty_db)) by exact I.
  split; [exact Hok|]. split; [reflexivity|].
  destruct (counters_never_decrease (Some Server.empty_db) evs ev [] (Read (env "")) Hok)
    as [[H1 H2] _].
  split; [exact H1 | apply H2; left; reflexivity].
Defined.

(** ** Before any visit *)

Lemma step_keeps_mode (ev : Index.Event) (s : Index.State) :
  Index.pool (fst (Index.step ev s)) = None <-> Index.pool s = None.
Proof.
  destruct ev as [|[vid env|env]|i].
  - simpl. now destruct (Index.pool s).
  - destruct (Index.pool s) as [db|] eqn:Hp.
    + now rewrite (index_visit_arrives vid env s db Hp).
    + unfold Index.step, Index.post_visit. rewrite resolveVisitor_value, Hp.
      now destruct (Vid.countVisit _ _ _ _).
  - unfold Index.step, Index.get_stats. now destruct (Index.pool s) as [db|] eqn:Hp.
  - simpl. now destruct (answer_keeps_pool i s) as [-> _].
Qed.

Lemma run_keeps_mode (evs : list Index.Event) (s : Index.State) :
  Index.pool (Index.run evs s) = None <-> Index.pool s = None.
Proof.
  revert s. induction evs as [|ev evs IH]; intros s; [reflexivity|].
  rewrite index_run_cons, IH. apply step_keeps_mode.
Qed.

Lemma stats_answer_reading (rows : list Server.Row) (s : Index.State) (st : Stats) :
  reading {| Index.waiting := Index.StatsWaits; Index.settled := Index.Rows rows |} = Some st ->
  Index.stats_answer (Index.Rows rows) s
  = ({| Index.stats := st;
        Index.seenVisitorIds := Index.seenVisitorIds s;
        Index.pool := Index.pool s;
        Index.pending := Index.pending s |},
     {| status := 200;
        headers := [];
        cookie := None;
        body := StatsJson (totalVisits st) (uniqueVisitors st) |}).
Proof.
  unfold reading, Index.stats_answer. cbn [Index.waiting Index.settled].
  destruct rows as [|row rows]; intros [= <-]; reflexivity.
Qed.

Lemma quiet_step (ev : Index.Event) (s : Index.State) :
  no_visit ev = true ->
  Quiet s ->
  Quiet (fst (Index.step ev s))
  /\ match snd (Index.step ev s) with
     | Some r => r = stats_ok 0 0
                 \/ (Index.pool s <> None /\ r = failed_with "stats_read_failed")
     | None => True
     end.
Proof.
  intros Hev (Hst & Hdb & Hall). destruct ev as [|[vid env|env]|i]; [|discriminate| |].
  - split; [|exact I]. unfold Quiet. simpl. split; [exact Hst|]. split; [|exact Hall].
    destruct (Index.pool s) as [db|]; simpl; [|exact Hdb].
    right. destruct Hdb as [-> | ->]; reflexivity.
  - destruct (Index.pool s) as [db|] eqn:Hp.
    + rewrite (index_read_arrives env s db Hp). cbn [fst snd]. split; [|exact I].
      unfold Quiet. cbn [Index.stats Index.pool Index.pending].
      split; [exact Hst|]. split; [exact Hdb|].
      apply Forall_app. split; [exact Hall|]. constructor; [|constructor].
      cbn [Index.waiting Index.settled]. split; [reflexivity|].
      destruct (query env) as [|a]; [right | now left].
      rewrite reading_stats_query. unfold reading_now. now destruct Hdb as [-> | ->].
    + unfold Index.step, Index.get_stats. rewrite Hp. cbn [fst snd]. split.
      * unfold Quiet. rewrite Hp. now repeat split.
      * left. now rewrite Hst.
  - simpl Index.step. unfold Index.answer.
    destruct (Index.pending s !! i) as [q|] eqn:Hq; [|split; [now repeat split | exact I]].
    assert (Hpool : Index.pool s <> None).
    { destruct (Index.pool s); [discriminate|]. now rewrite Hdb in Hq. }
    destruct (Forall_lookup_1 _ _ _ _ Hall Hq) as [Hw Hr].
    pose proof (Forall_delete _ _ i Hall) as Hrest.
    destruct q as [w [rows|]]; cbn [Index.waiting Index.settled] in *; subst w.
    + destruct Hr as [Hr|Hr]; [discriminate|].
      rewrite (stats_answer_reading rows _ _ Hr). cbn [fst snd]. split; [|now left].
      unfold Quiet. cbn [Index.stats Index.pool Index.pending].
      split; [reflexivity|]. split; [|exact Hrest].
      destruct (Index.pool s); [exact Hdb | congruence].
    + cbn [Index.stats_answer fst snd]. split; [|right; now split].
      unfold Quiet. cbn [Index.stats Index.pool Index.pending].
      split; [exact Hst|]. split; [|exact Hrest].
      destruct (Index.pool s); [exact Hdb | congruence].
Qed.

Lemma quiet_run (evs : list Index.Event) (s : Index.State) :
  reads_only evs = true ->
  Quiet s ->
  Quiet (Index.run evs s)
  /\ Forall (fun r => r = stats_ok 0 0
                      \/ (Index.pool s <> None /\ r = failed_with "stats_read_failed"))
       (answers evs s).
Proof.
  revert s. induction evs as [|ev evs IH]; intros s Hro Hs; [split; [exact Hs | constructor]|].
  simpl in Hro. apply andb_true_iff in Hro as [Hev Hro].
  destruct (quiet_step ev s Hev Hs) as [Hs' Hr].
  destruct (IH _ Hro Hs') as [Hrun Hans].
  rewrite index_run_cons, answers_cons. split; [exact Hrun|].
  assert (Hans' : Forall (fun r => r = stats_ok 0 0
                                   \/ (Index.pool s <> None
                                       /\ r = failed_with "stats_read_failed"))
                    (answers evs (fst (Index.step ev s)))).
  { eapply Forall_impl; [exact Hans|]. intros r [H|[H1 H2]]; [now left|right].
    split; [|exact H2]. intros Hn. apply H1. now apply step_keeps_mode. }
  destruct (snd (Index.step ev s)) as [r|]; [constructor; assumption | exact Hans'].
Qed.

Lemma part000_reads_only (evs : list Index.Event) (m : Part000.State) :
  reads_only evs = true -> Part000.run (arrivals evs) m = m.
Proof.
  induction evs as [|ev evs IH]; [reflexivity|]. simpl. intros H.
  apply andb_true_iff in H as [Hev H].
  destruct ev as [|[vid env|env]|i]; try discriminate; now apply IH.
Qed.

(** C8.  Before any visit, however many reads came before and in
    whatever order their answers were handled, [/api/stats] answers status
    200 with [totalVisits: 0] and [uniqueVisitors: 0]: always in [part_000] and
    in [index.js] without a pool, and with a fresh database (whether or not
    [ensureTables] has inserted the row yet) whenever the query is
    answered; a rejected query is answered 500 with [stats_read_failed]. *)
Theorem stats_before_any_visit (durable : bool) (evs : list Index.Event) (env : Env) :
  reads_only evs = true ->
  let zero := {| status := 200;
                 headers := [];
                 cookie := None;
                 body := StatsJson (Js.Int 0) (Js.Int 0) |} in
  let failed := {| status := 500;
                   headers := [];
                   cookie := None;
                   body := ErrorJson false "stats_read_failed" |} in
  let s0 := Index.boot (if durable then Some Server.empty_db else None) in
  snd (Index.handle (Read env) (Index.run evs s0))
  = Some (if durable && rejected (query env) then failed else zero)
  /\ Forall (fun r => r = zero \/ (durable = true /\ r = failed)) (answers evs s0)
  /\ snd (Part000.get_stats (Part000.run (arrivals evs) Part000.init)) = zero.
Proof.
  intros Hro zero failed s0.
  assert (H0 : Quiet s0).
  { subst s0. unfold Quiet. destruct durable; simpl.
    - split; [reflexivity|]. split; [now left | constructor].
    - split; [reflexivity|]. split; [reflexivity | constructor]. }
  destruct (quiet_run evs s0 Hro H0) as [(Hst & Hdb & _) Hans].
  split; [|split].
  - destruct (Index.pool (Index.run evs s0)) as [db|] eqn:Hp.
    + assert (Hd : durable = true).
      { destruct durable; [reflexivity|]. exfalso.
        assert (Index.pool (Index.run evs s0) = None) by (now apply run_keeps_mode).
        congruence. }
      rewrite (handle_read env _ db Hp), Hd. simpl andb.
      destruct (query env) as [|a]; simpl; [|reflexivity].
      destruct Hdb as [-> | ->]; reflexivity.
    + assert (Hd : durable = false).
      { destruct durable; [|reflexivity]. exfalso.
        apply run_keeps_mode in Hp. discriminate Hp. }
      rewrite Hd. simpl andb. cbv iota.
      unfold Index.handle, Index.step, Index.get_stats. rewrite Hp. simpl. now rewrite Hst.
  - eapply Forall_impl; [exact Hans|]. intros r [H|[H1 H2]]; [now left|right].
    split; [|exact H2]. destruct durable; [reflexivity|]. now destruct H1.
  - now rewrite part000_reads_only.
Qed.

Lemma stats_before_any_visit_witness :
  let env := fun uuid o => {| randomUUID := uuid; query := o |} in
  let evs := [ Index.Arrive (Read (env "c0a8012e-5b1f-4d7a-9c3e-2f4b6d8e0a1c" Resolved));
               Index.Ensure;
               Index.Arrive (Read (env "0e6f4c1a-7b2d-4e3f-a5c6-9d8e7f6a5b4c" (Rejected false)));
               Index.Answer 1;
               Index.Answer 0 ] in
  let s0 := Index.boot (Some Server.empty_db) in
  reads_only evs = true
  /\ snd (Index.handle (Read (env "5e0c8391-6a2d-4f7b-b1c4-d9e8f7a6b5c4" Resolved))
            (Index.run evs s0))
     = Some {| status := 200;
               headers := [];
               cookie := None;
               body := StatsJson (Js.Int 0) (Js.Int 0) |}.
Proof.
  intros env evs s0. split; [reflexivity|].
  apply (stats_before_any_visit true evs
           (env "5e0c8391-6a2d-4f7b-b1c4-d9e8f7a6b5c4" Resolved)).
  reflexivity.
Defined.
